(** * H(curl div) finite elements of NGSolve: a shallow embedding of
      [fem/hcurldivfe.hpp]

    The header defines the degree-of-freedom count and the enumeration of
    the matrix-valued basis functions of the triangle and the tetrahedron
    (and of their surface traces), built from a handful of small classes
    that expose [Shape()] and [DivShape()].

    Conventions of the embedding:
    - C++ [int] is [Z]; the orders considered stay far from the limits of
      a 32-bit integer, signed overflow being undefined in C++ anyway.
    - [double] in the shape algebra is an exact scalar type [S] with ring
      operations (class [Scalar]); instances are the rationals [Q] and the
      bivariate polynomial expressions [bipoly] (scalar fields).
    - [double] in the index arithmetic of the tetrahedron ([/2.0], [/6.0],
      [8.0/6.0]) is IEEE binary64 ([PrimFloat]).
    - exceptions are the [Exception] outcome of [result]; the rows already
      written when an exception is raised stay in the state.
    - [shape[ii++] = val] advances [ii] and hands the old value and [val]
      to the row callback; every array subscript is logged with the
      declared size of the array, the subscript operator of [ArrayMem]
      being unchecked.
    - the classes [T_sigma_u_grad_v] and [T_Dl2xRotDl1_v] are
      constructed only in statements that are commented out or follow
      the [throw] of the enrichment loop; they are modelled on their
      own, outside [T_CalcShape].
    - the class [FacetFiniteElement_Family] of [fem/facethofe.hpp] is
      modelled in the module of the same name. *)

From Stdlib Require Import ZArith QArith String List Bool Lia Floats Uint63.
From Stdlib Require Import Ring FinFun Permutation Lqa.
Import ListNotations.

Local Open Scope Z_scope.

(** ** Scalars *)

Class Scalar (S : Type) : Type := {
  s_of_Z : Z -> S;
  sadd : S -> S -> S;
  ssub : S -> S -> S;
  smul : S -> S -> S;
  sopp : S -> S
}.

Declare Scope scalar_scope.
Delimit Scope scalar_scope with s.
Infix "+" := sadd : scalar_scope.
Infix "-" := ssub : scalar_scope.
Infix "*" := smul : scalar_scope.
Notation "- x" := (sopp x) : scalar_scope.
Notation "0" := (s_of_Z 0%Z) : scalar_scope.
Notation "1" := (s_of_Z 1%Z) : scalar_scope.
Notation "2" := (s_of_Z 2%Z) : scalar_scope.

#[export] Instance Scalar_Q : Scalar Q := {
  s_of_Z := inject_Z;
  sadd := Qplus;
  ssub := Qminus;
  smul := Qmult;
  sopp := Qopp
}.

(** ** Outcomes *)

Inductive result (A : Type) : Type :=
| Ok (a : A)
| Exception (what : string).
Arguments Ok {A} a.
Arguments Exception {A} what.

Definition is_Ok {A} (r : result A) : bool :=
  match r with Ok _ => true | Exception _ => false end.

(** ** Integer ranges of [for] loops *)

(** [for (int k = lo; k <= hi; k++)] visits [zrange lo hi]. *)
Definition zrange (lo hi : Z) : list Z :=
  map (fun k => lo + Z.of_nat k) (seq 0 (Z.to_nat (hi - lo + 1))).

(** [n] consecutive integers from [a]. *)
Definition zseq (a : Z) (n : nat) : list Z :=
  map (fun k => a + Z.of_nat k) (seq 0 n).

(** [Vec<N>] of doubles. *)
Definition Vec (S : Type) : Type := list S.

(** The table [f 0, ..., f (n-1)]. *)
Definition tab {A} (n : nat) (f : nat -> A) : list A := map f (seq 0 n).

(** ** Algorithmic differentiation numbers *)

(** Modelled from the spec: the first-order number type [AutoDiff<D>]
    (value and gradient); its declaration is outside [src/]. *)
Record AutoDiff (S : Type) (D : nat) : Type := mkAD {
  ad_Value : S;
  ad_dval : list S
}.
Arguments mkAD {S D}.
Arguments ad_Value {S D}.
Arguments ad_dval {S D}.

(** Modelled from the spec: the second-order number type
    [AutoDiffDiff<D>] (value, gradient [dval[D]], Hessian [ddval[D*D]])
    with sum, difference and product following the Leibniz rule; its
    declaration is outside [src/]. *)
Record AutoDiffDiff (S : Type) (D : nat) : Type := mkADD {
  Value : S;
  dval : list S;
  ddval : list S
}.
Arguments mkADD {S D}.
Arguments Value {S D}.
Arguments dval {S D}.
Arguments ddval {S D}.

Section WithScalar.

Context {S : Type} `{Scalar S}.
Local Open Scope scalar_scope.

Local Abbreviation AutoDiffDiff := (AutoDiffDiff S).

Definition DValue {D} (a : AutoDiffDiff D) (i : nat) : S := nth i (dval a) 0.

Definition DDValue {D} (a : AutoDiffDiff D) (i j : nat) : S :=
  nth (i * D + j) (ddval a) 0.

Definition tab2 (D : nat) (f : nat -> nat -> S) : list S :=
  flat_map (fun i => tab D (f i)) (seq 0 D).

(** [AutoDiffDiff<D>(val)]: a constant. *)
Definition ADD_const (D : nat) (v : S) : AutoDiffDiff D :=
  mkADD v (tab D (fun _ => 0)) (tab2 D (fun _ _ => 0)).

(** [AutoDiffDiff<D>(val, diffindex)]: the independent variable number
    [diffindex]. *)
Definition ADD_var (D : nat) (v : S) (diffindex : nat) : AutoDiffDiff D :=
  mkADD v (tab D (fun j => if Nat.eqb j diffindex then 1 else 0))
          (tab2 D (fun _ _ => 0)).

(** [a.LoadGradient(p)]: overwrite the gradient by [p[0..D-1]]. *)
Definition LoadGradient {D} (a : AutoDiffDiff D) (p : list S) : AutoDiffDiff D :=
  mkADD (Value a) (tab D (fun i => nth i p 0)) (ddval a).

Definition ad_add {D} (a b : AutoDiffDiff D) : AutoDiffDiff D :=
  mkADD (Value a + Value b)
        (tab D (fun i => DValue a i + DValue b i))
        (tab2 D (fun i j => DDValue a i j + DDValue b i j)).

Definition ad_sub {D} (a b : AutoDiffDiff D) : AutoDiffDiff D :=
  mkADD (Value a - Value b)
        (tab D (fun i => DValue a i - DValue b i))
        (tab2 D (fun i j => DDValue a i j - DDValue b i j)).

Definition ad_mul {D} (a b : AutoDiffDiff D) : AutoDiffDiff D :=
  mkADD (Value a * Value b)
        (tab D (fun i => Value a * DValue b i + DValue a i * Value b))
        (tab2 D (fun i j =>
           Value a * DDValue b i j + DValue a i * DValue b j
           + DValue a j * DValue b i + DDValue a i j * Value b)).

(** [c - a], [a - c] and [c * a] for a plain number [c]. *)
Definition sc_sub_ad {D} (c : S) (a : AutoDiffDiff D) : AutoDiffDiff D :=
  mkADD (c - Value a)
        (tab D (fun i => - DValue a i))
        (tab2 D (fun i j => - DDValue a i j)).

Definition ad_sub_sc {D} (a : AutoDiffDiff D) (c : S) : AutoDiffDiff D :=
  mkADD (Value a - c) (dval a) (ddval a).

Definition sc_mul_ad {D} (c : S) (a : AutoDiffDiff D) : AutoDiffDiff D :=
  mkADD (c * Value a)
        (tab D (fun i => c * DValue a i))
        (tab2 D (fun i j => c * DDValue a i j)).

End WithScalar.

Declare Scope ad_scope.
Delimit Scope ad_scope with ad.
Infix "+" := ad_add : ad_scope.
Infix "-" := ad_sub : ad_scope.
Infix "*" := ad_mul : ad_scope.

(** ** The shape-function classes

    Every value handed to the row callback offers [Shape()] and
    [DivShape()]; the callbacks of [CalcShape] and [CalcDivShape] are
    generic lambdas ([auto val]), which the class [ShapeFunction]
    renders.  [DivShape] may raise. *)

Class ShapeFunction (S T : Type) : Type := {
  Shape : T -> Vec S;
  DivShape : T -> result (Vec S)
}.

Section Blocks.

Context {S : Type} `{Scalar S}.
Local Open Scope scalar_scope.

Local Abbreviation ADD := (AutoDiffDiff S).

(** *** Edge basis functions, div-free: [sigma(grad v) = Curl(grad v)] *)

Record Sigma_gradv : Type := mk_Sigma_gradv { sgv_v : ADD 2 }.

Definition Sigma_gradv_Shape (b : Sigma_gradv) : Vec S :=
  let v := sgv_v b in
  [ - DDValue v 0 1; DDValue v 0 0;
    - DDValue v 1 1; DDValue v 0 1 ].

Definition Sigma_gradv_DivShape (b : Sigma_gradv) : result (Vec S) :=
  Ok [0; 0].

(** *** Type 1 inner basis functions, div-free:
    [Curl(grad u) * v + grad u * Curl v] *)

Record Sigma_gradu_v : Type := mk_Sigma_gradu_v { sguv_u : ADD 2; sguv_v : ADD 2 }.

Definition Sigma_gradu_v_Shape (b : Sigma_gradu_v) : Vec S :=
  let u := sguv_u b in
  let v := sguv_v b in
  [ - DDValue u 1 0 * Value v - DValue v 1 * DValue u 0;
    DDValue u 0 0 * Value v + DValue v 0 * DValue u 0;
    - DDValue u 1 1 * Value v - DValue v 1 * DValue u 1;
    DDValue u 0 1 * Value v + DValue v 0 * DValue u 1 ].

Definition Sigma_gradu_v_DivShape (b : Sigma_gradu_v) : result (Vec S) :=
  Ok [0; 0].

(** *** Type 2 inner basis functions, not div-free:
    [Curl(grad u) * v - grad u * Curl v] *)

Record Curlgraduv_graducurlv : Type :=
  mk_Curlgraduv_graducurlv { cg_u : ADD 2; cg_v : ADD 2 }.

Definition Curlgraduv_graducurlv_Shape (b : Curlgraduv_graducurlv) : Vec S :=
  let u := cg_u b in
  let v := cg_v b in
  [ - DDValue u 1 0 * Value v + DValue v 1 * DValue u 0;
    DDValue u 0 0 * Value v - DValue v 0 * DValue u 0;
    - DDValue u 1 1 * Value v + DValue v 1 * DValue u 1;
    DDValue u 0 1 * Value v - DValue v 0 * DValue u 1 ].

Definition Curlgraduv_graducurlv_DivShape (b : Curlgraduv_graducurlv)
  : result (Vec S) :=
  let u := cg_u b in
  let v := cg_v b in
  let uxx := DDValue u 0 0 in
  let uxy := DDValue u 0 1 in
  let uyy := DDValue u 1 1 in
  let vx := DValue v 0 in
  let vy := DValue v 1 in
  Ok [ s_of_Z (-2) * (- uxx * vy + uxy * vx);
       s_of_Z (-2) * (- uxy * vy + uyy * vx) ].

(** *** Type 3 inner basis functions, div-free:
    [Curl([grad(l1) l2 - l1 grad(l2)] * v)] *)

Record T_type4 : Type := mk_T_type4 { t4_l1 : ADD 2; t4_l2 : ADD 2; t4_v : ADD 2 }.

Definition T_type4_Shape (b : T_type4) : Vec S :=
  let l1 := t4_l1 b in
  let l2 := t4_l2 b in
  let v := t4_v b in
  let lam1x := DValue l1 0 in
  let lam1y := DValue l1 1 in
  let lam1xx := DDValue l1 0 0 in
  let lam1xy := DDValue l1 1 0 in
  let lam1yx := DDValue l1 0 1 in
  let lam1yy := DDValue l1 1 1 in
  let lam2x := DValue l2 0 in
  let lam2y := DValue l2 1 in
  let lam2xx := DDValue l2 0 0 in
  let lam2xy := DDValue l2 1 0 in
  let lam2yx := DDValue l2 0 1 in
  let lam2yy := DDValue l2 1 1 in
  let vx := DValue v 0 in
  let vy := DValue v 1 in
  [ Value v * (- lam1yx * Value l2 - lam1x * lam2y + lam2yx * Value l1 + lam2x * lam1y)
      - (lam1x * Value l2 - lam2x * Value l1) * vy;
    Value v * (lam1xx * Value l2 + lam1x * lam2x - lam2xx * Value l1 - lam2x * lam1x)
      + (lam1x * Value l2 - lam2x * Value l1) * vx;
    Value v * (- lam1yy * Value l2 - lam1y * lam2y + lam2yy * Value l1 + lam2y * lam1y)
      - (lam1y * Value l2 - lam2y * Value l1) * vy;
    Value v * (lam1xy * Value l2 + lam1y * lam2x - lam2xy * Value l1 - lam2y * lam1x)
      + (lam1y * Value l2 - lam2y * Value l1) * vx ].

Definition T_type4_DivShape (b : T_type4) : result (Vec S) :=
  Ok [0; 0].

(** *** Face basis functions of the tetrahedron:
    [(grad l1) o-times (grad l2 x grad l3)] times a polynomial *)

Record T_Dl1_o_Dl2xDl3_v : Type :=
  mk_T_Dl1_o_Dl2xDl3_v { f3_l1 : ADD 3; f3_l2 : ADD 3; f3_l3 : ADD 3; f3_v : ADD 3 }.

Definition T_Dl1_o_Dl2xDl3_v_Shape (b : T_Dl1_o_Dl2xDl3_v) : Vec S :=
  let l1 := f3_l1 b in
  let l2 := f3_l2 b in
  let l3 := f3_l3 b in
  let v := f3_v b in
  let cross1 := DValue l2 1 * DValue l3 2 - DValue l2 2 * DValue l3 1 in
  let cross2 := - (DValue l2 0 * DValue l3 2 - DValue l2 2 * DValue l3 0) in
  let cross3 := DValue l2 0 * DValue l3 1 - DValue l2 1 * DValue l3 0 in
  flat_map (fun i =>
      [ Value v * DValue l1 i * cross1;
        Value v * DValue l1 i * cross2;
        Value v * DValue l1 i * cross3 ])
    (seq 0 3).

Definition T_Dl1_o_Dl2xDl3_v_DivShape (b : T_Dl1_o_Dl2xDl3_v) : result (Vec S) :=
  let l1 := f3_l1 b in
  let l2 := f3_l2 b in
  let l3 := f3_l3 b in
  let v := f3_v b in
  let vx := DValue v 0 in
  let vy := DValue v 1 in
  let vz := DValue v 2 in
  let cross1 := DValue l2 1 * DValue l3 2 - DValue l2 2 * DValue l3 1 in
  let cross2 := - (DValue l2 0 * DValue l3 2 - DValue l2 2 * DValue l3 0) in
  let cross3 := DValue l2 0 * DValue l3 1 - DValue l2 1 * DValue l3 0 in
  Ok [ vx * DValue l1 0 * cross1 + vy * DValue l1 0 * cross2 + vz * DValue l1 0 * cross3;
       vx * DValue l1 1 * cross1 + vy * DValue l1 1 * cross2 + vz * DValue l1 1 * cross3;
       vx * DValue l1 2 * cross1 + vy * DValue l1 2 * cross2 + vz * DValue l1 2 * cross3 ].

(** *** Identity times a polynomial: [T_Id_v<D>] *)

Record T_Id_v (D : nat) : Type := mk_T_Id_v { id_v : ADD D }.
Arguments mk_T_Id_v {D}.
Arguments id_v {D}.

(** [vec(k) = x] on a vector. *)
Fixpoint vec_set (l : Vec S) (k : nat) (x : S) : Vec S :=
  match l, k with
  | [], _ => []
  | _ :: r, O => x :: r
  | a :: r, Datatypes.S k' => a :: vec_set r k' x
  end.

Definition T_Id_v_Shape {D} (b : T_Id_v D) : Vec S :=
  fold_left (fun Id_v i => vec_set Id_v (i * (D + 1)) (Value (id_v b)))
            (seq 0 D) (repeat 0 (D * D)).

Definition T_Id_v_DivShape {D} (b : T_Id_v D) : result (Vec S) :=
  Ok (fold_left (fun div_Id_v i => vec_set div_Id_v i (DValue (id_v b) i))
                (seq 0 D) (repeat 0 D)).

(** *** Face basis functions on a surface triangle; the cross product of
    two surface gradients is a number *)

Record T_Dl1_o_Dl2xDl3_v_surf : Type :=
  mk_T_Dl1_o_Dl2xDl3_v_surf { fs_l1 : ADD 2; fs_l2 : ADD 2; fs_l3 : ADD 2; fs_v : ADD 2 }.

Definition T_Dl1_o_Dl2xDl3_v_surf_Shape (b : T_Dl1_o_Dl2xDl3_v_surf) : Vec S :=
  let l1 := fs_l1 b in
  let l2 := fs_l2 b in
  let l3 := fs_l3 b in
  let v := fs_v b in
  let cross := DValue l2 0 * DValue l3 1 - DValue l2 1 * DValue l3 0 in
  [ Value v * DValue l1 0 * cross; Value v * DValue l1 1 * cross ].

Definition T_Dl1_o_Dl2xDl3_v_surf_DivShape (b : T_Dl1_o_Dl2xDl3_v_surf)
  : result (Vec S) :=
  Exception "not available on surface".

(** *** What the triangle and the tetrahedron hand to the row callback *)

Inductive TrigShape : Type :=
| Trig_Sigma_gradv (b : Sigma_gradv)
| Trig_Sigma_gradu_v (b : Sigma_gradu_v)
| Trig_Curlgraduv_graducurlv (b : Curlgraduv_graducurlv)
| Trig_T_type4 (b : T_type4).

Inductive TetShape : Type :=
| Tet_T_Dl1_o_Dl2xDl3_v (b : T_Dl1_o_Dl2xDl3_v)
| Tet_T_Id_v (b : T_Id_v 3).

End Blocks.

Arguments Sigma_gradv S : clear implicits.
Arguments Sigma_gradu_v S : clear implicits.
Arguments Curlgraduv_graducurlv S : clear implicits.
Arguments T_type4 S : clear implicits.
Arguments T_Dl1_o_Dl2xDl3_v S : clear implicits.
Arguments T_Id_v S D : clear implicits.
Arguments mk_T_Id_v {S D}.
Arguments id_v {S D}.
Arguments T_Dl1_o_Dl2xDl3_v_surf S : clear implicits.
Arguments TrigShape S : clear implicits.
Arguments TetShape S : clear implicits.

#[export] Instance ShapeFunction_Sigma_gradv {S} `{Scalar S}
  : ShapeFunction S (Sigma_gradv S) :=
  {| Shape := Sigma_gradv_Shape; DivShape := Sigma_gradv_DivShape |}.

#[export] Instance ShapeFunction_Sigma_gradu_v {S} `{Scalar S}
  : ShapeFunction S (Sigma_gradu_v S) :=
  {| Shape := Sigma_gradu_v_Shape; DivShape := Sigma_gradu_v_DivShape |}.

#[export] Instance ShapeFunction_Curlgraduv_graducurlv {S} `{Scalar S}
  : ShapeFunction S (Curlgraduv_graducurlv S) :=
  {| Shape := Curlgraduv_graducurlv_Shape;
     DivShape := Curlgraduv_graducurlv_DivShape |}.

#[export] Instance ShapeFunction_T_type4 {S} `{Scalar S}
  : ShapeFunction S (T_type4 S) :=
  {| Shape := T_type4_Shape; DivShape := T_type4_DivShape |}.

#[export] Instance ShapeFunction_T_Dl1_o_Dl2xDl3_v {S} `{Scalar S}
  : ShapeFunction S (T_Dl1_o_Dl2xDl3_v S) :=
  {| Shape := T_Dl1_o_Dl2xDl3_v_Shape; DivShape := T_Dl1_o_Dl2xDl3_v_DivShape |}.

#[export] Instance ShapeFunction_T_Id_v {S} `{Scalar S} {D}
  : ShapeFunction S (T_Id_v S D) :=
  {| Shape := T_Id_v_Shape; DivShape := T_Id_v_DivShape |}.

#[export] Instance ShapeFunction_T_Dl1_o_Dl2xDl3_v_surf {S} `{Scalar S}
  : ShapeFunction S (T_Dl1_o_Dl2xDl3_v_surf S) :=
  {| Shape := T_Dl1_o_Dl2xDl3_v_surf_Shape;
     DivShape := T_Dl1_o_Dl2xDl3_v_surf_DivShape |}.

#[export] Instance ShapeFunction_TrigShape {S} `{Scalar S}
  : ShapeFunction S (TrigShape S) :=
  {| Shape := fun val =>
       match val with
       | Trig_Sigma_gradv b => Shape b
       | Trig_Sigma_gradu_v b => Shape b
       | Trig_Curlgraduv_graducurlv b => Shape b
       | Trig_T_type4 b => Shape b
       end;
     DivShape := fun val =>
       match val with
       | Trig_Sigma_gradv b => DivShape b
       | Trig_Sigma_gradu_v b => DivShape b
       | Trig_Curlgraduv_graducurlv b => DivShape b
       | Trig_T_type4 b => DivShape b
       end |}.

#[export] Instance ShapeFunction_TetShape {S} `{Scalar S}
  : ShapeFunction S (TetShape S) :=
  {| Shape := fun val =>
       match val with
       | Tet_T_Dl1_o_Dl2xDl3_v b => Shape b
       | Tet_T_Id_v b => Shape b
       end;
     DivShape := fun val =>
       match val with
       | Tet_T_Dl1_o_Dl2xDl3_v b => DivShape b
       | Tet_T_Id_v b => DivShape b
       end |}.

(** ** Row emission: state and exceptions

    [T_CalcShape] keeps the counter [ii] and hands [(ii++, val)] to the
    callback [shape], which writes one row of the caller's matrix.  The
    state holds the counter, the rows written so far, the log of array
    subscripts [(index, declared size)] and the local polynomial
    objects of the caller ([L]). *)

Record EmitState (R L : Type) : Type := mkEmitState {
  ii : Z;
  written : list (Z * R);
  subscripts : list (Z * Z);
  locals : L
}.
Arguments mkEmitState {R L}.
Arguments ii {R L}.
Arguments written {R L}.
Arguments subscripts {R L}.
Arguments locals {R L}.

Definition M (R L A : Type) : Type := EmitState R L -> result A * EmitState R L.

Definition ret {R L A} (a : A) : M R L A := fun s => (Ok a, s).

Definition bind {R L A B} (m : M R L A) (k : A -> M R L B) : M R L B :=
  fun s =>
    match m s with
    | (Ok a, s') => k a s'
    | (Exception what, s') => (Exception what, s')
    end.

Notation "x <- m ;; k" := (bind m (fun x => k))
  (at level 61, m at next level, right associativity).
Notation "m ;; k" := (bind m (fun _ => k))
  (at level 61, right associativity).

(** [throw Exception(what)] *)
Definition throw {R L A} (what : string) : M R L A :=
  fun s => (Exception what, s).

(** A [for] loop over the visited values, left to right. *)
Fixpoint for_ {R L X} (xs : list X) (body : X -> M R L unit) : M R L unit :=
  match xs with
  | [] => ret tt
  | x :: r => body x ;; for_ r body
  end.

(** [shape[ii++] = val]: the counter is advanced and the callback gets
    the old value and [val]; it writes row [nr] or raises. *)
Definition emit {B R L} (shape : B -> result R) (val : B) : M R L unit :=
  fun s =>
    let nr := ii s in
    let s1 := mkEmitState (ii s + 1) (written s) (subscripts s) (locals s) in
    match shape val with
    | Ok row => (Ok tt, mkEmitState (ii s1) (written s1 ++ [(nr, row)])
                                    (subscripts s1) (locals s1))
    | Exception what => (Exception what, s1)
    end.

Definition get_locals {R L} : M R L L := fun s => (Ok (locals s), s).

Definition set_locals {R L} (l : L) : M R L unit :=
  fun s => (Ok tt, mkEmitState (ii s) (written s) (subscripts s) l).

(** [ArrayMem<AutoDiffDiff<D>,20> a(size)] after a polynomial evaluator
    has filled it: the declared size and the entry at each index. *)
Record ArrayMem (S : Type) (D : nat) : Type := mkArrayMem {
  Size : Z;
  Data : Z -> AutoDiffDiff S D
}.
Arguments mkArrayMem {S D}.
Arguments Size {S D}.
Arguments Data {S D}.

(** [a[l]]: unchecked; the subscript and the declared size are logged. *)
Definition subscript {S D R L} (a : ArrayMem S D) (l : Z) : M R L (AutoDiffDiff S D) :=
  fun s => (Ok (Data a l),
            mkEmitState (ii s) (written s) (subscripts s ++ [(l, Size a)]) (locals s)).

(** A subscript within the declared size. *)
Definition in_range (a : Z * Z) : bool := (0 <=? fst a) && (fst a <? snd a).

(** ** External collaborators *)

(** Modelled from the spec: the orthogonal-polynomial evaluators, whose
    code is outside [src/].  Given a degree [n] and differentiable
    arguments, an evaluator produces the sequence of basis values up to
    that degree, by array fill or by a callback indexed by the degree;
    a field below gives the value at an index.  The Jacobi evaluators
    take the current [alpha] of the polynomial object first. *)
Record Polynomials (S : Type) : Type := mkPolynomials {
  ScaledLegendrePolynomial :
    forall D, Z -> AutoDiffDiff S D -> AutoDiffDiff S D -> Z -> AutoDiffDiff S D;
  IntegratedLegendreMonomialExt_CalcTrigExt :
    forall D, Z -> AutoDiffDiff S D -> AutoDiffDiff S D -> Z -> AutoDiffDiff S D;
  LegendrePolynomial_EvalMult :
    forall D, Z -> AutoDiffDiff S D -> AutoDiffDiff S D -> Z -> AutoDiffDiff S D;
  LegendrePolynomial_Eval :
    forall D, Z -> AutoDiffDiff S D -> Z -> AutoDiffDiff S D;
  DubinerBasis3_Eval :
    forall D, Z -> AutoDiffDiff S D -> AutoDiffDiff S D -> Z -> AutoDiffDiff S D;
  LegendrePolynomial_EvalScaled1Assign :
    forall D, Z -> AutoDiffDiff S D -> AutoDiffDiff S D -> Z -> AutoDiffDiff S D;
  JacobiPolynomialAlpha_EvalScaledMult1Assign :
    forall D, Z -> Z -> AutoDiffDiff S D -> AutoDiffDiff S D -> AutoDiffDiff S D
              -> Z -> AutoDiffDiff S D;
  JacobiPolynomialAlpha_EvalMult :
    forall D, Z -> Z -> AutoDiffDiff S D -> AutoDiffDiff S D -> Z -> AutoDiffDiff S D
}.
Arguments ScaledLegendrePolynomial {S} _ {D}.
Arguments IntegratedLegendreMonomialExt_CalcTrigExt {S} _ {D}.
Arguments LegendrePolynomial_EvalMult {S} _ {D}.
Arguments LegendrePolynomial_Eval {S} _ {D}.
Arguments DubinerBasis3_Eval {S} _ {D}.
Arguments LegendrePolynomial_EvalScaled1Assign {S} _ {D}.
Arguments JacobiPolynomialAlpha_EvalScaledMult1Assign {S} _ {D}.
Arguments JacobiPolynomialAlpha_EvalMult {S} _ {D}.

(** Modelled from the spec: a callback evaluator of degree [n] calls
    its callback with [(k, value k)] for [k = 0, ..., n] in this order
    (no call when [n < 0]). *)
Definition callback_eval {S D R L} (n : Z) (value : Z -> AutoDiffDiff S D)
  (callback : Z -> AutoDiffDiff S D -> M R L unit) : M R L unit :=
  for_ (zrange 0 n) (fun k => callback k (value k)).

(** The tables [ElementTopology::GetEdges(ET_TRIG)] and
    [ElementTopology::GetFaces(ET_TET)], outside [src/]: local vertex
    number [k] of edge or face number [i]. *)
Record ElementTopology : Type := mkElementTopology {
  GetEdges_TRIG : nat -> nat -> nat;
  GetFaces_TET : nat -> nat -> nat
}.

(** [max2] *)
Definition max2 (a b : Z) : Z := Z.max a b.

(** ** The volume elements *)

Inductive ELEMENT_TYPE : Type := ET_SEGM | ET_TRIG | ET_TET.

(** Modelled from the spec: [ET_trait<ET>::DIM] and
    [ET_trait<ET>::N_FACET], declared outside [src/] (a triangle has 3
    facets, a tetrahedron 4). *)
Definition DIM (ET : ELEMENT_TYPE) : nat :=
  match ET with ET_SEGM => 1 | ET_TRIG => 2 | ET_TET => 3 end.

Definition N_FACET (ET : ELEMENT_TYPE) : nat :=
  match ET with ET_SEGM => 2 | ET_TRIG => 3 | ET_TET => 4 end.

(** The data members of [T_HCurlDivFE<ET>], with [ndof] and [order] of
    the base [FiniteElement] and [vnums] of [VertexOrientedFE<ET>]. *)
Record T_HCurlDivFE : Type := mkT_HCurlDivFE {
  ndof : Z;
  order : Z;
  vnums : list Z;
  order_facet : list Z;
  order_inner : Z;
  plus : bool
}.

(** [T_HCurlDivFE(aorder, _plus)]; [ndof] and [vnums] are as the base
    classes leave them. *)
Definition T_HCurlDivFE_new (ET : ELEMENT_TYPE) (ndof0 : Z) (vnums0 : list Z)
  (aorder : Z) (_plus : bool) : T_HCurlDivFE :=
  mkT_HCurlDivFE ndof0 aorder vnums0 (repeat aorder (N_FACET ET)) aorder _plus.

Fixpoint list_set {A} (l : list A) (k : nat) (x : A) : list A :=
  match l, k with
  | [], _ => []
  | _ :: r, O => x :: r
  | a :: r, Datatypes.S k' => a :: list_set r k' x
  end.

(** [SetOrderFacet(nr, order)]; [nr] is a facet number (for another
    [nr] the C++ assignment is undefined, here nothing is stored). *)
Definition SetOrderFacet (fe : T_HCurlDivFE) (nr : nat) (o : Z) : T_HCurlDivFE :=
  mkT_HCurlDivFE (ndof fe) (order fe) (vnums fe)
                 (list_set (order_facet fe) nr o) (order_inner fe) (plus fe).

Definition SetOrderInner (fe : T_HCurlDivFE) (o : Z) : T_HCurlDivFE :=
  mkT_HCurlDivFE (ndof fe) (order fe) (vnums fe) (order_facet fe) o (plus fe).

Definition SetVertexNumbers (fe : T_HCurlDivFE) (v : list Z) : T_HCurlDivFE :=
  mkT_HCurlDivFE (ndof fe) (order fe) v (order_facet fe) (order_inner fe) (plus fe).

Definition set_ndof_order (fe : T_HCurlDivFE) (n o : Z) : T_HCurlDivFE :=
  mkT_HCurlDivFE n o (vnums fe) (order_facet fe) (order_inner fe) (plus fe).

(** The outcome of a [void] member function that may print on [cout]:
    the lines printed and the object afterwards, or the exception. *)
Definition Effect (A : Type) : Type := list string * result A.

(** [T_HCurlDivFE<ET>::ComputeNDof()], the member of the generic base:
    one line on [cout], nothing else. *)
Definition T_HCurlDivFE_ComputeNDof (fe : T_HCurlDivFE) : Effect T_HCurlDivFE :=
  ( [ "Error, T_HCurlDivFE<ET>:: ComputeNDof not available, only for ET == TRIG"%string ],
    Ok fe ).

(** [order_facet[i]], [vnums[i]] *)
Definition facet (fe : T_HCurlDivFE) (i : nat) : Z := nth i (order_facet fe) 0.
Definition vnum (fe : T_HCurlDivFE) (i : nat) : Z := nth i (vnums fe) 0.

(** [Vec<DIM, AutoDiffDiff<DIM>> adp] with
    [adp(i) = AutoDiffDiff<DIM>(ip(i), i)]. *)
Definition reference_point {S} `{Scalar S} (D : nat) (ip : list S)
  : list (AutoDiffDiff S D) :=
  tab D (fun i => ADD_var D (nth i ip 0%s) i).

(** The coordinate [k] of a [TIP]. *)
Definition coord {S} `{Scalar S} {D} (adp : list (AutoDiffDiff S D)) (k : nat)
  : AutoDiffDiff S D :=
  nth k adp (ADD_const D 0%s).

Definition initial {R L} (l : L) : EmitState R L := mkEmitState 0 [] [] l.

(** The outcome of a run with the rows it wrote into the caller's
    matrix. *)
Definition rows_of {R L} (r : result unit * EmitState R L)
  : result unit * list (Z * R) :=
  (fst r, written (snd r)).

(** A run that returns normally after writing the rows
    [0, ..., n - 1], each once and in this order. *)
Definition writes_rows {R} (r : result unit * list (Z * R)) (n : Z) : Prop :=
  fst r = Ok tt /\ map fst (snd r) = zseq 0 (Z.to_nat n).

Module HCurlDivFE_TRIG.

Section Trig.

Context {S : Type} `{Scalar S}.
Variable P : Polynomials S.
Variable T : ElementTopology.

Local Abbreviation ADD := (AutoDiffDiff S 2).

(** [HCurlDivFE<ET_TRIG>::ComputeNDof()] *)
Definition ComputeNDof (fe : T_HCurlDivFE) : Effect T_HCurlDivFE :=
  let '(ndof0, order0) :=
    fold_left (fun '(n, o) i => (n + (facet fe i + 1), max2 o (facet fe i)))
              (seq 0 3) (0, 0) in
  let ninner := order_inner fe + 1
                + 2 * ((order_inner fe + 1) * order_inner fe) in
  let order1 := max2 order0 (order_inner fe) in
  let '(order2, ninner2) :=
    if plus fe then (order1 + 1, ninner + 2 * order_inner fe)
    else (order1, ninner) in
  ([], Ok (set_ndof_order fe (ndof0 + ninner2) order2)).

(** The two inner families emitted for the pairs [i + j <= oi - 1]. *)
Definition inner_pairs {R} (shape : TrigShape S -> result R) (oi : Z)
  (u v : ArrayMem S 2) : M R unit unit :=
  for_ (zrange 0 (oi - 1)) (fun i =>
    for_ (zrange 0 (oi - 1 - i)) (fun j =>
      ui <- subscript u i ;;
      vj <- subscript v j ;;
      emit shape (Trig_Sigma_gradu_v (mk_Sigma_gradu_v ui vj)) ;;
      ui' <- subscript u i ;;
      vj' <- subscript v j ;;
      emit shape (Trig_Curlgraduv_graducurlv (mk_Curlgraduv_graducurlv ui' vj')))).

(** [HCurlDivFE<ET_TRIG>::T_CalcShape(ip, shape)] after [int ii = 0]
    and up to the test of [plus]: the edge functions and the three
    interior families. *)
Definition T_CalcShape_regular {R} (fe : T_HCurlDivFE) (x y : ADD)
  (shape : TrigShape S -> result R) : M R unit unit :=
  let ddlami : list ADD := [x; y; (sc_sub_ad 1%s x - y)%ad] in
  let lami k := nth k ddlami (ADD_const 2 0%s) in
  let maxorder_facet := max2 (facet fe 0) (max2 (facet fe 1) (facet fe 2)) in
  let oi0 := order_inner fe in
  (* edge based basis functions *)
  for_ (seq 0 3) (fun i =>
    let es := GetEdges_TRIG T i 0 in
    let ee := GetEdges_TRIG T i 1 in
    let '(es, ee) := if vnum fe es >? vnum fe ee then (ee, es) else (es, ee) in
    let ls := lami es in
    let le := lami ee in
    let ha := mkArrayMem (maxorder_facet + 1)
                (ScaledLegendrePolynomial P maxorder_facet (le - ls)%ad (le + ls)%ad) in
    for_ (zrange 0 (facet fe i)) (fun l =>
      hl <- subscript ha l ;;
      emit shape (Trig_Sigma_gradv (mk_Sigma_gradv (le * ls * hl)%ad)))) ;;
  let ls := lami 0%nat in
  let le := lami 1%nat in
  let lt := lami 2%nat in
  let oi := order_inner fe in
  let u := mkArrayMem (oi0 + 3)
             (IntegratedLegendreMonomialExt_CalcTrigExt P (oi + 3) (le - lt)%ad
                (sc_sub_ad 1%s le - lt)%ad) in
  let v := mkArrayMem (oi0 + 1)
             (LegendrePolynomial_EvalMult P (oi + 1)
                (ad_sub_sc (sc_mul_ad 2%s ls) 1%s) ls) in
  inner_pairs shape oi u v ;;
  let u := mkArrayMem (oi0 + 3)
             (IntegratedLegendreMonomialExt_CalcTrigExt P (oi + 3) (le - ls)%ad
                (sc_sub_ad 1%s le - ls)%ad) in
  let v := mkArrayMem (oi0 + 1)
             (LegendrePolynomial_EvalMult P (oi + 1)
                (ad_sub_sc (sc_mul_ad 2%s lt) 1%s) lt) in
  inner_pairs shape oi u v ;;
  let v := mkArrayMem (oi0 + 1)
             (LegendrePolynomial_Eval P oi (ad_sub_sc (sc_mul_ad 2%s lt) 1%s)) in
  for_ (zrange 0 oi) (fun i =>
    vi <- subscript v i ;;
    emit shape (Trig_T_type4 (mk_T_type4 le ls vi))).

(** The end of [T_CalcShape]: [u] and [v] are filled once more; with
    [plus] the first bubble raises, and the statements after the
    [throw] are never reached. *)
Definition T_CalcShape_body {R} (fe : T_HCurlDivFE) (x y : ADD)
  (shape : TrigShape S -> result R) : M R unit unit :=
  T_CalcShape_regular fe x y shape ;;
  if plus fe then
    for_ (zrange 0 (order_inner fe - 1)) (fun i => throw "not working yet!")
  else ret tt.

Definition T_CalcShape {R} (fe : T_HCurlDivFE) (x y : ADD)
  (shape : TrigShape S -> result R) : result unit * EmitState R unit :=
  T_CalcShape_body fe x y shape (initial tt).

End Trig.

End HCurlDivFE_TRIG.

(** ** [double] in index arithmetic *)

(** The conversion of an [int] to [double] (exact for the values met). *)
Definition double_of_int (z : Z) : float :=
  if z <? 0 then PrimFloat.opp (PrimFloat.of_uint63 (Uint63.of_Z (- z)))
  else PrimFloat.of_uint63 (Uint63.of_Z z).

(** The conversion of a finite [double] to [int]: truncation towards
    zero (undefined in C++ for the other values, [0] here). *)
Definition int_of_double (f : float) : Z :=
  match Prim2SF f with
  | S754_finite s m e =>
      let a := if 0 <=? e then Z.pos m * 2 ^ e else Z.pos m / 2 ^ (- e) in
      if s then - a else a
  | _ => 0
  end.

(** The values visited by [for (int l = 0; l < bound; l++)] for a
    [double] bound: the [l >= 0] with [(double) l < bound], none of
    which exceeds the truncation of [bound]. *)
Definition below_double (bound : float) : list Z :=
  filter (fun l => PrimFloat.ltb (double_of_int l) bound)
         (zrange 0 (int_of_double bound)).

(** [JacobiPolynomialAlpha jac1, jac2]: the polynomial objects of the
    tetrahedron are known by their [alpha]; [IncAlpha2()] (outside
    [src/]) advances it by two. *)
Record JacobiLocals : Type := mkJacobiLocals { jac1 : Z; jac2 : Z }.

Module HCurlDivFE_TET.

Section Tet.

Context {S : Type} `{Scalar S}.
Variable P : Polynomials S.
Variable T : ElementTopology.

Local Abbreviation ADD := (AutoDiffDiff S 3).
Local Abbreviation MT R := (M R JacobiLocals).

(** [int ninner = (oi+1)*(oi+2)*(oi+3)/6.0 + 8.0/6.0*((oi+2)*(oi+1)*oi)] *)
Definition ninner (oi : Z) : Z :=
  int_of_double
    (PrimFloat.add
       (PrimFloat.div (double_of_int ((oi + 1) * (oi + 2) * (oi + 3))) 6%float)
       (PrimFloat.mul (PrimFloat.div 8%float 6%float)
                      (double_of_int ((oi + 2) * (oi + 1) * oi)))).

(** [HCurlDivFE<ET_TET>::ComputeNDof()]; the lines on [plus] are
    commented out in the source. *)
Definition ComputeNDof (fe : T_HCurlDivFE) : Effect T_HCurlDivFE :=
  let '(ndof0, order0) :=
    fold_left (fun '(n, o) i =>
                 (n + (facet fe i + 1) * (facet fe i + 2), max2 o (facet fe i)))
              (seq 0 4) (0, 0) in
  let order1 := max2 order0 (order_inner fe) in
  ([], Ok (set_ndof_order fe (ndof0 + ninner (order_inner fe)) order1)).

Definition get_jac1 {R} : MT R Z := l <- get_locals ;; ret (jac1 l).
Definition get_jac2 {R} : MT R Z := l <- get_locals ;; ret (jac2 l).
Definition set_jac2 {R} (a : Z) : MT R unit :=
  l <- get_locals ;; set_locals (mkJacobiLocals (jac1 l) a).
Definition jac1_IncAlpha2 {R} : MT R unit :=
  l <- get_locals ;; set_locals (mkJacobiLocals (jac1 l + 2) (jac2 l)).
Definition jac2_IncAlpha2 {R} : MT R unit :=
  l <- get_locals ;; set_locals (mkJacobiLocals (jac1 l) (jac2 l + 2)).

(** The triple recursion shared by the two interior families: Legendre
    in [lt - lo], then Jacobi [jac1], then Jacobi [jac2]; [inner] is the
    innermost lambda.  The degrees [n - k] and [n - k - j] mix [int] and
    [size_t]; they are never negative here. *)
Definition interior {R} (n : Z) (ls le lt lo : ADD)
  (inner : ADD -> MT R unit) : MT R unit :=
  callback_eval n
    (LegendrePolynomial_EvalScaled1Assign P n (lt - lo)%ad (lt + lo)%ad)
    (fun k polz =>
       set_jac2 (2 * k + 2) ;;
       a1 <- get_jac1 ;;
       callback_eval (n - k)
         (JacobiPolynomialAlpha_EvalScaledMult1Assign P a1 (n - k)
            (le - lt - lo)%ad (sc_sub_ad 1%s ls) polz)
         (fun j polsy =>
            a2 <- get_jac2 ;;
            callback_eval (n - k - j)
              (JacobiPolynomialAlpha_EvalMult P a2 (n - k - j)
                 (ad_sub_sc (sc_mul_ad 2%s ls) 1%s) polsy)
              (fun _ val => inner val) ;;
            jac2_IncAlpha2) ;;
       jac1_IncAlpha2).

(** The body of [HCurlDivFE<ET_TET>::T_CalcShape(ip, shape)] after
    [int ii = 0]; the arrays [v] and [dubb] are declared and never
    used. *)
Definition T_CalcShape_body {R} (fe : T_HCurlDivFE) (x y z : ADD)
  (shape : TetShape S -> result R) : MT R unit :=
  let ddlami : list ADD := [x; y; z; (sc_sub_ad 1%s x - y - z)%ad] in
  let lami k := nth k ddlami (ADD_const 3 0%s) in
  let maxorder_facet := max2 (facet fe 0) (max2 (facet fe 1) (facet fe 2)) in
  let ha_size :=
    int_of_double
      (PrimFloat.div (double_of_int ((maxorder_facet + 1) * (maxorder_facet + 2)))
                     2%float) in
  for_ (seq 0 4) (fun fa =>
    let fav0 := GetFaces_TET T fa 0 in
    let fav1 := GetFaces_TET T fa 1 in
    let fav2 := GetFaces_TET T fa 2 in
    let '(fav0, fav1) :=
      if vnum fe fav0 >? vnum fe fav1 then (fav1, fav0) else (fav0, fav1) in
    let '(fav1, fav2) :=
      if vnum fe fav1 >? vnum fe fav2 then (fav2, fav1) else (fav1, fav2) in
    let '(fav0, fav1) :=
      if vnum fe fav0 >? vnum fe fav1 then (fav1, fav0) else (fav0, fav1) in
    let ls := lami fav0 in
    let le := lami fav1 in
    let lt := lami fav2 in
    let ha := mkArrayMem ha_size (DubinerBasis3_Eval P maxorder_facet ls le) in
    for_ (below_double
            (PrimFloat.div (double_of_int ((facet fe fa + 1) * (facet fe fa + 2)))
                           2%float))
      (fun l =>
         h <- subscript ha l ;;
         emit shape (Tet_T_Dl1_o_Dl2xDl3_v (mk_T_Dl1_o_Dl2xDl3_v le ls lt h)) ;;
         h' <- subscript ha l ;;
         emit shape (Tet_T_Dl1_o_Dl2xDl3_v (mk_T_Dl1_o_Dl2xDl3_v ls lt le h')))) ;;
  let oi := order_inner fe in
  let ls := lami 0%nat in
  let le := lami 1%nat in
  let lt := lami 2%nat in
  let lo := lami 3%nat in
  (* type 1 *)
  interior oi ls le lt lo (fun val => emit shape (Tet_T_Id_v (mk_T_Id_v val))) ;;
  (* type 2 *)
  interior (oi - 1) ls le lt lo (fun val =>
    emit shape (Tet_T_Dl1_o_Dl2xDl3_v (mk_T_Dl1_o_Dl2xDl3_v le ls lt (lo * val)%ad)) ;;
    emit shape (Tet_T_Dl1_o_Dl2xDl3_v (mk_T_Dl1_o_Dl2xDl3_v ls lt le (lo * val)%ad)) ;;
    emit shape (Tet_T_Dl1_o_Dl2xDl3_v (mk_T_Dl1_o_Dl2xDl3_v le ls lo (lt * val)%ad)) ;;
    emit shape (Tet_T_Dl1_o_Dl2xDl3_v (mk_T_Dl1_o_Dl2xDl3_v ls lo le (lt * val)%ad)) ;;
    emit shape (Tet_T_Dl1_o_Dl2xDl3_v (mk_T_Dl1_o_Dl2xDl3_v le lo lt (ls * val)%ad)) ;;
    emit shape (Tet_T_Dl1_o_Dl2xDl3_v (mk_T_Dl1_o_Dl2xDl3_v lo lt le (ls * val)%ad)) ;;
    emit shape (Tet_T_Dl1_o_Dl2xDl3_v (mk_T_Dl1_o_Dl2xDl3_v lo ls lt (le * val)%ad)) ;;
    emit shape (Tet_T_Dl1_o_Dl2xDl3_v (mk_T_Dl1_o_Dl2xDl3_v lt ls lo (le * val)%ad))).

(** [jac1] is constructed with [alpha = 1]; [jac2] exists inside the
    outer lambda only. *)
Definition T_CalcShape {R} (fe : T_HCurlDivFE) (x y z : ADD)
  (shape : TetShape S -> result R) : result unit * EmitState R JacobiLocals :=
  T_CalcShape_body fe x y z shape (initial (mkJacobiLocals 1 0)).

End Tet.

End HCurlDivFE_TET.

(** ** The member functions of [T_HCurlDivFE<ET>]

    [Cast() -> T_CalcShape(...)] reaches the element class statically;
    the element classes are given by what [T_HCurlDivFE<ET>] needs of
    them. *)

Record HCurlDivFE (S : Type) : Type := mkHCurlDivFE {
  ElementType : ELEMENT_TYPE;
  ShapeT : Type;
  ShapeT_ShapeFunction : ShapeFunction S ShapeT;
  LocalsT : Type;
  Cast_T_CalcShape :
    forall R, T_HCurlDivFE -> list (AutoDiffDiff S (DIM ElementType))
              -> (ShapeT -> result R) -> result unit * EmitState R LocalsT;
  virtual_ComputeNDof : T_HCurlDivFE -> Effect T_HCurlDivFE
}.
Arguments ElementType {S}.
Arguments ShapeT {S}.
Arguments ShapeT_ShapeFunction {S}.
Arguments LocalsT {S}.
Arguments Cast_T_CalcShape {S} _ {R}.
Arguments virtual_ComputeNDof {S}.

#[export] Existing Instance ShapeT_ShapeFunction.

Definition HCurlDivFE_ET_TRIG {S} `{Scalar S} (P : Polynomials S)
  (T : ElementTopology) : HCurlDivFE S :=
  {| ElementType := ET_TRIG;
     ShapeT := TrigShape S;
     ShapeT_ShapeFunction := ShapeFunction_TrigShape;
     LocalsT := unit;
     Cast_T_CalcShape := fun R fe adp shape =>
       HCurlDivFE_TRIG.T_CalcShape P T fe
         (coord (D:=2) adp 0) (coord (D:=2) adp 1) shape;
     virtual_ComputeNDof := HCurlDivFE_TRIG.ComputeNDof |}.

Definition HCurlDivFE_ET_TET {S} `{Scalar S} (P : Polynomials S)
  (T : ElementTopology) : HCurlDivFE S :=
  {| ElementType := ET_TET;
     ShapeT := TetShape S;
     ShapeT_ShapeFunction := ShapeFunction_TetShape;
     LocalsT := JacobiLocals;
     Cast_T_CalcShape := fun R fe adp shape =>
       HCurlDivFE_TET.T_CalcShape P T fe
         (coord (D:=3) adp 0) (coord (D:=3) adp 1) (coord (D:=3) adp 2) shape;
     virtual_ComputeNDof := HCurlDivFE_TET.ComputeNDof |}.

(** Modelled from the spec: [MappedIntegrationPoint<DIM,DIM>], outside
    [src/].  A mapped point carries a point, the Jacobian data of the
    map (first derivatives, one row per coordinate), the second
    derivatives of the map ([CalcHesse]) and, through its element
    transformation, the curved flag.  Its conversion to
    [Vec<DIM, AutoDiff<DIM>>] yields the value and the gradient of each
    coordinate. *)
Record MappedIntegrationPoint (S : Type) : Type := mkMappedIntegrationPoint {
  mip_point : list S;
  mip_jacobian_rows : list (list S);
  mip_hesse : list (list (list S));
  IsCurvedElement : bool
}.
Arguments mkMappedIntegrationPoint {S}.
Arguments mip_point {S}.
Arguments mip_jacobian_rows {S}.
Arguments mip_hesse {S}.
Arguments IsCurvedElement {S}.

Section Members.

Context {S : Type} `{Scalar S}.
Local Open Scope scalar_scope.

Definition mip_to_AutoDiff (D : nat) (mip : MappedIntegrationPoint S)
  : list (AutoDiff S D) :=
  tab D (fun i => mkAD (nth i (mip_point mip) 0) (nth i (mip_jacobian_rows mip) [])).

(** [addp[i] = adp[i].Value(); addp[i].LoadGradient(&adp[i].DValue(0));] *)
Definition mapped_point (D : nat) (mip : MappedIntegrationPoint S)
  : list (AutoDiffDiff S D) :=
  map (fun adp_i => LoadGradient (ADD_const D (ad_Value adp_i)) (ad_dval adp_i))
      (mip_to_AutoDiff D mip).

(** [VecToMat<D>(vec, mat)]: 4 entries are copied for [D = 2], 9 for
    [D = 3], none otherwise. *)
Definition VecToMat (D : nat) (vec : Vec S) : Vec S :=
  match D with
  | 2%nat => tab 4 (fun k => nth k vec 0)
  | 3%nat => tab 9 (fun k => nth k vec 0)
  | _ => []
  end.

(** The rows written into the caller's matrix, with the outcome. *)
Definition Rows : Type := result unit * list (Z * Vec S).

Variable C : HCurlDivFE S.

Definition CalcShape (fe : T_HCurlDivFE) (ip : list S) : Rows :=
  let adp := reference_point (DIM (ElementType C)) ip in
  rows_of (Cast_T_CalcShape C fe adp (fun val => Ok (Shape val))).

Definition CalcDivShape (fe : T_HCurlDivFE) (ip : list S) : Rows :=
  let adp := reference_point (DIM (ElementType C)) ip in
  rows_of (Cast_T_CalcShape C fe adp (fun val => DivShape val)).

Definition CalcMappedShape (fe : T_HCurlDivFE) (mip : MappedIntegrationPoint S)
  : Rows :=
  let addp := mapped_point (DIM (ElementType C)) mip in
  rows_of (Cast_T_CalcShape C fe addp
             (fun val => Ok (VecToMat (DIM (ElementType C)) (Shape val)))).

Definition CalcMappedDivShape (fe : T_HCurlDivFE) (mip : MappedIntegrationPoint S)
  : Rows :=
  let addp := mapped_point (DIM (ElementType C)) mip in
  if negb (IsCurvedElement mip) then
    rows_of (Cast_T_CalcShape C fe addp (fun val => DivShape val))
  else
    (Exception "not implemented yet!", []).

End Members.

(** ** The surface elements *)

Record T_HCurlDivSurfaceFE : Type := mkT_HCurlDivSurfaceFE {
  surf_ndof : Z;
  surf_order : Z;
  surf_vnums : list Z;
  surf_order_inner : Z
}.

(** [T_HCurlDivSurfaceFE<ET>::ComputeNDof()], the member of the generic
    base: one line on [cout], nothing else. *)
Definition T_HCurlDivSurfaceFE_ComputeNDof (fe : T_HCurlDivSurfaceFE)
  : Effect T_HCurlDivSurfaceFE :=
  ( [ "Error, T_HCurlDivSurfaceFE<ET>:: ComputeNDof not available for base class"%string ],
    Ok fe ).

(** [T_HCurlDivSurfaceFE<ET>::CalcMappedShape] *)
Definition T_HCurlDivSurfaceFE_CalcMappedShape {S} (fe : T_HCurlDivSurfaceFE)
  (mip : MappedIntegrationPoint S) : result unit * list (Z * Vec S) :=
  (Exception "not implemented", []).

Definition surf_vnum (fe : T_HCurlDivSurfaceFE) (i : nat) : Z :=
  nth i (surf_vnums fe) 0.

Module HCurlDivSurfaceFE_SEGM.

Section Segm.

Context {S : Type} `{Scalar S}.
Variable P : Polynomials S.

Definition ComputeNDof (fe : T_HCurlDivSurfaceFE) : Effect T_HCurlDivSurfaceFE :=
  let n := 0 + (surf_order_inner fe + 1) in
  let o := max2 0 (surf_order_inner fe) in
  ([], Ok (mkT_HCurlDivSurfaceFE n o (surf_vnums fe) (surf_order_inner fe))).

(** [HCurlDivSurfaceFE<ET_SEGM>::T_CalcShape]: the values handed to the
    callback are plain numbers. *)
Definition T_CalcShape {R} (fe : T_HCurlDivSurfaceFE) (x : AutoDiffDiff S 1)
  (shape : S -> result R) : result unit * EmitState R unit :=
  let ddlami := [x; sc_sub_ad 1%s x] in
  let lami k := nth k ddlami (ADD_const 1 0%s) in
  let '(es, ee) :=
    if surf_vnum fe 0 >? surf_vnum fe 1 then (1%nat, 0%nat) else (0%nat, 1%nat) in
  let ls := lami es in
  let le := lami ee in
  let ha := mkArrayMem (surf_order_inner fe + 1)
              (LegendrePolynomial_Eval P (surf_order_inner fe) (le - ls)%ad) in
  (for_ (zrange 0 (surf_order_inner fe)) (fun l =>
     h <- subscript ha l ;;
     emit shape (s_of_Z (-1) * Value h)%s)) (initial tt).

(** [T_HCurlDivSurfaceFE<ET>::CalcShape] on a segment: [DIM_STRESS] is
    [DIM = 1]. *)
Definition CalcShape (fe : T_HCurlDivSurfaceFE) (ip : list S)
  : result unit * list (Z * Vec S) :=
  let r := T_CalcShape fe (coord (reference_point 1 ip) 0)
             (fun val => Ok [val]) in
  (fst r, written (snd r)).

End Segm.

End HCurlDivSurfaceFE_SEGM.

Module HCurlDivSurfaceFE_TRIG.

Section SurfTrig.

Context {S : Type} `{Scalar S}.
Variable P : Polynomials S.

Definition ComputeNDof (fe : T_HCurlDivSurfaceFE) : Effect T_HCurlDivSurfaceFE :=
  let n := 0 + (surf_order_inner fe + 1) * (surf_order_inner fe + 2) in
  let o := max2 0 (surf_order_inner fe) in
  ([], Ok (mkT_HCurlDivSurfaceFE n o (surf_vnums fe) (surf_order_inner fe))).

(** [HCurlDivSurfaceFE<ET_TRIG>::T_CalcShape]: the values handed to the
    callback are the [Shape()] of the surface face functions. *)
Definition T_CalcShape {R} (fe : T_HCurlDivSurfaceFE) (x y : AutoDiffDiff S 2)
  (shape : Vec S -> result R) : result unit * EmitState R unit :=
  let ddlami := [x; y; (sc_sub_ad 1%s x - y)%ad] in
  let lami k := nth k ddlami (ADD_const 2 0%s) in
  let oi := surf_order_inner fe in
  let bound := PrimFloat.div (double_of_int ((oi + 1) * (oi + 2))) 2%float in
  let '(es, ee) :=
    if surf_vnum fe 0 >? surf_vnum fe 1 then (1%nat, 0%nat) else (0%nat, 1%nat) in
  let '(ee, et) :=
    if surf_vnum fe ee >? surf_vnum fe 2 then (2%nat, ee) else (ee, 2%nat) in
  let '(es, et) :=
    if surf_vnum fe es >? surf_vnum fe et then (et, es) else (es, et) in
  let ls := lami es in
  let le := lami ee in
  let lt := lami et in
  let ha := mkArrayMem (int_of_double bound) (DubinerBasis3_Eval P oi ls le) in
  (for_ (below_double bound) (fun l =>
     h <- subscript ha l ;;
     emit shape (Shape (mk_T_Dl1_o_Dl2xDl3_v_surf le ls lt h)) ;;
     h' <- subscript ha l ;;
     emit shape (Shape (mk_T_Dl1_o_Dl2xDl3_v_surf ls lt le h')))) (initial tt).

(** [T_HCurlDivSurfaceFE<ET>::CalcShape] on a surface triangle. *)
Definition CalcShape (fe : T_HCurlDivSurfaceFE) (ip : list S)
  : result unit * list (Z * Vec S) :=
  let adp := reference_point 2 ip in
  let r := T_CalcShape fe (coord adp 0) (coord adp 1) (fun val => Ok val) in
  (fst r, written (snd r)).

End SurfTrig.

End HCurlDivSurfaceFE_TRIG.

(** ** Polynomial scalar fields

    A building block applied to numbers gives the value of a basis
    function at a point; applied to polynomial fields it gives the
    basis function as a field, whose divergence can be taken. *)

Inductive bipoly : Type :=
| PX
| PY
| PConst (q : Q)
| PAdd (a b : bipoly)
| PSub (a b : bipoly)
| PMul (a b : bipoly)
| POpp (a : bipoly).

Fixpoint eval (p : bipoly) (x y : Q) : Q :=
  match p with
  | PX => x
  | PY => y
  | PConst q => q
  | PAdd a b => (eval a x y + eval b x y)%Q
  | PSub a b => (eval a x y - eval b x y)%Q
  | PMul a b => (eval a x y * eval b x y)%Q
  | POpp a => (- eval a x y)%Q
  end.

(** The partial derivatives. *)
Fixpoint Dx (p : bipoly) : bipoly :=
  match p with
  | PX => PConst 1
  | PY => PConst 0
  | PConst _ => PConst 0
  | PAdd a b => PAdd (Dx a) (Dx b)
  | PSub a b => PSub (Dx a) (Dx b)
  | PMul a b => PAdd (PMul (Dx a) b) (PMul a (Dx b))
  | POpp a => POpp (Dx a)
  end.

Fixpoint Dy (p : bipoly) : bipoly :=
  match p with
  | PX => PConst 0
  | PY => PConst 1
  | PConst _ => PConst 0
  | PAdd a b => PAdd (Dy a) (Dy b)
  | PSub a b => PSub (Dy a) (Dy b)
  | PMul a b => PAdd (PMul (Dy a) b) (PMul a (Dy b))
  | POpp a => POpp (Dy a)
  end.

(** The second-order remainders of the expansions in [x] and in [y]:
    [p (x + h, y) = p (x, y) + h * Dx p (x, y) + h * h * Rx p x y h]. *)
Fixpoint Rx (p : bipoly) (x y h : Q) : Q :=
  match p with
  | PX | PY | PConst _ => 0
  | PAdd a b => Rx a x y h + Rx b x y h
  | PSub a b => Rx a x y h - Rx b x y h
  | PMul a b =>
      eval a x y * Rx b x y h + Rx a x y h * eval b x y
      + eval (Dx a) x y * eval (Dx b) x y
      + h * (eval (Dx a) x y * Rx b x y h + Rx a x y h * eval (Dx b) x y)
      + h * h * (Rx a x y h * Rx b x y h)
  | POpp a => - Rx a x y h
  end%Q.

Fixpoint Ry (p : bipoly) (x y h : Q) : Q :=
  match p with
  | PX | PY | PConst _ => 0
  | PAdd a b => Ry a x y h + Ry b x y h
  | PSub a b => Ry a x y h - Ry b x y h
  | PMul a b =>
      eval a x y * Ry b x y h + Ry a x y h * eval b x y
      + eval (Dy a) x y * eval (Dy b) x y
      + h * (eval (Dy a) x y * Ry b x y h + Ry a x y h * eval (Dy b) x y)
      + h * h * (Ry a x y h * Ry b x y h)
  | POpp a => - Ry a x y h
  end%Q.

#[export] Instance Scalar_bipoly : Scalar bipoly := {
  s_of_Z := fun z => PConst (inject_Z z);
  sadd := PAdd;
  ssub := PSub;
  smul := PMul;
  sopp := POpp
}.

(** The field [u] with its first and second derivatives, as the
    differentiation numbers carry them: [DDValue(i,j)] is the derivative
    in direction [i], then [j]. *)
Definition jet (u : bipoly) : AutoDiffDiff bipoly 2 :=
  mkADD u [Dx u; Dy u] [Dx (Dx u); Dy (Dx u); Dx (Dy u); Dy (Dy u)].

Definition ADD_at {D} (a : AutoDiffDiff bipoly D) (x y : Q) : AutoDiffDiff Q D :=
  mkADD (eval (Value a) x y)
        (map (fun p => eval p x y) (dval a))
        (map (fun p => eval p x y) (ddval a)).

(** The value and the derivatives of [u] at the point [(x, y)]. *)
Definition jet_at (u : bipoly) (x y : Q) : AutoDiffDiff Q 2 := ADD_at (jet u) x y.

Definition Vec_at (sigma : Vec bipoly) (x y : Q) : Vec Q :=
  map (fun p => eval p x y) sigma.

(** The divergence, row by row, of a 2 x 2 matrix field stored row-major. *)
Definition div_rows (sigma : Vec bipoly) : Vec bipoly :=
  [ PAdd (Dx (nth 0 sigma (PConst 0))) (Dy (nth 1 sigma (PConst 0)));
    PAdd (Dx (nth 2 sigma (PConst 0))) (Dy (nth 3 sigma (PConst 0))) ].

(** Equality of vectors and of differentiation numbers over [Q], entry
    by entry. *)
Definition Vec_eq (a b : Vec Q) : Prop := Forall2 Qeq a b.

Definition ADD_eq {D} (a b : AutoDiffDiff Q D) : Prop :=
  Value a == Value b /\ Forall2 Qeq (dval a) (dval b)
  /\ Forall2 Qeq (ddval a) (ddval b).

(** ** Instances for running the model *)

Fixpoint ad_pow {S} `{Scalar S} {D} (a : AutoDiffDiff S D) (k : nat)
  : AutoDiffDiff S D :=
  match k with
  | O => ADD_const D 1%s
  | Datatypes.S k' => (a * ad_pow a k')%ad
  end.

(** Stand-ins for the external evaluators: the entry of index [k] is
    the [k]-th power of the first argument (the power [k + 2] for the
    integrated family), times the factor [c] where the evaluator has
    one. *)
Definition power_polynomials : Polynomials Q :=
  {| ScaledLegendrePolynomial := fun D n x t k => ad_pow x (Z.to_nat k);
     IntegratedLegendreMonomialExt_CalcTrigExt :=
       fun D n x y k => ad_pow x (Z.to_nat k + 2);
     LegendrePolynomial_EvalMult := fun D n x c k => (c * ad_pow x (Z.to_nat k))%ad;
     LegendrePolynomial_Eval := fun D n x k => ad_pow x (Z.to_nat k);
     DubinerBasis3_Eval := fun D n x y k => ad_pow x (Z.to_nat k);
     LegendrePolynomial_EvalScaled1Assign := fun D n x t k => ad_pow x (Z.to_nat k);
     JacobiPolynomialAlpha_EvalScaledMult1Assign :=
       fun D alpha n x t c k => (c * ad_pow x (Z.to_nat k))%ad;
     JacobiPolynomialAlpha_EvalMult :=
       fun D alpha n x c k => (c * ad_pow x (Z.to_nat k))%ad |}.

(** A topology table in which facet [i] lies opposite vertex [i]. *)
Definition opposite_topology : ElementTopology :=
  {| GetEdges_TRIG := fun i k =>
       nth k (nth i [[1; 2]; [2; 0]; [0; 1]]%nat []) 0%nat;
     GetFaces_TET := fun i k =>
       nth k (nth i [[1; 2; 3]; [0; 2; 3]; [0; 1; 3]; [0; 1; 2]]%nat []) 0%nat |}.

(** Elements with the given orders and the identity vertex numbering. *)
Definition trig_fe (p0 p1 p2 oi : Z) (pl : bool) : T_HCurlDivFE :=
  mkT_HCurlDivFE 0 0 [0; 1; 2] [p0; p1; p2] oi pl.

Definition tet_fe (p0 p1 p2 p3 oi : Z) (pl : bool) : T_HCurlDivFE :=
  mkT_HCurlDivFE 0 0 [0; 1; 2; 3] [p0; p1; p2; p3] oi pl.

(** The centroid of the reference triangle. *)
Definition centroid : list Q := [1 # 3; 1 # 3]%Q.

(** ** Specification vocabulary *)

(** [m] returns normally and writes [n] rows, numbered consecutively
    from the counter. *)
Definition emits {R L A} (m : M R L A) (n : nat) : Prop :=
  forall s, exists a s',
    m s = (Ok a, s')
    /\ ii s' = ii s + Z.of_nat n
    /\ map fst (written s') = map fst (written s) ++ zseq (ii s) n.

(** The callback never raises. *)
Definition total {B R} (shape : B -> result R) : Prop :=
  forall val, exists row, shape val = Ok row.

(** The number of rows of a triangle before any enrichment. *)
Definition trig_rows (fe : T_HCurlDivFE) : nat :=
  let n := Z.to_nat (order_inner fe) in
  (Z.to_nat (facet fe 0 + 1) + Z.to_nat (facet fe 1 + 1) + Z.to_nat (facet fe 2 + 1)
   + (n * (n + 1) + (n * (n + 1) + Z.to_nat (order_inner fe + 1))))%nat.

(** The class of a value handed to the row callback of the triangle. *)
Inductive TrigFamily : Type :=
| Family_Sigma_gradv
| Family_Sigma_gradu_v
| Family_Curlgraduv_graducurlv
| Family_T_type4.

Definition family_of {S} (val : TrigShape S) : TrigFamily :=
  match val with
  | Trig_Sigma_gradv _ => Family_Sigma_gradv
  | Trig_Sigma_gradu_v _ => Family_Sigma_gradu_v
  | Trig_Curlgraduv_graducurlv _ => Family_Curlgraduv_graducurlv
  | Trig_T_type4 _ => Family_T_type4
  end.

(** The element with the other value of [plus]. *)
Definition with_plus (fe : T_HCurlDivFE) (b : bool) : T_HCurlDivFE :=
  mkT_HCurlDivFE (ndof fe) (order fe) (vnums fe) (order_facet fe) (order_inner fe) b.

(** Row [q] holds what the callback [shape] makes of the value of row
    [p], under the same number. *)
Definition row_of {B R} (shape : B -> result R) (p : Z * B) (q : Z * R) : Prop :=
  fst p = fst q /\ shape (snd p) = Ok (snd q).

Definition same_state {B R L} (shape : B -> result R)
  (s1 : EmitState B L) (s2 : EmitState R L) : Prop :=
  ii s1 = ii s2
  /\ subscripts s1 = subscripts s2
  /\ locals s1 = locals s2
  /\ Forall2 (row_of shape) (written s1) (written s2).

(** [m2], run with the callback [shape], proceeds as [m1], run with the
    callback that stores the value itself. *)
Definition tracks {B R L A} (shape : B -> result R)
  (m1 : M B L A) (m2 : M R L A) : Prop :=
  forall s1 s2, same_state shape s1 s2 ->
    fst (m1 s1) = fst (m2 s2) /\ same_state shape (snd (m1 s1)) (snd (m2 s2)).

(** [m] returns normally and writes rows holding [vals], numbered
    consecutively from the counter. *)
Definition emits_vals {R L A} (m : M R L A) (vals : list R) : Prop :=
  forall s, exists a s',
    m s = (Ok a, s')
    /\ ii s' = ii s + Z.of_nat (length vals)
    /\ map snd (written s') = map snd (written s) ++ vals.

(** The callback that records the class of the value. *)
Definition record_family {S} (val : TrigShape S) : result TrigFamily :=
  Ok (family_of val).

(** The layout of the rows of a triangle before any enrichment: the
    edge functions facet by facet, then twice the pairs of the two
    product families over [i + j <= oi - 1], then the third interior
    family. *)
Definition trig_pairs_layout (oi : Z) : list TrigFamily :=
  flat_map (fun i =>
      flat_map (fun _ => [Family_Sigma_gradu_v; Family_Curlgraduv_graducurlv])
               (zrange 0 (oi - 1 - i)))
    (zrange 0 (oi - 1)).

Definition trig_layout (fe : T_HCurlDivFE) : list TrigFamily :=
  flat_map (fun i => flat_map (fun _ => [Family_Sigma_gradv])
                              (zrange 0 (facet fe i)))
           (seq 0 3)
  ++ trig_pairs_layout (order_inner fe)
  ++ trig_pairs_layout (order_inner fe)
  ++ flat_map (fun _ => [Family_T_type4]) (zrange 0 (order_inner fe)).

(** The number of rows of one interior recursion of the tetrahedron of
    degree [n], the innermost lambda writing [c] rows. *)
Definition tet_interior_count (n : Z) (c : nat) : nat :=
  list_sum (map (fun k =>
    list_sum (map (fun j => (length (zrange 0 (n - k - j)) * c)%nat)
                  (zrange 0 (n - k))))
    (zrange 0 n)).

(** The [double] bound of the loop over the modes of a face of order
    [p]. *)
Definition face_bound (p : Z) : float :=
  PrimFloat.div (double_of_int ((p + 1) * (p + 2))) 2%float.

(** The number of rows of a tetrahedron. *)
Definition tet_rows (fe : T_HCurlDivFE) : nat :=
  (list_sum (map (fun fa => (length (below_double (face_bound (facet fe fa))) * 2)%nat)
                 (seq 0 4))
   + (tet_interior_count (order_inner fe) 1
      + tet_interior_count (order_inner fe - 1) 8))%nat.

(** Two mapped points over the centroid with the same Jacobian data:
    one of an affine map, one of a curved map with second
    derivatives. *)
Definition affine_mip : MappedIntegrationPoint Q :=
  mkMappedIntegrationPoint [1 # 3; 1 # 3]%Q [[2; 0]; [1; 1]]%Q [] false.

Definition curved_mip : MappedIntegrationPoint Q :=
  mkMappedIntegrationPoint [1 # 3; 1 # 3]%Q [[2; 0]; [1; 1]]%Q
    [[[1; 2]; [2; 3]]; [[0; 1]; [1; 5]]]%Q true.

(** [DivShape()] of a block is the divergence of its [Shape()]: the
    block built at a point [(x, y)] from the values and derivatives of
    polynomial fields has the [Shape()] of the field block at that
    point, and its [DivShape()] is the divergence of that field
    there. *)
Definition DivShape_exact {TQ TP : Type} `{ShapeFunction Q TQ}
  `{ShapeFunction bipoly TP} (at_point : Q -> Q -> TQ) (field : TP) : Prop :=
  forall x y : Q,
    Shape (at_point x y) = Vec_at (Shape field) x y
    /\ exists d : Vec Q,
         DivShape (at_point x y) = Ok d
         /\ Vec_eq d (Vec_at (div_rows (Shape field)) x y).

(** [m] returns normally and makes the array subscripts [l]. *)
Definition logs {R L A} (m : M R L A) (l : list (Z * Z)) : Prop :=
  forall s, exists a s',
    m s = (Ok a, s') /\ subscripts s' = subscripts s ++ l.

(** The declared size of [ha] in the tetrahedron. *)
Definition tet_ha_size (fe : T_HCurlDivFE) : Z :=
  int_of_double
    (face_bound (max2 (facet fe 0) (max2 (facet fe 1) (facet fe 2)))).

(** The subscripts of [ha] made by the face loop of the tetrahedron. *)
Definition tet_subscripts (fe : T_HCurlDivFE) : list (Z * Z) :=
  flat_map (fun fa =>
      flat_map (fun l => [(l, tet_ha_size fe); (l, tet_ha_size fe)])
               (below_double (face_bound (facet fe fa))))
    (seq 0 4).

(** A polynomial expression evaluated in the arithmetic of the
    differentiation numbers. *)
Fixpoint ad_eval (p : bipoly) (X Y : AutoDiffDiff Q 2) : AutoDiffDiff Q 2 :=
  match p with
  | PX => X
  | PY => Y
  | PConst q => ADD_const 2 q
  | PAdd a b => (ad_eval a X Y + ad_eval b X Y)%ad
  | PSub a b => (ad_eval a X Y - ad_eval b X Y)%ad
  | PMul a b => (ad_eval a X Y * ad_eval b X Y)%ad
  | POpp a => sc_sub_ad 0%Q (ad_eval a X Y)
  end.

(** ** The building blocks of the bubbles and of the old basis

    [T_sigma_u_grad_v] and [T_Dl2xRotDl1_v] are complete classes of the
    header, although [T_CalcShape] never hands one to the callback.  The
    literal [0.5] needs a scalar type that has it. *)

Class ScalarHalf (S : Type) : Type := { s_half : S }.

#[export] Instance ScalarHalf_Q : ScalarHalf Q := {| s_half := 1 # 2 |}.

#[export] Instance ScalarHalf_bipoly : ScalarHalf bipoly :=
  {| s_half := PConst (1 # 2) |}.

Section Bubbles.

Context {S : Type} `{Scalar S} `{ScalarHalf S}.
Local Open Scope scalar_scope.

(** *** [sigma(u grad v)] of the curl-div bubbles *)

Record T_sigma_u_grad_v : Type :=
  mk_T_sigma_u_grad_v { su_u : AutoDiffDiff S 2; su_v : AutoDiffDiff S 2 }.

Definition T_sigma_u_grad_v_Shape (b : T_sigma_u_grad_v) : Vec S :=
  let u := su_u b in
  let v := su_v b in
  [ - Value u * DDValue v 0 1
      - s_half * (DValue u 1 * DValue v 0 + DValue u 0 * DValue v 1);
    DValue u 0 * DValue v 0 + Value u * DDValue v 0 0;
    - DValue u 1 * DValue v 1 - Value u * DDValue v 1 1;
    Value u * DDValue v 1 0
      + s_half * (DValue u 1 * DValue v 0 + DValue u 0 * DValue v 1) ].

Definition T_sigma_u_grad_v_DivShape (b : T_sigma_u_grad_v) : result (Vec S) :=
  let u := su_u b in
  let v := su_v b in
  let uxx := DDValue u 0 0 in
  let uyy := DDValue u 1 1 in
  let uxy := DDValue u 0 1 in
  let ux := DValue u 0 in
  let uy := DValue u 1 in
  let vxx := DDValue v 0 0 in
  let vyy := DDValue v 1 1 in
  let vxy := DDValue v 0 1 in
  let vx := DValue v 0 in
  let vy := DValue v 1 in
  Ok [ - s_half * (- vx * uxy - uy * vxx + vxy * ux + vy * uxx);
       - s_half * (vyy * ux + vy * uxy - vxy * uy - vx * uyy) ].

(** *** The edge functions of the old basis:
    [(grad l1) o-times (rot-grad l2)] times a polynomial *)

Record T_Dl2xRotDl1_v : Type :=
  mk_T_Dl2xRotDl1_v { e2_l1 : AutoDiffDiff S 2; e2_l2 : AutoDiffDiff S 2;
                      e2_v : AutoDiffDiff S 2 }.

Definition T_Dl2xRotDl1_v_Shape (b : T_Dl2xRotDl1_v) : Vec S :=
  let l1 := e2_l1 b in
  let l2 := e2_l2 b in
  let v := e2_v b in
  [ - Value v * (DValue l1 0 * DValue l2 1);
    Value v * (DValue l1 0 * DValue l2 0);
    - Value v * (DValue l1 1 * DValue l2 1);
    Value v * (DValue l1 1 * DValue l2 0) ].

Definition T_Dl2xRotDl1_v_DivShape (b : T_Dl2xRotDl1_v) : result (Vec S) :=
  let l1 := e2_l1 b in
  let l2 := e2_l2 b in
  let v := e2_v b in
  let vx := DValue v 0 in
  let vy := DValue v 1 in
  let lam1x := DValue l1 0 in
  let lam1y := DValue l1 1 in
  let lam2x := DValue l2 0 in
  let lam2y := DValue l2 1 in
  Ok [ - vx * lam1x * lam2y + vy * lam1x * lam2x;
       - vx * lam1y * lam2y + vy * lam1y * lam2x ].

End Bubbles.

Arguments T_sigma_u_grad_v S : clear implicits.
Arguments T_Dl2xRotDl1_v S : clear implicits.

#[export] Instance ShapeFunction_T_sigma_u_grad_v {S} `{Scalar S} `{ScalarHalf S}
  : ShapeFunction S (T_sigma_u_grad_v S) :=
  {| Shape := T_sigma_u_grad_v_Shape; DivShape := T_sigma_u_grad_v_DivShape |}.

#[export] Instance ShapeFunction_T_Dl2xRotDl1_v {S} `{Scalar S}
  : ShapeFunction S (T_Dl2xRotDl1_v S) :=
  {| Shape := T_Dl2xRotDl1_v_Shape; DivShape := T_Dl2xRotDl1_v_DivShape |}.

(** A field whose gradient is constant: all its second derivatives
    vanish. *)
Definition constant_gradient (l : bipoly) : Prop :=
  forall x y : Q, Forall (fun p => eval p x y == 0) (ddval (jet l)).

(** ** Polynomial scalar fields in three variables *)

Inductive tripoly : Type :=
| TVar (i : nat)
| TConst (q : Q)
| TAdd (a b : tripoly)
| TSub (a b : tripoly)
| TMul (a b : tripoly)
| TOpp (a : tripoly).

(** The value at the point with coordinates [pt 0], [pt 1], [pt 2]. *)
Fixpoint teval (p : tripoly) (pt : nat -> Q) : Q :=
  match p with
  | TVar i => pt i
  | TConst q => q
  | TAdd a b => (teval a pt + teval b pt)%Q
  | TSub a b => (teval a pt - teval b pt)%Q
  | TMul a b => (teval a pt * teval b pt)%Q
  | TOpp a => (- teval a pt)%Q
  end.

(** The partial derivative in the variable [i]. *)
Fixpoint TD (i : nat) (p : tripoly) : tripoly :=
  match p with
  | TVar j => TConst (if Nat.eqb j i then 1 else 0)
  | TConst _ => TConst 0
  | TAdd a b => TAdd (TD i a) (TD i b)
  | TSub a b => TSub (TD i a) (TD i b)
  | TMul a b => TAdd (TMul (TD i a) b) (TMul a (TD i b))
  | TOpp a => TOpp (TD i a)
  end.

(** The point moved by [h] in the variable [i], and the second-order
    remainder of the expansion in that variable. *)
Definition shifted (pt : nat -> Q) (i : nat) (h : Q) : nat -> Q :=
  fun j => if Nat.eqb j i then (pt j + h)%Q else pt j.

Fixpoint TR (i : nat) (p : tripoly) (pt : nat -> Q) (h : Q) : Q :=
  match p with
  | TVar _ | TConst _ => 0
  | TAdd a b => TR i a pt h + TR i b pt h
  | TSub a b => TR i a pt h - TR i b pt h
  | TMul a b =>
      teval a pt * TR i b pt h + TR i a pt h * teval b pt
      + teval (TD i a) pt * teval (TD i b) pt
      + h * (teval (TD i a) pt * TR i b pt h + TR i a pt h * teval (TD i b) pt)
      + h * h * (TR i a pt h * TR i b pt h)
  | TOpp a => - TR i a pt h
  end%Q.

#[export] Instance Scalar_tripoly : Scalar tripoly := {
  s_of_Z := fun z => TConst (inject_Z z);
  sadd := TAdd;
  ssub := TSub;
  smul := TMul;
  sopp := TOpp
}.

(** The field [u] with its gradient and its Hessian, [DDValue(i,j)]
    being the derivative in direction [i], then [j]. *)
Definition jet3 (u : tripoly) : AutoDiffDiff tripoly 3 :=
  mkADD u (tab 3 (fun i => TD i u)) (tab2 3 (fun i j => TD j (TD i u))).

Definition ADD_at3 {D} (a : AutoDiffDiff tripoly D) (pt : nat -> Q)
  : AutoDiffDiff Q D :=
  mkADD (teval (Value a) pt)
        (map (fun p => teval p pt) (dval a))
        (map (fun p => teval p pt) (ddval a)).

Definition jet3_at (u : tripoly) (pt : nat -> Q) : AutoDiffDiff Q 3 :=
  ADD_at3 (jet3 u) pt.

Definition Vec_at3 (sigma : Vec tripoly) (pt : nat -> Q) : Vec Q :=
  map (fun p => teval p pt) sigma.

(** The divergence, row by row, of a 3 x 3 matrix field stored
    row-major. *)
Definition div_rows3 (sigma : Vec tripoly) : Vec tripoly :=
  tab 3 (fun i =>
    TAdd (TAdd (TD 0 (nth (i * 3) sigma (TConst 0)))
               (TD 1 (nth (i * 3 + 1) sigma (TConst 0))))
         (TD 2 (nth (i * 3 + 2) sigma (TConst 0)))).

Definition constant_gradient3 (l : tripoly) : Prop :=
  forall pt : nat -> Q, Forall (fun p => teval p pt == 0) (ddval (jet3 l)).

(** [DivShape()] of a block of the tetrahedron is the divergence of its
    [Shape()], as [DivShape_exact] has it for the triangle. *)
Definition DivShape_exact3 {TQ TP : Type} `{ShapeFunction Q TQ}
  `{ShapeFunction tripoly TP} (at_point : (nat -> Q) -> TQ) (field : TP) : Prop :=
  forall pt : nat -> Q,
    Shape (at_point pt) = Vec_at3 (Shape field) pt
    /\ exists d : Vec Q,
         DivShape (at_point pt) = Ok d
         /\ Vec_eq d (Vec_at3 (div_rows3 (Shape field)) pt).

(** ** Invariants of a run *)

(** [m] keeps the property [I] of the state, whatever its outcome. *)
Definition preserves {R L A} (I : EmitState R L -> Prop) (m : M R L A) : Prop :=
  forall s, I s -> I (snd (m s)).

(** Every array subscript made so far lies within the declared size. *)
Definition reads_ok {R L} (s : EmitState R L) : Prop :=
  forallb in_range (subscripts s) = true.

(** Every value written so far satisfies [Pv]. *)
Definition all_written {R L} (Pv : R -> Prop) (s : EmitState R L) : Prop :=
  Forall (fun row => Pv (snd row)) (written s).

(** A face block of the tetrahedron whose three first arguments are
    taken from [lam]. *)
Definition face_block_of {S} (lam : list (AutoDiffDiff S 3)) (val : TetShape S)
  : Prop :=
  match val with
  | Tet_T_Dl1_o_Dl2xDl3_v b =>
      In (f3_l1 b) lam /\ In (f3_l2 b) lam /\ In (f3_l3 b) lam
  | Tet_T_Id_v _ => True
  end.

(** A face block of the tetrahedron whose three first arguments have no
    second derivative. *)
Definition face_block_flat (val : TetShape Q) : Prop :=
  match val with
  | Tet_T_Dl1_o_Dl2xDl3_v b =>
      forall i j : nat,
        DDValue (f3_l1 b) i j == 0 /\ DDValue (f3_l2 b) i j == 0
        /\ DDValue (f3_l3 b) i j == 0
  | Tet_T_Id_v _ => True
  end.

(** A table of faces that names vertices of the tetrahedron. *)
Definition valid_faces (T : ElementTopology) : Prop :=
  forall fa k, (fa < 4)%nat -> (k < 3)%nat -> (GetFaces_TET T fa k < 4)%nat.

(** ** Topology tables that list the same facets *)

(** Two tables that give every edge of the triangle the same two
    vertices, in either order. *)
Definition same_edges (T T' : ElementTopology) : Prop :=
  forall i, (i < 3)%nat ->
    (GetEdges_TRIG T' i 0 = GetEdges_TRIG T i 0
     /\ GetEdges_TRIG T' i 1 = GetEdges_TRIG T i 1)
    \/ (GetEdges_TRIG T' i 0 = GetEdges_TRIG T i 1
        /\ GetEdges_TRIG T' i 1 = GetEdges_TRIG T i 0).

(** Two tables that give every face of the tetrahedron the same three
    vertices, in any order. *)
Definition same_faces (T T' : ElementTopology) : Prop :=
  forall fa, (fa < 4)%nat ->
    Permutation [GetFaces_TET T' fa 0; GetFaces_TET T' fa 1; GetFaces_TET T' fa 2]
                [GetFaces_TET T fa 0; GetFaces_TET T fa 1; GetFaces_TET T fa 2].

(** The vertices of every edge, and of every face, carry different
    global numbers. *)
Definition edges_numbered (T : ElementTopology) (fe : T_HCurlDivFE) : Prop :=
  forall i, (i < 3)%nat ->
    vnum fe (GetEdges_TRIG T i 0) <> vnum fe (GetEdges_TRIG T i 1).

Definition faces_numbered (T : ElementTopology) (fe : T_HCurlDivFE) : Prop :=
  forall fa, (fa < 4)%nat ->
    vnum fe (GetFaces_TET T fa 0) <> vnum fe (GetFaces_TET T fa 1)
    /\ vnum fe (GetFaces_TET T fa 0) <> vnum fe (GetFaces_TET T fa 2)
    /\ vnum fe (GetFaces_TET T fa 1) <> vnum fe (GetFaces_TET T fa 2).

(** The table [opposite_topology] with every edge and every face listed
    in another order. *)
Definition reordered_topology : ElementTopology :=
  {| GetEdges_TRIG := fun i k =>
       nth k (nth i [[2; 1]; [0; 2]; [1; 0]]%nat []) 0%nat;
     GetFaces_TET := fun i k =>
       nth k (nth i [[3; 1; 2]; [2; 3; 0]; [1; 0; 3]; [2; 1; 0]]%nat []) 0%nat |}.

(** ** The surface triangle in two steps *)

(** The three compare-and-swap steps of
    [HCurlDivSurfaceFE<ET_TRIG>::T_CalcShape] on [es = 0], [ee = 1],
    [et = 2]. *)
Definition surf_vertex_order (fe : T_HCurlDivSurfaceFE) : nat * nat * nat :=
  let '(es, ee) :=
    if surf_vnum fe 0 >? surf_vnum fe 1 then (1%nat, 0%nat) else (0%nat, 1%nat) in
  let '(ee, et) :=
    if surf_vnum fe ee >? surf_vnum fe 2 then (2%nat, ee) else (ee, 2%nat) in
  let '(es, et) :=
    if surf_vnum fe es >? surf_vnum fe et then (et, es) else (es, et) in
  (es, ee, et).

(** The same without the third step. *)
Definition surf_vertex_order_two_steps (fe : T_HCurlDivSurfaceFE)
  : nat * nat * nat :=
  let '(es, ee) :=
    if surf_vnum fe 0 >? surf_vnum fe 1 then (1%nat, 0%nat) else (0%nat, 1%nat) in
  let '(ee, et) :=
    if surf_vnum fe ee >? surf_vnum fe 2 then (2%nat, ee) else (ee, 2%nat) in
  (es, ee, et).

(** What [HCurlDivSurfaceFE<ET_TRIG>::T_CalcShape] does once [es], [ee]
    and [et] are settled. *)
Definition surf_rows_from {S} `{Scalar S} (P : Polynomials S) {R}
  (fe : T_HCurlDivSurfaceFE) (x y : AutoDiffDiff S 2) (shape : Vec S -> result R)
  (vertices : nat * nat * nat) : result unit * EmitState R unit :=
  let '(es, ee, et) := vertices in
  let ddlami := [x; y; (sc_sub_ad 1%s x - y)%ad] in
  let lami k := nth k ddlami (ADD_const 2 0%s) in
  let oi := surf_order_inner fe in
  let bound := PrimFloat.div (double_of_int ((oi + 1) * (oi + 2))) 2%float in
  let ls := lami es in
  let le := lami ee in
  let lt := lami et in
  let ha := mkArrayMem (int_of_double bound) (DubinerBasis3_Eval P oi ls le) in
  (for_ (below_double bound) (fun l =>
     h <- subscript ha l ;;
     emit shape (Shape (mk_T_Dl1_o_Dl2xDl3_v_surf le ls lt h)) ;;
     h' <- subscript ha l ;;
     emit shape (Shape (mk_T_Dl1_o_Dl2xDl3_v_surf ls lt le h')))) (initial tt).

(** ** Checking the index arithmetic in [double] *)

Definition list_Z_eqb (a b : list Z) : bool :=
  Nat.eqb (length a) (length b)
  && forallb (fun ab => fst ab =? snd ab) (combine a b).

(** The [double] expressions of the tetrahedron and of the surface
    triangle at the order [p] give the integers they stand for: the
    interior count, the size of [ha] and the modes let through by the
    loop bound. *)
Definition index_arithmetic_exact (p : Z) : bool :=
  (6 * HCurlDivFE_TET.ninner p
   =? (p + 1) * (p + 2) * (p + 3) + 8 * ((p + 2) * (p + 1) * p))
  && (2 * int_of_double (face_bound p) =? (p + 1) * (p + 2))
  && list_Z_eqb (below_double (face_bound p))
                (zrange 0 (int_of_double (face_bound p) - 1)).

(** ** The Jacobi object [jac1] across the two interior families *)

(** [m] returns normally and leaves the [alpha] of [jac1] advanced by
    [d]. *)
Definition advances_jac1 {R A} (m : M R JacobiLocals A) (d : Z) : Prop :=
  forall s, exists a s',
    m s = (Ok a, s') /\ jac1 (locals s') = jac1 (locals s) + d.

(** ** Facet elements: [FacetFiniteElement_Family<ET>] of
    [fem/facethofe.hpp] *)

Module FacetFiniteElement_Family.

(** The element types that [ElementTopology::GetFacetType] can
    return. *)
Inductive ELEMENT_TYPE : Type :=
| ET_POINT | ET_SEGM | ET_TRIG | ET_QUAD | ET_TET | ET_PYRAMID | ET_PRISM | ET_HEX.

(** The members of the base [FacetVolumeFiniteElement] that
    [ComputeNDof] uses: [ndof], the array [first_facet_dof] and the
    array [facet_order]. *)
Record FacetVolumeFiniteElement : Type := mkFacetVolumeFiniteElement {
  ndof : Z;
  first_facet_dof : list Z;
  facet_order : list Z
}.

(** [sqr] *)
Definition sqr (a : Z) : Z := a * a.

(** [FacetFiniteElement_Family<ET>::ComputeNDof()], for an element type
    with [N_FACET] facets whose types [GetFacetType] gives; the division
    of [int] truncates. *)
Definition ComputeNDof (N_FACET : nat) (GetFacetType : nat -> ELEMENT_TYPE)
  (fe : FacetVolumeFiniteElement) : FacetVolumeFiniteElement :=
  let '(ndof1, first1) :=
    fold_left (fun '(ndof0, first0) i =>
        let first0 := list_set first0 i ndof0 in
        let fo := nth i (facet_order fe) 0 in
        let ndof0 :=
          match GetFacetType i with
          | ET_SEGM => ndof0 + (fo + 1)
          | ET_TRIG => ndof0 + Z.quot ((fo + 1) * (fo + 2)) 2
          | ET_QUAD => ndof0 + sqr (fo + 1)
          | _ => ndof0
          end in
        (ndof0, first0))
      (seq 0 N_FACET) (0, first_facet_dof fe) in
  mkFacetVolumeFiniteElement ndof1 (list_set first1 N_FACET ndof1) (facet_order fe).

(** The number of functions on a facet of type [t] and order [fo]. *)
Definition facet_dofs (t : ELEMENT_TYPE) (fo : Z) : Z :=
  match t with
  | ET_SEGM => fo + 1
  | ET_TRIG => (fo + 1) * (fo + 2) / 2
  | ET_QUAD => (fo + 1) * (fo + 1)
  | _ => 0
  end.

(** The number of functions on the facets before facet [i]. *)
Fixpoint facet_offset (GetFacetType : nat -> ELEMENT_TYPE) (orders : list Z)
  (i : nat) : Z :=
  match i with
  | O => 0
  | Datatypes.S j =>
      facet_offset GetFacetType orders j
      + facet_dofs (GetFacetType j) (nth j orders 0)
  end.

(** *** Evaluation on the integration points of a facet

    [SIMD<double>] is a vector of [W] lanes, [double] being an exact
    scalar as in the shape algebra; [HSum] adds the lanes. *)
Section FacetVolIp.

Variable W : nat.

Definition SIMD : Type := nat -> Q.

Definition simd_const (c : Q) : SIMD := fun _ => c.
Definition simd_add (a b : SIMD) : SIMD := fun l => (a l + b l)%Q.
Definition simd_scale (c : Q) (a : SIMD) : SIMD := fun l => (c * a l)%Q.
Definition simd_mul (a b : SIMD) : SIMD := fun l => (a l * b l)%Q.

Definition HSum (a : SIMD) : Q := fold_right Qplus 0%Q (map a (seq 0 W)).

Variable DIM : nat.

(** [FacetFE<ET>::T_CalcShapeFNr (fnr, pt, shape)] is declared in the
    header and defined elsewhere; what matters here is the sequence of
    calls [shape (j, value)] it makes for a facet and a point. *)
Variable T_CalcShapeFNr : Z -> list SIMD -> list (Z * SIMD).

(** [pt[j] = hir[i](j)] for [j < DIM] *)
Definition point (hir_i : nat -> SIMD) : list SIMD := tab DIM hir_i.

(** [coefs(j) += x] *)
Definition add_at (coefs : Z -> Q) (j : Z) (x : Q) : Z -> Q :=
  fun j' => if j' =? j then (coefs j' + x)%Q else coefs j'.

(** [EvaluateFacetVolIp (fnr, ir, coefs, values)]: the entries
    [values.Get(i)] written, one for each point. *)
Definition EvaluateFacetVolIp (fnr : Z) (hir : list (nat -> SIMD))
  (coefs : Z -> Q) : list SIMD :=
  map (fun i =>
         fold_left (fun sum '(j, shape) => simd_add sum (simd_scale (coefs j) shape))
                   (T_CalcShapeFNr fnr (point (nth i hir (fun _ => simd_const 0))))
                   (simd_const 0))
      (seq 0 (length hir)).

(** [AddTransFacetVolIp (fnr, ir, values, coefs)]: the coefficients
    afterwards. *)
Definition AddTransFacetVolIp (fnr : Z) (hir : list (nat -> SIMD))
  (values : list SIMD) (coefs : Z -> Q) : Z -> Q :=
  fold_left (fun coefs i =>
               let val := nth i values (simd_const 0) in
               fold_left (fun coefs '(j, shape) =>
                            add_at coefs j (HSum (simd_mul val shape)))
                         (T_CalcShapeFNr fnr (point (nth i hir (fun _ => simd_const 0))))
                         coefs)
            (seq 0 (length hir)) coefs.

(** The coefficient vector of the basis function number [k]. *)
Definition unit_coefs (k : Z) : Z -> Q := fun j => if j =? k then 1%Q else 0%Q.

(** The pairing of two families of values on the points. *)
Definition pairing (n : nat) (a b : list SIMD) : Q :=
  fold_right Qplus 0%Q
    (map (fun i => HSum (simd_mul (nth i a (simd_const 0)) (nth i b (simd_const 0))))
         (seq 0 n)).

End FacetVolIp.

End FacetFiniteElement_Family.

(** ** The classes of the rows of the tetrahedron *)

Inductive TetFamily : Type :=
| Family_face
| Family_identity.

Definition tet_family_of {S} (val : TetShape S) : TetFamily :=
  match val with
  | Tet_T_Dl1_o_Dl2xDl3_v _ => Family_face
  | Tet_T_Id_v _ => Family_identity
  end.

Definition record_tet_family {S} (val : TetShape S) : result TetFamily :=
  Ok (tet_family_of val).

(** [m] returns normally and writes [n] rows of the class [F]. *)
Definition emits_family {L A} (m : M TetFamily L A) (F : TetFamily) (n : nat)
  : Prop :=
  emits_vals m (repeat F n).

(** The rows of the face loop of the tetrahedron. *)
Definition tet_face_rows (fe : T_HCurlDivFE) : nat :=
  list_sum (map (fun fa => (length (below_double (face_bound (facet fe fa))) * 2)%nat)
                (seq 0 4)).

(** * Properties *)

(** ** Ranges *)

Lemma zseq_shift (m n : nat) (a : Z) :
  map (fun k => a + Z.of_nat k) (seq n m) = zseq (a + Z.of_nat n) m.
Proof.
  unfold zseq. revert n a.
  induction m as [|m IH]; intros n a; [reflexivity|].
  cbn [seq map]. f_equal; [lia|].
  rewrite (IH (Datatypes.S n) a), (IH 1%nat (a + Z.of_nat n)).
  apply map_ext. intros k. lia.
Qed.

Lemma zseq_app (a : Z) (n m : nat) :
  zseq a (n + m) = zseq a n ++ zseq (a + Z.of_nat n) m.
Proof.
  unfold zseq at 1. rewrite seq_app, map_app. cbn [Nat.add].
  f_equal. apply zseq_shift.
Qed.

Lemma zseq_length (a : Z) (n : nat) : length (zseq a n) = n.
Proof. unfold zseq. now rewrite length_map, length_seq. Qed.

Lemma zseq_NoDup (a : Z) (n : nat) : NoDup (zseq a n).
Proof.
  unfold zseq. apply Injective_map_NoDup; [|apply seq_NoDup].
  intros i j Hij. lia.
Qed.

Lemma zseq_In (a : Z) (n : nat) (k : Z) :
  In k (zseq a n) <-> a <= k < a + Z.of_nat n.
Proof.
  unfold zseq. rewrite in_map_iff. split.
  - intros [i [<- Hi]]. apply in_seq in Hi. lia.
  - intros Hk. exists (Z.to_nat (k - a)). split; [lia|]. apply in_seq. lia.
Qed.

Lemma zrange_zseq (lo hi : Z) : zrange lo hi = zseq lo (Z.to_nat (hi - lo + 1)).
Proof. reflexivity. Qed.

Lemma zrange_length (lo hi : Z) : length (zrange lo hi) = Z.to_nat (hi - lo + 1).
Proof. rewrite zrange_zseq. apply zseq_length. Qed.

Lemma zrange_In (lo hi k : Z) : In k (zrange lo hi) <-> lo <= k <= hi.
Proof. rewrite zrange_zseq, zseq_In. lia. Qed.

(** ** Counting the rows of a computation *)

Section Emits.

Context {R L : Type}.

Lemma emits_ret {A} (a : A) : emits (ret (R:=R) (L:=L) a) 0.
Proof.
  intros s. exists a, s. cbn. rewrite app_nil_r. repeat split; lia.
Qed.

Lemma emits_bind {A B} (m : M R L A) (k : A -> M R L B) (n1 n2 : nat) :
  emits m n1 -> (forall a, emits (k a) n2) -> emits (bind m k) (n1 + n2).
Proof.
  intros Hm Hk s.
  destruct (Hm s) as (a & s1 & E1 & I1 & W1).
  destruct (Hk a s1) as (b & s2 & E2 & I2 & W2).
  exists b, s2. unfold bind. rewrite E1, E2. repeat split.
  - lia.
  - rewrite W2, W1, I1, zseq_app, app_assoc. reflexivity.
Qed.

Lemma emits_eq {A} (m : M R L A) (n n' : nat) :
  emits m n -> n = n' -> emits m n'.
Proof. now intros Hm <-. Qed.

Lemma emits_emit {B} (shape : B -> result R) (val : B) :
  total shape -> emits (emit (L:=L) shape val) 1.
Proof.
  intros Ht s. destruct (Ht val) as [row E].
  unfold emit. rewrite E. eexists tt, _. split; [reflexivity|].
  cbn. split; [lia|]. rewrite map_app. cbn. do 3 f_equal. lia.
Qed.

Lemma emits_subscript {S D} (a : ArrayMem S D) (l : Z) :
  emits (subscript (R:=R) (L:=L) a l) 0.
Proof.
  intros s. eexists _, _. split; [reflexivity|]. cbn.
  rewrite app_nil_r. split; [lia|reflexivity].
Qed.

Lemma emits_get_locals : emits (get_locals (R:=R) (L:=L)) 0.
Proof.
  intros s. eexists _, _. split; [reflexivity|]. cbn.
  rewrite app_nil_r. split; [lia|reflexivity].
Qed.

Lemma emits_set_locals (l : L) : emits (set_locals (R:=R) l) 0.
Proof.
  intros s. eexists _, _. split; [reflexivity|]. cbn.
  rewrite app_nil_r. split; [lia|reflexivity].
Qed.

Lemma emits_for {X} (xs : list X) (body : X -> M R L unit) (f : X -> nat) :
  (forall x, In x xs -> emits (body x) (f x)) ->
  emits (for_ xs body) (list_sum (map f xs)).
Proof.
  induction xs as [|x r IH]; intros Hb; cbn [for_ map list_sum].
  - apply emits_ret.
  - apply emits_bind.
    + apply Hb. now left.
    + intros _. apply IH. intros x' Hx'. apply Hb. now right.
Qed.

Lemma emits_for_const {X} (xs : list X) (body : X -> M R L unit) (c : nat) :
  (forall x, In x xs -> emits (body x) c) ->
  emits (for_ xs body) (length xs * c).
Proof.
  intros Hb. eapply emits_eq; [apply (emits_for xs body (fun _ => c) Hb)|].
  clear Hb. induction xs as [|x r IH]; [reflexivity|].
  cbn. f_equal. exact IH.
Qed.

Lemma emits_callback_eval {S D} (n : Z) (value : Z -> AutoDiffDiff S D)
  (callback : Z -> AutoDiffDiff S D -> M R L unit) (f : Z -> nat) :
  (forall k, 0 <= k <= n -> emits (callback k (value k)) (f k)) ->
  emits (callback_eval n value callback) (list_sum (map f (zrange 0 n))).
Proof.
  intros Hc. unfold callback_eval. apply emits_for.
  intros k Hk. apply Hc. now apply zrange_In.
Qed.

(** With no exception in sight, the rows of a run from the initial
    state are numbered [0, ..., n - 1]. *)
Lemma emits_initial (m : M R L unit) (n : nat) (l : L) :
  emits m n ->
  fst (m (initial l)) = Ok tt
  /\ map fst (written (snd (m (initial l)))) = zseq 0 n
  /\ ii (snd (m (initial l))) = Z.of_nat n.
Proof.
  intros Hm. destruct (Hm (initial l)) as ([] & s' & E & I & W).
  rewrite E. cbn in *. auto.
Qed.

End Emits.

Create HintDb emits discriminated.
#[export] Hint Resolve emits_ret emits_subscript emits_get_locals
  emits_set_locals : emits.

(** [a <- m ;; k] where [m] writes nothing. *)
Lemma emits_bind0 {R L A B} (m : M R L A) (k : A -> M R L B) (n : nat) :
  emits m 0 -> (forall a, emits (k a) n) -> emits (bind m k) n.
Proof. intros Hm Hk. apply (emits_bind m k 0 n Hm Hk). Qed.

Ltac emits_step :=
  lazymatch goal with
  | |- emits (ret _) _ => apply emits_ret
  | |- emits (subscript _ _) _ => apply emits_subscript
  | |- emits get_locals _ => apply emits_get_locals
  | |- emits (set_locals _) _ => apply emits_set_locals
  | |- emits (emit _ _) _ => apply emits_emit; assumption
  | |- emits (bind (emit _ _) _) _ =>
      apply (emits_bind _ _ 1); [apply emits_emit; assumption | intros ?]
  | |- emits (bind (subscript _ _) _) _ =>
      apply emits_bind0; [apply emits_subscript | intros ?]
  | |- emits (bind get_locals _) _ =>
      apply emits_bind0; [apply emits_get_locals | intros ?]
  end.

Lemma list_sum_const {X} (xs : list X) (c : nat) :
  list_sum (map (fun _ => c) xs) = (length xs * c)%nat.
Proof.
  induction xs as [|x r IH]; [reflexivity|]. cbn. f_equal. exact IH.
Qed.

(** ** The triangle: rows and degrees of freedom *)

Lemma triangular_sum (n m : nat) :
  (n <= m)%nat ->
  (list_sum (map (fun k => (m - k) * 2) (seq 0 n)) + n * n = 2 * m * n + n)%nat.
Proof.
  induction n as [|n IH]; intros Hn; [cbn; lia|].
  rewrite seq_S, map_app, list_sum_app. cbn [Nat.add map].
  change (list_sum [((m - n) * 2)%nat]) with ((m - n) * 2 + 0)%nat.
  specialize (IH ltac:(lia)).
  set (s := list_sum _) in *. nia.
Qed.

Lemma inner_pairs_count (oi : Z) :
  list_sum (map (fun i => (length (zrange 0 (oi - 1 - i)) * 2)%nat)
                (zrange 0 (oi - 1)))
  = (Z.to_nat oi * (Z.to_nat oi + 1))%nat.
Proof.
  unfold zrange at 2. rewrite map_map.
  replace (Z.to_nat (oi - 1 - 0 + 1)) with (Z.to_nat oi) by lia.
  rewrite (map_ext_in _ (fun k => ((Z.to_nat oi - k) * 2)%nat)).
  - pose proof (triangular_sum (Z.to_nat oi) (Z.to_nat oi) (Nat.le_refl _)) as E.
    nia.
  - intros k Hk. apply in_seq in Hk. rewrite zrange_length. f_equal. lia.
Qed.

Section TrigRows.

Context {S : Type} `{Scalar S}.
Variable P : Polynomials S.
Variable T : ElementTopology.

Lemma inner_pairs_emits {R} (shape : TrigShape S -> result R) (oi : Z)
  (u v : ArrayMem S 2) :
  total shape ->
  emits (HCurlDivFE_TRIG.inner_pairs shape oi u v)
        (Z.to_nat oi * (Z.to_nat oi + 1)).
Proof.
  intros Ht. unfold HCurlDivFE_TRIG.inner_pairs.
  eapply emits_eq; [|apply (inner_pairs_count oi)].
  apply emits_for. intros i _. apply emits_for_const. intros j _.
  repeat emits_step.
Qed.

Lemma trig_regular_emits {R} (fe : T_HCurlDivFE) (x y : AutoDiffDiff S 2)
  (shape : TrigShape S -> result R) :
  total shape ->
  emits (HCurlDivFE_TRIG.T_CalcShape_regular P T fe x y shape) (trig_rows fe).
Proof.
  intros Ht. unfold HCurlDivFE_TRIG.T_CalcShape_regular, trig_rows.
  apply emits_bind.
  { eapply emits_eq.
    - apply (emits_for _ _ (fun i => Z.to_nat (facet fe i + 1))).
      intros i _.
      destruct (vnum fe (GetEdges_TRIG T i 0) >? vnum fe (GetEdges_TRIG T i 1)).
      + eapply emits_eq; [apply emits_for_const; intros l _; repeat emits_step|].
        rewrite zrange_length. lia.
      + eapply emits_eq; [apply emits_for_const; intros l _; repeat emits_step|].
        rewrite zrange_length. lia.
    - cbn. lia. }
  intros _. apply emits_bind; [now apply inner_pairs_emits|].
  intros _. apply emits_bind; [now apply inner_pairs_emits|].
  intros _. eapply emits_eq.
  - apply emits_for_const. intros i _. repeat emits_step.
  - rewrite zrange_length. lia.
Qed.

Lemma trig_body_emits {R} (fe : T_HCurlDivFE) (x y : AutoDiffDiff S 2)
  (shape : TrigShape S -> result R) :
  total shape -> plus fe = false ->
  emits (HCurlDivFE_TRIG.T_CalcShape_body P T fe x y shape) (trig_rows fe).
Proof.
  intros Ht Hplus. unfold HCurlDivFE_TRIG.T_CalcShape_body. rewrite Hplus.
  eapply emits_eq.
  - apply emits_bind; [now apply trig_regular_emits|]. intros _. apply emits_ret.
  - lia.
Qed.

End TrigRows.

Lemma emits_writes_rows {R L} (m : M R L unit) (n : nat) (l : L) (z : Z) :
  n = Z.to_nat z -> emits m n -> writes_rows (rows_of (m (initial l))) z.
Proof.
  intros -> Hm. destruct (emits_initial m _ l Hm) as (E & W & _).
  split; assumption.
Qed.

Lemma total_Ok {B R} (f : B -> R) : total (fun val => Ok (f val)).
Proof. intros val. now exists (f val). Qed.

Lemma DivShape_TrigShape_total {S} `{Scalar S} :
  total (fun val : TrigShape S => DivShape val).
Proof. intros [b|b|b|b]; eexists; reflexivity. Qed.

Lemma DivShape_TetShape_total {S} `{Scalar S} :
  total (fun val : TetShape S => DivShape val).
Proof. intros [b|b]; eexists; reflexivity. Qed.

Lemma facet_set_ndof_order (fe : T_HCurlDivFE) (n o : Z) (i : nat) :
  facet (set_ndof_order fe n o) i = facet fe i.
Proof. reflexivity. Qed.

(** What [ComputeNDof] of the triangle returns, in closed form. *)
Lemma trig_ComputeNDof_eq (fe : T_HCurlDivFE) :
  HCurlDivFE_TRIG.ComputeNDof fe
  = ([], Ok (set_ndof_order fe
        (0 + (facet fe 0 + 1) + (facet fe 1 + 1) + (facet fe 2 + 1)
         + (if plus fe
            then order_inner fe + 1 + 2 * ((order_inner fe + 1) * order_inner fe)
                 + 2 * order_inner fe
            else order_inner fe + 1 + 2 * ((order_inner fe + 1) * order_inner fe)))
        (if plus fe
         then max2 (max2 (max2 (max2 0 (facet fe 0)) (facet fe 1)) (facet fe 2))
                   (order_inner fe) + 1
         else max2 (max2 (max2 (max2 0 (facet fe 0)) (facet fe 1)) (facet fe 2))
                   (order_inner fe)))).
Proof.
  unfold HCurlDivFE_TRIG.ComputeNDof. cbn [seq fold_left].
  destruct (plus fe); reflexivity.
Qed.

(** [ComputeNDof] and the rows of a triangle without enrichment, for
    all non-negative orders. *)
Lemma trig_rows_ndof {S} `{Scalar S} (P : Polynomials S)
  (T : ElementTopology) (fe : T_HCurlDivFE) :
  0 <= facet fe 0 -> 0 <= facet fe 1 -> 0 <= facet fe 2 ->
  0 <= order_inner fe ->
  plus fe = false ->
  exists fe',
    HCurlDivFE_TRIG.ComputeNDof fe = ([], Ok fe')
    /\ ndof fe' = (facet fe 0 + 1) + (facet fe 1 + 1) + (facet fe 2 + 1)
                  + ((order_inner fe + 1)
                     + 2 * (order_inner fe + 1) * order_inner fe)
    /\ order fe' = Z.max (Z.max (Z.max (facet fe 0) (facet fe 1)) (facet fe 2))
                         (order_inner fe)
    /\ order_facet fe' = order_facet fe
    /\ order_inner fe' = order_inner fe
    /\ plus fe' = false
    /\ (forall R (shape : TrigShape S -> result R) (x y : AutoDiffDiff S 2),
          total shape ->
          writes_rows (rows_of (HCurlDivFE_TRIG.T_CalcShape P T fe' x y shape))
                      (ndof fe')).
Proof.
  intros H0 H1 H2 Hoi Hplus.
  rewrite trig_ComputeNDof_eq, Hplus.
  eexists. split; [reflexivity|].
  set (fe' := set_ndof_order fe _ _).
  assert (Hrows : trig_rows fe' = Z.to_nat (ndof fe')).
  { unfold trig_rows, fe'. rewrite !facet_set_ndof_order.
    cbn [ndof order_inner set_ndof_order]. nia. }
  split; [cbn [ndof fe' set_ndof_order]; lia|].
  split; [cbn [order fe' set_ndof_order]; unfold max2; lia|].
  split; [reflexivity|]. split; [reflexivity|]. split; [exact Hplus|].
  intros R shape x y Ht. apply (emits_writes_rows _ _ _ _ Hrows).
  apply trig_body_emits; [exact Ht | exact Hplus].
Qed.

(** C2: for a triangle with facet orders and interior order in 0..6 and
    without enrichment, [ComputeNDof] sets [ndof] to
    [sum_f (order_facet[f]+1) + (order_inner+1) + 2*(order_inner+1)*order_inner]
    and [order] to the maximum of the facet orders and the interior
    order, and [T_CalcShape], hence [CalcShape] and [CalcDivShape],
    returns normally and writes exactly the rows [0, ..., ndof-1], each
    once and in this order. *)
Theorem trig_ndof_rows_consistent {S} `{Scalar S} (P : Polynomials S)
  (T : ElementTopology) (fe : T_HCurlDivFE) (ip : list S) :
  length (order_facet fe) = 3%nat ->
  Forall (fun p => 0 <= p <= 6) (order_facet fe) ->
  0 <= order_inner fe <= 6 ->
  plus fe = false ->
  exists fe',
    HCurlDivFE_TRIG.ComputeNDof fe = ([], Ok fe')
    /\ ndof fe' = (facet fe 0 + 1) + (facet fe 1 + 1) + (facet fe 2 + 1)
                  + ((order_inner fe + 1)
                     + 2 * (order_inner fe + 1) * order_inner fe)
    /\ order fe' = Z.max (Z.max (Z.max (facet fe 0) (facet fe 1)) (facet fe 2))
                         (order_inner fe)
    /\ (forall R (shape : TrigShape S -> result R) (x y : AutoDiffDiff S 2),
          total shape ->
          writes_rows (rows_of (HCurlDivFE_TRIG.T_CalcShape P T fe' x y shape))
                      (ndof fe'))
    /\ writes_rows (CalcShape (HCurlDivFE_ET_TRIG P T) fe' ip) (ndof fe')
    /\ writes_rows (CalcDivShape (HCurlDivFE_ET_TRIG P T) fe' ip) (ndof fe').
Proof.
  intros Hlen Hfacets Hoi Hplus.
  assert (Hf : forall i, (i < 3)%nat -> 0 <= facet fe i <= 6).
  { intros i Hi. unfold facet. rewrite Forall_forall in Hfacets.
    apply Hfacets, nth_In. lia. }
  destruct (trig_rows_ndof P T fe) as (fe' & E & N & O & _ & _ & _ & Hrun);
    try apply Hf; try lia; try assumption.
  exists fe'. repeat (split; [assumption|]).
  split.
  - apply Hrun, total_Ok.
  - apply Hrun, DivShape_TrigShape_total.
Qed.

(** C2, at an element of orders (1, 2, 0), interior order 3. *)
Lemma trig_ndof_rows_consistent_witness :
  exists fe',
    HCurlDivFE_TRIG.ComputeNDof (trig_fe 1 2 0 3 false) = ([], Ok fe')
    /\ ndof fe' = 2 + 3 + 1 + (4 + 2 * 4 * 3)
    /\ order fe' = 3
    /\ writes_rows
         (CalcShape (HCurlDivFE_ET_TRIG power_polynomials opposite_topology)
                    fe' centroid) (ndof fe')
    /\ writes_rows
         (CalcDivShape (HCurlDivFE_ET_TRIG power_polynomials opposite_topology)
                       fe' centroid) (ndof fe').
Proof.
  destruct (trig_ndof_rows_consistent power_polynomials opposite_topology
              (trig_fe 1 2 0 3 false) centroid)
    as (fe' & E & N & O & _ & W1 & W2).
  - reflexivity.
  - repeat constructor; cbn; lia.
  - cbn; lia.
  - reflexivity.
  - exists fe'. split; [exact E|].
    split; [rewrite N; reflexivity|].
    split; [rewrite O; reflexivity|].
    split; assumption.
Defined.

(** ** The triangle with enrichment *)

Lemma zrange_cons (lo hi : Z) : lo <= hi -> zrange lo hi = lo :: zrange (lo + 1) hi.
Proof.
  intros Hle. unfold zrange.
  replace (Z.to_nat (hi - lo + 1)) with (Datatypes.S (Z.to_nat (hi - (lo + 1) + 1))) by lia.
  cbn [seq map]. f_equal; [lia|].
  rewrite <- seq_shift, map_map. apply map_ext. intros k. lia.
Qed.

Lemma zrange_nil (lo hi : Z) : hi < lo -> zrange lo hi = [].
Proof.
  intros Hlt. unfold zrange. replace (Z.to_nat (hi - lo + 1)) with 0%nat by lia.
  reflexivity.
Qed.

Section TrigOutcome.

Context {S : Type} `{Scalar S}.
Variable P : Polynomials S.
Variable T : ElementTopology.

(** The outcome of [T_CalcShape] on a triangle, for every order
    specification: the regular rows are written, then the first
    enrichment bubble, if there is one, raises. *)
Lemma trig_outcome {R} (fe : T_HCurlDivFE) (x y : AutoDiffDiff S 2)
  (shape : TrigShape S -> result R) :
  total shape ->
  fst (HCurlDivFE_TRIG.T_CalcShape P T fe x y shape)
  = (if plus fe && (1 <=? order_inner fe)
     then Exception "not working yet!" else Ok tt)
  /\ map fst (written (snd (HCurlDivFE_TRIG.T_CalcShape P T fe x y shape)))
     = zseq 0 (trig_rows fe).
Proof.
  intros Ht.
  unfold HCurlDivFE_TRIG.T_CalcShape, HCurlDivFE_TRIG.T_CalcShape_body, bind.
  destruct (trig_regular_emits P T fe x y shape Ht (initial tt))
    as ([] & s1 & E & _ & W).
  rewrite E. cbn in W.
  destruct (plus fe); cbn [andb].
  - destruct (Z.leb_spec 1 (order_inner fe)) as [Hoi|Hoi].
    + rewrite zrange_cons by lia. cbn. auto.
    + rewrite zrange_nil by lia. cbn. auto.
  - cbn. auto.
Qed.

End TrigOutcome.




(** ** The generic bases and the surface block *)

(** C7 (amended): [ComputeNDof] of the generic volume base and of the
    generic surface base prints one line starting with "Error" on
    [cout] and returns normally; the element, [ndof] included, is left
    as it was, and no exception is raised. *)
Theorem generic_ComputeNDof_prints_and_returns (fe : T_HCurlDivFE)
  (sfe : T_HCurlDivSurfaceFE) :
  T_HCurlDivFE_ComputeNDof fe
  = ( [ "Error, T_HCurlDivFE<ET>:: ComputeNDof not available, only for ET == TRIG"%string ],
      Ok fe )
  /\ T_HCurlDivSurfaceFE_ComputeNDof sfe
     = ( [ "Error, T_HCurlDivSurfaceFE<ET>:: ComputeNDof not available for base class"%string ],
         Ok sfe )
  /\ (forall what, snd (T_HCurlDivFE_ComputeNDof fe) <> Exception what)
  /\ (forall what, snd (T_HCurlDivSurfaceFE_ComputeNDof sfe) <> Exception what).
Proof.
  split; [reflexivity|]. split; [reflexivity|].
  split; intros what; cbn; discriminate.
Qed.

(** C7 as stated fails: on an element whose [ndof] is 0 the generic
    [ComputeNDof] returns normally and [ndof] is still 0. *)
Lemma generic_ComputeNDof_returns_normally :
  snd (T_HCurlDivFE_ComputeNDof (T_HCurlDivFE_new ET_TRIG 0 [0; 1; 2] 2 false))
  = Ok (T_HCurlDivFE_new ET_TRIG 0 [0; 1; 2] 2 false)
  /\ ndof (T_HCurlDivFE_new ET_TRIG 0 [0; 1; 2] 2 false) = 0
  /\ snd (T_HCurlDivSurfaceFE_ComputeNDof (mkT_HCurlDivSurfaceFE 0 2 [0; 1; 2] 2))
     = Ok (mkT_HCurlDivSurfaceFE 0 2 [0; 1; 2] 2).
Proof. repeat split. Qed.

(** C6: [DivShape()] of the surface block raises "not available on
    surface" whatever the fields it is built from, and so never returns
    a vector. *)
Theorem surface_DivShape_raises {S} `{Scalar S} (b : T_Dl1_o_Dl2xDl3_v_surf S) :
  DivShape b = Exception "not available on surface"
  /\ (forall d : Vec S, DivShape b <> Ok d)
  /\ T_Dl1_o_Dl2xDl3_v_surf_DivShape b = Exception "not available on surface".
Proof.
  split; [reflexivity|]. split; [|reflexivity].
  intros d. cbn. discriminate.
Qed.

(** ** The rows are what the callback makes of the emitted values *)

Section Tracks.

Context {B R L : Type}.
Variable shape : B -> result R.

Lemma tracks_ret {A} (a : A) : tracks (L:=L) shape (ret a) (ret a).
Proof. intros s1 s2 Hs. auto. Qed.

Lemma tracks_bind {A A'} (m1 : M B L A) (m2 : M R L A)
  (k1 : A -> M B L A') (k2 : A -> M R L A') :
  tracks shape m1 m2 -> (forall a, tracks shape (k1 a) (k2 a)) ->
  tracks shape (bind m1 k1) (bind m2 k2).
Proof.
  intros Hm Hk s1 s2 Hs. unfold bind.
  destruct (Hm s1 s2 Hs) as [E Hs'].
  destruct (m1 s1) as [[a1|w1] s1'], (m2 s2) as [[a2|w2] s2'];
    cbn in E; try discriminate.
  - injection E as ->. apply Hk, Hs'.
  - injection E as ->. cbn. auto.
Qed.

Lemma tracks_for {X} (xs : list X) (b1 : X -> M B L unit) (b2 : X -> M R L unit) :
  (forall x, tracks shape (b1 x) (b2 x)) ->
  tracks shape (for_ xs b1) (for_ xs b2).
Proof.
  intros Hb. induction xs as [|x r IH]; cbn [for_].
  - apply tracks_ret.
  - apply tracks_bind; [apply Hb | intros _; exact IH].
Qed.

Lemma tracks_emit (val : B) :
  total shape -> tracks (L:=L) shape (emit Ok val) (emit shape val).
Proof.
  intros Ht s1 s2 (I & Sb & Lo & W). destruct (Ht val) as [row E].
  unfold emit. rewrite E. cbn. split; [reflexivity|].
  repeat split; cbn; try congruence.
  apply Forall2_app; [exact W|]. constructor; [|constructor].
  split; cbn; [exact I | exact E].
Qed.

Lemma tracks_subscript {S D} (a : ArrayMem S D) (l : Z) :
  tracks (L:=L) shape (subscript a l) (subscript a l).
Proof.
  intros s1 s2 (I & Sb & Lo & W). cbn. split; [reflexivity|].
  repeat split; cbn; congruence.
Qed.

Lemma tracks_throw {A} (what : string) :
  tracks (L:=L) (A:=A) shape (throw what) (throw what).
Proof. intros s1 s2 Hs. auto. Qed.

Lemma tracks_get_locals : tracks (L:=L) shape get_locals get_locals.
Proof.
  intros s1 s2 (I & Sb & Lo & W). cbn. split; [congruence|].
  repeat split; assumption.
Qed.

Lemma tracks_set_locals (l : L) : tracks shape (set_locals l) (set_locals l).
Proof.
  intros s1 s2 (I & Sb & Lo & W). cbn. split; [reflexivity|].
  repeat split; cbn; congruence.
Qed.

Lemma tracks_callback_eval {S D} (n : Z) (value : Z -> AutoDiffDiff S D)
  (c1 : Z -> AutoDiffDiff S D -> M B L unit)
  (c2 : Z -> AutoDiffDiff S D -> M R L unit) :
  (forall k val, tracks shape (c1 k val) (c2 k val)) ->
  tracks shape (callback_eval n value c1) (callback_eval n value c2).
Proof. intros Hc. apply tracks_for. intros k. apply Hc. Qed.

Lemma tracks_initial (m1 : M B L unit) (m2 : M R L unit) (l : L) :
  tracks shape m1 m2 ->
  fst (m1 (initial l)) = fst (m2 (initial l))
  /\ Forall2 (row_of shape) (written (snd (m1 (initial l))))
             (written (snd (m2 (initial l))))
  /\ subscripts (snd (m1 (initial l))) = subscripts (snd (m2 (initial l))).
Proof.
  intros Hm. destruct (Hm (initial l) (initial l)) as (E & I & Sb & Lo & W).
  - repeat split. constructor.
  - auto.
Qed.

End Tracks.

Ltac tracks_step :=
  lazymatch goal with
  | |- tracks _ (bind _ _) (bind _ _) => apply tracks_bind; [|intros ?]
  | |- tracks _ (for_ _ _) (for_ _ _) => apply tracks_for; intros ?
  | |- tracks _ (callback_eval _ _ _) (callback_eval _ _ _) =>
      apply tracks_callback_eval; intros ? ?
  | |- tracks _ (emit _ _) (emit _ _) => apply tracks_emit; assumption
  | |- tracks _ (subscript _ _) (subscript _ _) => apply tracks_subscript
  | |- tracks _ (ret _) (ret _) => apply tracks_ret
  | |- tracks _ (throw _) (throw _) => apply tracks_throw
  | |- tracks _ get_locals get_locals => apply tracks_get_locals
  | |- tracks _ (set_locals _) (set_locals _) => apply tracks_set_locals
  | |- tracks _ (if ?c then _ else _) _ => destruct c
  | |- tracks _ (let _ := _ in _) _ => intros
  | |- tracks _ (let '(_, _) := if ?c then _ else _ in _) _ => destruct c
  | |- tracks _ (let '(_, _) := pair _ _ in _) _ => cbv iota beta
  end.

Section TrigTracks.

Context {S : Type} `{Scalar S}.
Variable P : Polynomials S.
Variable T : ElementTopology.

Lemma trig_body_tracks {R} (fe : T_HCurlDivFE) (x y : AutoDiffDiff S 2)
  (shape : TrigShape S -> result R) :
  total shape ->
  tracks shape (HCurlDivFE_TRIG.T_CalcShape_body P T fe x y Ok)
               (HCurlDivFE_TRIG.T_CalcShape_body P T fe x y shape).
Proof.
  intros Ht.
  unfold HCurlDivFE_TRIG.T_CalcShape_body, HCurlDivFE_TRIG.T_CalcShape_regular,
    HCurlDivFE_TRIG.inner_pairs.
  repeat tracks_step.
Qed.

End TrigTracks.

(** ** The layout of the rows *)

Section EmitsVals.

Context {R L : Type}.

Lemma emits_vals_ret {A} (a : A) : emits_vals (ret (R:=R) (L:=L) a) [].
Proof.
  intros s. exists a, s. cbn. rewrite app_nil_r. repeat split; lia.
Qed.

Lemma emits_vals_bind {A B} (m : M R L A) (k : A -> M R L B) (v1 v2 : list R) :
  emits_vals m v1 -> (forall a, emits_vals (k a) v2) ->
  emits_vals (bind m k) (v1 ++ v2).
Proof.
  intros Hm Hk s.
  destruct (Hm s) as (a & s1 & E1 & I1 & W1).
  destruct (Hk a s1) as (b & s2 & E2 & I2 & W2).
  exists b, s2. unfold bind. rewrite E1, E2. repeat split.
  - rewrite length_app. lia.
  - rewrite W2, W1, app_assoc. reflexivity.
Qed.

Lemma emits_vals_bind0 {A B} (m : M R L A) (k : A -> M R L B) (v : list R) :
  emits_vals m [] -> (forall a, emits_vals (k a) v) -> emits_vals (bind m k) v.
Proof. intros Hm Hk. apply (emits_vals_bind m k [] v Hm Hk). Qed.

Lemma emits_vals_emit {B} (shape : B -> result R) (val : B) (row : R) :
  shape val = Ok row -> emits_vals (emit (L:=L) shape val) [row].
Proof.
  intros E s. unfold emit. rewrite E. eexists tt, _. split; [reflexivity|].
  cbn. split; [lia|]. rewrite map_app. reflexivity.
Qed.

Lemma emits_vals_subscript {S D} (a : ArrayMem S D) (l : Z) :
  emits_vals (subscript (R:=R) (L:=L) a l) [].
Proof.
  intros s. eexists _, _. split; [reflexivity|]. cbn.
  rewrite app_nil_r. split; [lia|reflexivity].
Qed.

Lemma emits_vals_for {X} (xs : list X) (body : X -> M R L unit)
  (f : X -> list R) :
  (forall x, emits_vals (body x) (f x)) ->
  emits_vals (for_ xs body) (flat_map f xs).
Proof.
  intros Hb. induction xs as [|x r IH]; cbn [for_ flat_map].
  - apply emits_vals_ret.
  - apply emits_vals_bind; [apply Hb | intros _; exact IH].
Qed.

Lemma emits_vals_initial (m : M R L unit) (vals : list R) (l : L) :
  emits_vals m vals ->
  fst (m (initial l)) = Ok tt /\ map snd (written (snd (m (initial l)))) = vals.
Proof.
  intros Hm. destruct (Hm (initial l)) as ([] & s' & E & _ & W).
  rewrite E. cbn in *. auto.
Qed.

End EmitsVals.

Section TrigLayout.

Context {S : Type} `{Scalar S}.
Variable P : Polynomials S.
Variable T : ElementTopology.

Lemma inner_pairs_layout (oi : Z) (u v : ArrayMem S 2) :
  emits_vals (L:=unit) (HCurlDivFE_TRIG.inner_pairs record_family oi u v)
             (trig_pairs_layout oi).
Proof.
  unfold HCurlDivFE_TRIG.inner_pairs, trig_pairs_layout.
  apply emits_vals_for. intros i. apply emits_vals_for. intros j.
  apply emits_vals_bind0; [apply emits_vals_subscript|]. intros ui.
  apply emits_vals_bind0; [apply emits_vals_subscript|]. intros vj.
  apply (emits_vals_bind _ _ [Family_Sigma_gradu_v] [Family_Curlgraduv_graducurlv]);
    [now apply emits_vals_emit|]. intros _.
  apply emits_vals_bind0; [apply emits_vals_subscript|]. intros ui'.
  apply emits_vals_bind0; [apply emits_vals_subscript|]. intros vj'.
  now apply emits_vals_emit.
Qed.

Lemma trig_regular_layout (fe : T_HCurlDivFE) (x y : AutoDiffDiff S 2) :
  emits_vals (HCurlDivFE_TRIG.T_CalcShape_regular P T fe x y record_family)
             (trig_layout fe).
Proof.
  unfold HCurlDivFE_TRIG.T_CalcShape_regular, trig_layout.
  apply emits_vals_bind.
  { apply emits_vals_for. intros i.
    destruct (vnum fe (GetEdges_TRIG T i 0) >? vnum fe (GetEdges_TRIG T i 1));
      apply emits_vals_for; intros l;
      (apply emits_vals_bind0; [apply emits_vals_subscript|]); intros hl;
      now apply emits_vals_emit. }
  intros _. apply emits_vals_bind; [apply inner_pairs_layout|].
  intros _. apply emits_vals_bind; [apply inner_pairs_layout|].
  intros _. apply emits_vals_for. intros i.
  apply emits_vals_bind0; [apply emits_vals_subscript|]. intros vi.
  now apply emits_vals_emit.
Qed.


End TrigLayout.

(** ** Rows and their sizes *)

Lemma Shape_TrigShape_length {S} `{Scalar S} (val : TrigShape S) :
  length (Shape val) = 4%nat.
Proof. destruct val; reflexivity. Qed.


Lemma DivShape_TrigShape_length {S} `{Scalar S} (val : TrigShape S) (d : Vec S) :
  DivShape val = Ok d -> length d = 2%nat.
Proof. destruct val; cbn; intros E; injection E as <-; reflexivity. Qed.

(** The three families declared div-free return the zero vector. *)
Lemma div_free_families {S} `{Scalar S} (val : TrigShape S) :
  family_of val <> Family_Curlgraduv_graducurlv ->
  DivShape val = Ok [0%s; 0%s].
Proof. destruct val; cbn; intros Hf; [reflexivity..|contradiction|reflexivity]. Qed.

Lemma Forall2_row_of_fst {B R} (shape : B -> result R) (l1 : list (Z * B))
  (l2 : list (Z * R)) :
  Forall2 (row_of shape) l1 l2 -> map fst l1 = map fst l2.
Proof.
  induction 1 as [|p q l1 l2 [E _] _ IH]; [reflexivity|].
  cbn. now rewrite E, IH.
Qed.


(** ** The scenario of orders (1, 1, 1), interior order 1 *)





(** ** The tetrahedron: rows and degrees of freedom *)

Section TetRows.

Context {S : Type} `{Scalar S}.
Variable P : Polynomials S.
Variable T : ElementTopology.

Lemma emits_get_jac1 {R} : emits (HCurlDivFE_TET.get_jac1 (R:=R)) 0.
Proof. unfold HCurlDivFE_TET.get_jac1. repeat emits_step. Qed.

Lemma emits_get_jac2 {R} : emits (HCurlDivFE_TET.get_jac2 (R:=R)) 0.
Proof. unfold HCurlDivFE_TET.get_jac2. repeat emits_step. Qed.

Lemma emits_set_jac2 {R} (a : Z) : emits (HCurlDivFE_TET.set_jac2 (R:=R) a) 0.
Proof. unfold HCurlDivFE_TET.set_jac2. repeat emits_step. Qed.

Lemma emits_jac1_IncAlpha2 {R} : emits (HCurlDivFE_TET.jac1_IncAlpha2 (R:=R)) 0.
Proof. unfold HCurlDivFE_TET.jac1_IncAlpha2. repeat emits_step. Qed.

Lemma emits_jac2_IncAlpha2 {R} : emits (HCurlDivFE_TET.jac2_IncAlpha2 (R:=R)) 0.
Proof. unfold HCurlDivFE_TET.jac2_IncAlpha2. repeat emits_step. Qed.

Lemma interior_emits {R} (n : Z) (ls le lt lo : AutoDiffDiff S 3)
  (inner : AutoDiffDiff S 3 -> M R JacobiLocals unit) (c : nat) :
  (forall val, emits (inner val) c) ->
  emits (HCurlDivFE_TET.interior P n ls le lt lo inner) (tet_interior_count n c).
Proof.
  intros Hinner. unfold HCurlDivFE_TET.interior, tet_interior_count.
  apply emits_callback_eval. intros k _.
  apply emits_bind0; [apply emits_set_jac2 | intros _].
  apply emits_bind0; [apply emits_get_jac1 | intros a1].
  eapply emits_eq;
    [eapply (emits_bind _ _ _ 0); [|intros _; apply emits_jac1_IncAlpha2]
    |apply Nat.add_0_r].
  apply emits_callback_eval. intros j _.
  apply emits_bind0; [apply emits_get_jac2 | intros a2].
  eapply emits_eq;
    [eapply (emits_bind _ _ _ 0); [|intros _; apply emits_jac2_IncAlpha2]|].
  - apply (emits_callback_eval _ _ _ (fun _ => c)). intros l _. apply Hinner.
  - rewrite Nat.add_0_r. apply list_sum_const.
Qed.

Lemma tet_body_emits {R} (fe : T_HCurlDivFE) (x y z : AutoDiffDiff S 3)
  (shape : TetShape S -> result R) :
  total shape ->
  emits (HCurlDivFE_TET.T_CalcShape_body P T fe x y z shape) (tet_rows fe).
Proof.
  intros Ht. unfold HCurlDivFE_TET.T_CalcShape_body, tet_rows.
  apply emits_bind.
  { apply emits_for. intros fa _.
    destruct (vnum fe (GetFaces_TET T fa 0) >? vnum fe (GetFaces_TET T fa 1));
      match goal with
      | |- context [if ?c then _ else _] => destruct c
      end;
      match goal with
      | |- context [if ?c then _ else _] => destruct c
      end;
      apply emits_for_const; intros l _; repeat emits_step. }
  intros _. apply emits_bind.
  - apply interior_emits. intros val. repeat emits_step.
  - intros _. apply interior_emits. intros val. repeat emits_step.
Qed.

End TetRows.

Lemma range_0_6 (p : Z) :
  0 <= p <= 6 -> p = 0 \/ p = 1 \/ p = 2 \/ p = 3 \/ p = 4 \/ p = 5 \/ p = 6.
Proof. lia. Qed.

Ltac cases_0_6 H :=
  apply range_0_6 in H;
  destruct H as [H|[H|[H|[H|[H|[H|H]]]]]]; rewrite H.

(** The [double] loop bound of a face of order [p] lets
    [(p+1)(p+2)/2] modes through. *)
Lemma face_modes (p : Z) :
  0 <= p <= 6 ->
  below_double (face_bound p) = zrange 0 ((p + 1) * (p + 2) / 2 - 1)
  /\ (length (below_double (face_bound p)) * 2)%nat = Z.to_nat ((p + 1) * (p + 2)).
Proof. intros Hp. cases_0_6 Hp; vm_compute; split; reflexivity. Qed.

(** [ninner] of the tetrahedron, computed in [double] and truncated,
    is the exact count [C(oi+3,3) + (8/6)(oi+2)(oi+1)oi]. *)
Lemma tet_ninner_exact (oi : Z) :
  0 <= oi <= 6 ->
  HCurlDivFE_TET.ninner oi
  = (oi + 1) * (oi + 2) * (oi + 3) / 6 + 8 * ((oi + 2) * (oi + 1) * oi) / 6
  /\ 6 * HCurlDivFE_TET.ninner oi
     = (oi + 1) * (oi + 2) * (oi + 3) + 8 * ((oi + 2) * (oi + 1) * oi)
  /\ (tet_interior_count oi 1 + tet_interior_count (oi - 1) 8)%nat
     = Z.to_nat (HCurlDivFE_TET.ninner oi).
Proof. intros Hoi. cases_0_6 Hoi; vm_compute; repeat split; reflexivity. Qed.

Lemma tet_ComputeNDof_eq (fe : T_HCurlDivFE) :
  HCurlDivFE_TET.ComputeNDof fe
  = ([], Ok (set_ndof_order fe
        (0 + (facet fe 0 + 1) * (facet fe 0 + 2) + (facet fe 1 + 1) * (facet fe 1 + 2)
         + (facet fe 2 + 1) * (facet fe 2 + 2) + (facet fe 3 + 1) * (facet fe 3 + 2)
         + HCurlDivFE_TET.ninner (order_inner fe))
        (max2 (max2 (max2 (max2 (max2 0 (facet fe 0)) (facet fe 1)) (facet fe 2))
                    (facet fe 3))
              (order_inner fe)))).
Proof. reflexivity. Qed.

(** C3: for a tetrahedron with facet orders and interior order in 0..6,
    [ComputeNDof] sets [ndof] to
    [sum_f (order_facet[f]+1)(order_facet[f]+2) + C(order_inner+3,3)
     + (8/6)(order_inner+2)(order_inner+1)order_inner]; neither
    [ComputeNDof] nor [T_CalcShape] looks at [plus], which changes
    nothing and raises nothing; and [T_CalcShape], hence [CalcShape] and
    [CalcDivShape], returns normally and writes exactly the rows
    [0, ..., ndof-1]. *)
Theorem tet_ndof_rows_consistent {S} `{Scalar S} (P : Polynomials S)
  (T : ElementTopology) (fe : T_HCurlDivFE) (ip : list S) :
  length (order_facet fe) = 4%nat ->
  Forall (fun p => 0 <= p <= 6) (order_facet fe) ->
  0 <= order_inner fe <= 6 ->
  exists fe',
    HCurlDivFE_TET.ComputeNDof fe = ([], Ok fe')
    /\ ndof fe'
       = (facet fe 0 + 1) * (facet fe 0 + 2) + (facet fe 1 + 1) * (facet fe 1 + 2)
         + (facet fe 2 + 1) * (facet fe 2 + 2) + (facet fe 3 + 1) * (facet fe 3 + 2)
         + ((order_inner fe + 1) * (order_inner fe + 2) * (order_inner fe + 3) / 6
            + 8 * ((order_inner fe + 2) * (order_inner fe + 1) * order_inner fe) / 6)
    /\ ((order_inner fe + 1) * (order_inner fe + 2) * (order_inner fe + 3)) mod 6 = 0
    /\ (8 * ((order_inner fe + 2) * (order_inner fe + 1) * order_inner fe)) mod 6 = 0
    /\ (forall b, HCurlDivFE_TET.ComputeNDof (with_plus fe b)
                  = ([], Ok (with_plus fe' b)))
    /\ (forall b R (shape : TetShape S -> result R) (x y z : AutoDiffDiff S 3),
          HCurlDivFE_TET.T_CalcShape P T (with_plus fe' b) x y z shape
          = HCurlDivFE_TET.T_CalcShape P T fe' x y z shape)
    /\ (forall R (shape : TetShape S -> result R) (x y z : AutoDiffDiff S 3),
          total shape ->
          writes_rows (rows_of (HCurlDivFE_TET.T_CalcShape P T fe' x y z shape))
                      (ndof fe'))
    /\ writes_rows (CalcShape (HCurlDivFE_ET_TET P T) fe' ip) (ndof fe')
    /\ writes_rows (CalcDivShape (HCurlDivFE_ET_TET P T) fe' ip) (ndof fe').
Proof.
  intros Hlen Hfacets Hoi.
  assert (Hf : forall i, (i < 4)%nat -> 0 <= facet fe i <= 6).
  { intros i Hi. unfold facet. rewrite Forall_forall in Hfacets.
    apply Hfacets, nth_In. lia. }
  pose proof (Hf 0%nat ltac:(lia)) as H0.
  pose proof (Hf 1%nat ltac:(lia)) as H1.
  pose proof (Hf 2%nat ltac:(lia)) as H2.
  pose proof (Hf 3%nat ltac:(lia)) as H3.
  destruct (tet_ninner_exact _ Hoi) as (Hn & Hn6 & Hcount).
  rewrite tet_ComputeNDof_eq.
  eexists. split; [reflexivity|].
  set (fe' := set_ndof_order fe _ _).
  assert (Hrows : tet_rows fe' = Z.to_nat (ndof fe')).
  { unfold tet_rows, fe'. cbn [seq map list_sum]. rewrite !facet_set_ndof_order.
    cbn [ndof order_inner set_ndof_order].
    rewrite Hcount.
    rewrite (proj2 (face_modes _ H0)), (proj2 (face_modes _ H1)),
      (proj2 (face_modes _ H2)), (proj2 (face_modes _ H3)).
    assert (0 <= HCurlDivFE_TET.ninner (order_inner fe)) by nia.
    cbn [list_sum fold_right]. nia. }
  assert (Hrun : forall R (shape : TetShape S -> result R) x y z,
             total shape ->
             writes_rows (rows_of (HCurlDivFE_TET.T_CalcShape P T fe' x y z shape))
                         (ndof fe')).
  { intros R shape x y z Ht. apply (emits_writes_rows _ _ _ _ Hrows).
    apply tet_body_emits, Ht. }
  split; [cbn [ndof fe' set_ndof_order]; rewrite Hn; lia|].
  split; [clear - Hoi; cases_0_6 Hoi; reflexivity|].
  split; [clear - Hoi; cases_0_6 Hoi; reflexivity|].
  split; [intros b; reflexivity|].
  split; [intros b R shape x y z; reflexivity|].
  split; [exact Hrun|].
  split.
  - apply Hrun, total_Ok.
  - apply Hrun, DivShape_TetShape_total.
Qed.

(** C3, at a tetrahedron of face orders (1, 0, 2, 2), interior order 2. *)
Lemma tet_ndof_rows_consistent_witness :
  exists fe',
    HCurlDivFE_TET.ComputeNDof (tet_fe 1 0 2 2 2 true) = ([], Ok fe')
    /\ ndof fe' = 6 + 2 + 12 + 12 + (10 + 32)
    /\ writes_rows
         (CalcShape (HCurlDivFE_ET_TET power_polynomials opposite_topology)
                    fe' [1 # 4; 1 # 4; 1 # 4]%Q) (ndof fe')
    /\ writes_rows
         (CalcDivShape (HCurlDivFE_ET_TET power_polynomials opposite_topology)
                       fe' [1 # 4; 1 # 4; 1 # 4]%Q) (ndof fe').
Proof.
  destruct (tet_ndof_rows_consistent power_polynomials opposite_topology
              (tet_fe 1 0 2 2 2 true) [1 # 4; 1 # 4; 1 # 4]%Q)
    as (fe' & E & N & _ & _ & _ & _ & _ & W1 & W2).
  - reflexivity.
  - repeat constructor; cbn; lia.
  - cbn; lia.
  - exists fe'. split; [exact E|].
    split; [rewrite N; reflexivity|].
    split; assumption.
Defined.

Section TetTracks.

Context {S : Type} `{Scalar S}.
Variable P : Polynomials S.
Variable T : ElementTopology.

Lemma tet_body_tracks {R} (fe : T_HCurlDivFE) (x y z : AutoDiffDiff S 3)
  (shape : TetShape S -> result R) :
  total shape ->
  tracks shape (HCurlDivFE_TET.T_CalcShape_body P T fe x y z Ok)
               (HCurlDivFE_TET.T_CalcShape_body P T fe x y z shape).
Proof.
  intros Ht.
  unfold HCurlDivFE_TET.T_CalcShape_body, HCurlDivFE_TET.interior,
    HCurlDivFE_TET.set_jac2, HCurlDivFE_TET.get_jac1, HCurlDivFE_TET.get_jac2,
    HCurlDivFE_TET.jac1_IncAlpha2, HCurlDivFE_TET.jac2_IncAlpha2.
  repeat tracks_step.
Qed.

End TetTracks.

(** ** The subscripts of the face loop *)

Section Logs.

Context {R L : Type}.

Lemma logs_ret {A} (a : A) : logs (ret (R:=R) (L:=L) a) [].
Proof. intros s. exists a, s. cbn. now rewrite app_nil_r. Qed.

Lemma logs_bind {A B} (m : M R L A) (k : A -> M R L B) (l1 l2 : list (Z * Z)) :
  logs m l1 -> (forall a, logs (k a) l2) -> logs (bind m k) (l1 ++ l2).
Proof.
  intros Hm Hk s.
  destruct (Hm s) as (a & s1 & E1 & S1).
  destruct (Hk a s1) as (b & s2 & E2 & S2).
  exists b, s2. unfold bind. rewrite E1, E2. split; [reflexivity|].
  now rewrite S2, S1, app_assoc.
Qed.

Lemma logs_bind_nil {A B} (m : M R L A) (k : A -> M R L B) (l : list (Z * Z)) :
  logs m [] -> (forall a, logs (k a) l) -> logs (bind m k) l.
Proof. intros Hm Hk. apply (logs_bind m k [] l Hm Hk). Qed.

Lemma logs_emit {B} (shape : B -> result R) (val : B) :
  total shape -> logs (emit (L:=L) shape val) [].
Proof.
  intros Ht s. destruct (Ht val) as [row E]. unfold emit. rewrite E.
  eexists tt, _. split; [reflexivity|]. cbn. now rewrite app_nil_r.
Qed.

Lemma logs_subscript {S D} (a : ArrayMem S D) (l : Z) :
  logs (subscript (R:=R) (L:=L) a l) [(l, Size a)].
Proof. intros s. eexists _, _. split; reflexivity. Qed.

Lemma logs_get_locals : logs (get_locals (R:=R) (L:=L)) [].
Proof.
  intros s. eexists _, _. split; [reflexivity|]. cbn. now rewrite app_nil_r.
Qed.

Lemma logs_set_locals (l : L) : logs (set_locals (R:=R) l) [].
Proof.
  intros s. eexists _, _. split; [reflexivity|]. cbn. now rewrite app_nil_r.
Qed.

Lemma logs_for {X} (xs : list X) (body : X -> M R L unit)
  (f : X -> list (Z * Z)) :
  (forall x, logs (body x) (f x)) -> logs (for_ xs body) (flat_map f xs).
Proof.
  intros Hb. induction xs as [|x r IH]; cbn [for_ flat_map].
  - apply logs_ret.
  - apply logs_bind; [apply Hb | intros _; exact IH].
Qed.

Lemma logs_for_nil {X} (xs : list X) (body : X -> M R L unit) :
  (forall x, logs (body x) []) -> logs (for_ xs body) [].
Proof.
  intros Hb. induction xs as [|x r IH]; cbn [for_].
  - apply logs_ret.
  - apply logs_bind_nil; [apply Hb | intros _; exact IH].
Qed.

End Logs.

(** A computation without subscripts. *)
Ltac logs_nil_step :=
  lazymatch goal with
  | |- logs (ret _) [] => apply logs_ret
  | |- logs get_locals [] => apply logs_get_locals
  | |- logs (set_locals _) [] => apply logs_set_locals
  | |- logs (emit _ _) [] => apply logs_emit; assumption
  | |- logs (bind _ _) [] => apply logs_bind_nil; [|intros ?]
  | |- logs (for_ _ _) [] => apply logs_for_nil; intros ?
  | |- logs (callback_eval _ _ _) [] =>
      unfold callback_eval; apply logs_for_nil; intros ?
  end.

Section TetLogs.

Context {S : Type} `{Scalar S}.
Variable P : Polynomials S.
Variable T : ElementTopology.

Lemma interior_logs {R} (n : Z) (ls le lt lo : AutoDiffDiff S 3)
  (inner : AutoDiffDiff S 3 -> M R JacobiLocals unit) :
  (forall val, logs (inner val) []) ->
  logs (HCurlDivFE_TET.interior P n ls le lt lo inner) [].
Proof.
  intros Hinner.
  unfold HCurlDivFE_TET.interior, HCurlDivFE_TET.set_jac2,
    HCurlDivFE_TET.get_jac1, HCurlDivFE_TET.get_jac2,
    HCurlDivFE_TET.jac1_IncAlpha2, HCurlDivFE_TET.jac2_IncAlpha2.
  repeat first [apply Hinner | logs_nil_step].
Qed.

Lemma tet_body_logs {R} (fe : T_HCurlDivFE) (x y z : AutoDiffDiff S 3)
  (shape : TetShape S -> result R) :
  total shape ->
  logs (HCurlDivFE_TET.T_CalcShape_body P T fe x y z shape) (tet_subscripts fe).
Proof.
  intros Ht. unfold HCurlDivFE_TET.T_CalcShape_body, tet_subscripts.
  rewrite <- (app_nil_r (flat_map _ (seq 0 4))).
  apply logs_bind.
  { apply logs_for. intros fa.
    destruct (vnum fe (GetFaces_TET T fa 0) >? vnum fe (GetFaces_TET T fa 1));
      match goal with
      | |- context [if ?c then _ else _] => destruct c
      end;
      match goal with
      | |- context [if ?c then _ else _] => destruct c
      end;
      apply logs_for; intros l;
      (apply (logs_bind _ _ [_] [_]);
       [ apply logs_subscript
       | intros h; apply logs_bind_nil;
         [ apply logs_emit; exact Ht
         | intros _; apply (logs_bind _ _ [_] []);
           [ apply logs_subscript | intros h'; apply logs_emit; exact Ht ] ] ]). }
  intros _. apply logs_bind_nil.
  - apply interior_logs. intros val. now apply logs_emit.
  - intros _. apply interior_logs. intros val. repeat logs_nil_step.
Qed.

End TetLogs.

Lemma face_bound_size (m : Z) :
  0 <= m <= 6 -> int_of_double (face_bound m) = (m + 1) * (m + 2) / 2.
Proof. intros Hm. cases_0_6 Hm; reflexivity. Qed.

(** For orders in 0..6, the modes read by a face of order [p] lie
    within an array sized for the order [m] exactly when [p <= m]. *)
Lemma face_reads_in_range (p m : Z) :
  0 <= p <= 6 -> 0 <= m <= 6 ->
  forallb in_range
    (flat_map (fun l => [(l, int_of_double (face_bound m));
                         (l, int_of_double (face_bound m))])
              (below_double (face_bound p))) = true
  <-> p <= m.
Proof.
  intros Hp Hm.
  cases_0_6 Hp; cases_0_6 Hm; vm_compute;
    (split;
     [ intros E F; first [discriminate E | discriminate F]
     | intros E; first [reflexivity | exfalso; apply E; reflexivity] ]).
Qed.

(** The face loop of the tetrahedron stays within [ha] exactly when
    face 3 is of no higher order than the faces 0, 1 and 2. *)
Lemma tet_subscripts_in_range_iff {S} `{Scalar S} (P : Polynomials S)
  (T : ElementTopology) {R} (fe : T_HCurlDivFE) (x y z : AutoDiffDiff S 3)
  (shape : TetShape S -> result R) :
  total shape ->
  (forall i, (i < 4)%nat -> 0 <= facet fe i <= 6) ->
  forallb in_range
    (subscripts (snd (HCurlDivFE_TET.T_CalcShape P T fe x y z shape))) = true
  <-> facet fe 3 <= max2 (facet fe 0) (max2 (facet fe 1) (facet fe 2)).
Proof.
  intros Ht Hf.
  pose proof (Hf 0%nat ltac:(lia)) as H0.
  pose proof (Hf 1%nat ltac:(lia)) as H1.
  pose proof (Hf 2%nat ltac:(lia)) as H2.
  pose proof (Hf 3%nat ltac:(lia)) as H3.
  unfold HCurlDivFE_TET.T_CalcShape.
  destruct (tet_body_logs P T fe x y z shape Ht (initial (mkJacobiLocals 1 0)))
    as (a & s' & E & Sb).
  rewrite E. cbn [snd]. rewrite Sb. cbn [subscripts initial app].
  unfold tet_subscripts, tet_ha_size. cbn [seq flat_map].
  rewrite app_nil_r, !forallb_app, !andb_true_iff.
  set (m := max2 (facet fe 0) (max2 (facet fe 1) (facet fe 2))).
  assert (Hm : 0 <= m <= 6) by (unfold m, max2; lia).
  rewrite !(face_reads_in_range _ m) by assumption.
  unfold m, max2. lia.
Qed.

(** C8 fails on the code: with face orders (0, 0, 0, 1), reached by
    [SetOrderFacet(3, 1)] on an element of order 0, the Dubiner basis is
    evaluated up to [maxorder_facet = 0], the maximum over the faces 0,
    1 and 2 only, and [ha] has one entry; face 3, of order 1, reads
    [ha[1]] and [ha[2]], twice each, beyond the basis evaluated and
    beyond the array. *)
Theorem tet_face3_reads_beyond_ha :
  let fe := SetOrderFacet (T_HCurlDivFE_new ET_TET 0 [0; 1; 2; 3] 0 false) 3 1 in
  let r := HCurlDivFE_TET.T_CalcShape power_polynomials opposite_topology fe
             (ADD_var 3 (1 # 4)%Q 0) (ADD_var 3 (1 # 4)%Q 1) (ADD_var 3 (1 # 4)%Q 2)
             (fun val => Ok (Shape val)) in
  order_facet fe = [0; 0; 0; 1]
  /\ max2 (facet fe 0) (max2 (facet fe 1) (facet fe 2)) = 0
  /\ facet fe 3 = 1
  /\ tet_ha_size fe = 1
  /\ fst r = Ok tt
  /\ subscripts (snd r)
     = [ (0, 1); (0, 1); (0, 1); (0, 1); (0, 1); (0, 1);
         (0, 1); (0, 1); (1, 1); (1, 1); (2, 1); (2, 1) ]
  /\ filter (fun a => negb (in_range a)) (subscripts (snd r))
     = [ (1, 1); (1, 1); (2, 1); (2, 1) ].
Proof. vm_compute. repeat split; reflexivity. Qed.

(** ** Mapped evaluation *)

Lemma nth_tab2_zero {S} `{Scalar S} (D n : nat) :
  nth n (tab2 D (fun _ _ => 0%s)) 0%s = 0%s.
Proof.
  destruct (nth_in_or_default n (tab2 D (fun _ _ => 0%s)) 0%s) as [Hin|E];
    [|exact E].
  unfold tab2, tab in Hin. apply in_flat_map in Hin.
  destruct Hin as (i & _ & Hin). apply in_map_iff in Hin.
  destruct Hin as (j & E & _). symmetry. exact E.
Qed.

(** The coordinates handed to [T_CalcShape] by the mapped evaluations
    have no second derivative. *)
Lemma mapped_point_DDValue {S} `{Scalar S} (D : nat)
  (mip : MappedIntegrationPoint S) (k i j : nat) :
  DDValue (coord (mapped_point D mip) k) i j = 0%s.
Proof.
  unfold coord, DDValue.
  set (a := nth k (mapped_point D mip) (ADD_const D 0%s)).
  assert (Ha : ddval a = tab2 D (fun _ _ => 0%s)).
  { destruct (nth_in_or_default k (mapped_point D mip) (ADD_const D 0%s))
      as [Hin|E]; fold a in Hin || fold a in E.
    - unfold mapped_point in Hin. apply in_map_iff in Hin.
      destruct Hin as (b & <- & _). reflexivity.
    - rewrite E. reflexivity. }
  rewrite Ha. apply nth_tab2_zero.
Qed.

Lemma mapped_point_ext {S} `{Scalar S} (D : nat)
  (mip1 mip2 : MappedIntegrationPoint S) :
  mip_point mip1 = mip_point mip2 ->
  mip_jacobian_rows mip1 = mip_jacobian_rows mip2 ->
  mapped_point D mip1 = mapped_point D mip2.
Proof.
  intros Ep Ej. unfold mapped_point, mip_to_AutoDiff. now rewrite Ep, Ej.
Qed.

Lemma tet_outcome {S} `{Scalar S} (P : Polynomials S) (T : ElementTopology) {R}
  (fe : T_HCurlDivFE) (x y z : AutoDiffDiff S 3) (shape : TetShape S -> result R) :
  total shape ->
  fst (HCurlDivFE_TET.T_CalcShape P T fe x y z shape) = Ok tt.
Proof.
  intros Ht. unfold HCurlDivFE_TET.T_CalcShape.
  apply (emits_initial _ _ _ (tet_body_emits P T fe x y z shape Ht)).
Qed.

(** C10: [CalcMappedShape] of a volume element reads a mapped point
    through its point and its Jacobian data only: the coordinates it
    builds have zero second derivatives, two mapped points that agree on
    point and Jacobian data give the same rows and the same outcome
    whatever their curved flags and second derivatives, and the outcome
    is never the "not implemented yet!" of curved elements, which
    [CalcMappedDivShape] raises on every curved element. *)
Theorem CalcMappedShape_ignores_curvature {S} `{Scalar S} (P : Polynomials S)
  (T : ElementTopology) (C : HCurlDivFE S) (fe : T_HCurlDivFE)
  (mip1 mip2 : MappedIntegrationPoint S) :
  mip_point mip1 = mip_point mip2 ->
  mip_jacobian_rows mip1 = mip_jacobian_rows mip2 ->
  CalcMappedShape C fe mip1 = CalcMappedShape C fe mip2
  /\ (forall D k i j, DDValue (coord (mapped_point D mip1) k) i j = 0%s)
  /\ fst (CalcMappedShape (HCurlDivFE_ET_TRIG P T) fe mip1)
     = (if plus fe && (1 <=? order_inner fe)
        then Exception "not working yet!" else Ok tt)
  /\ fst (CalcMappedShape (HCurlDivFE_ET_TRIG P T) fe mip1)
     <> Exception "not implemented yet!"
  /\ fst (CalcMappedShape (HCurlDivFE_ET_TET P T) fe mip1) = Ok tt
  /\ (IsCurvedElement mip1 = true ->
      CalcMappedDivShape C fe mip1 = (Exception "not implemented yet!", [])).
Proof.
  intros Ep Ej.
  split.
  { unfold CalcMappedShape. now rewrite (mapped_point_ext _ mip1 mip2 Ep Ej). }
  split; [intros D k i j; apply mapped_point_DDValue|].
  assert (Etrig : fst (CalcMappedShape (HCurlDivFE_ET_TRIG P T) fe mip1)
                  = (if plus fe && (1 <=? order_inner fe)
                     then Exception "not working yet!" else Ok tt)).
  { unfold CalcMappedShape, rows_of. cbn [fst].
    apply (trig_outcome P T fe _ _ _ (total_Ok _)). }
  split; [exact Etrig|].
  split.
  { rewrite Etrig. destruct (plus fe && (1 <=? order_inner fe)); discriminate. }
  split.
  { unfold CalcMappedShape, rows_of. cbn [fst].
    apply (tet_outcome P T fe _ _ _ _ (total_Ok _)). }
  intros Hc. unfold CalcMappedDivShape. rewrite Hc. reflexivity.
Qed.

(** C10, at an affine and a curved mapped point over the centroid. *)
Lemma CalcMappedShape_ignores_curvature_witness :
  IsCurvedElement affine_mip <> IsCurvedElement curved_mip
  /\ mip_hesse affine_mip <> mip_hesse curved_mip
  /\ CalcMappedShape (HCurlDivFE_ET_TRIG power_polynomials opposite_topology)
                     (trig_fe 2 1 1 2 false) affine_mip
     = CalcMappedShape (HCurlDivFE_ET_TRIG power_polynomials opposite_topology)
                       (trig_fe 2 1 1 2 false) curved_mip
  /\ fst (CalcMappedDivShape (HCurlDivFE_ET_TRIG power_polynomials opposite_topology)
                             (trig_fe 2 1 1 2 false) affine_mip) = Ok tt
  /\ CalcMappedDivShape (HCurlDivFE_ET_TRIG power_polynomials opposite_topology)
                        (trig_fe 2 1 1 2 false) curved_mip
     = (Exception "not implemented yet!", []).
Proof.
  destruct (CalcMappedShape_ignores_curvature power_polynomials opposite_topology
              (HCurlDivFE_ET_TRIG power_polynomials opposite_topology)
              (trig_fe 2 1 1 2 false) affine_mip curved_mip eq_refl eq_refl)
    as (Esame & _).
  destruct (CalcMappedShape_ignores_curvature power_polynomials opposite_topology
              (HCurlDivFE_ET_TRIG power_polynomials opposite_topology)
              (trig_fe 2 1 1 2 false) curved_mip affine_mip eq_refl eq_refl)
    as (_ & _ & _ & _ & _ & Hcurved).
  split; [discriminate|]. split; [discriminate|].
  split; [exact Esame|].
  split; [vm_compute; reflexivity|].
  exact (Hcurved eq_refl).
Defined.



(** ** Polynomial fields: derivatives *)

(** The derivatives are the coefficients of the first-order term of
    the expansions. *)
Lemma Dx_expansion (p : bipoly) (x y h : Q) :
  eval p (x + h) y == eval p x y + h * eval (Dx p) x y + h * h * Rx p x y h.
Proof.
  induction p as [| | q | a IHa b IHb | a IHa b IHb | a IHa b IHb | a IHa];
    cbn [eval Dx Rx]; try rewrite IHa; try rewrite IHb; ring.
Qed.

Lemma Dy_expansion (p : bipoly) (x y h : Q) :
  eval p x (y + h) == eval p x y + h * eval (Dy p) x y + h * h * Ry p x y h.
Proof.
  induction p as [| | q | a IHa b IHb | a IHa b IHb | a IHa b IHb | a IHa];
    cbn [eval Dy Ry]; try rewrite IHa; try rewrite IHb; ring.
Qed.

(** Mixed derivatives commute. *)
Lemma Dx_Dy_comm (p : bipoly) (x y : Q) :
  eval (Dx (Dy p)) x y == eval (Dy (Dx p)) x y.
Proof.
  induction p as [| | q | a IHa b IHb | a IHa b IHb | a IHa b IHb | a IHa];
    cbn [eval Dx Dy]; try rewrite IHa; try rewrite IHb; ring.
Qed.

Lemma Dx_Dx_Dy_comm (p : bipoly) (x y : Q) :
  eval (Dx (Dx (Dy p))) x y == eval (Dx (Dy (Dx p))) x y.
Proof.
  induction p as [| | q | a IHa b IHb | a IHa b IHb | a IHa b IHb | a IHa];
    cbn [eval Dx Dy]; try rewrite IHa; try rewrite IHb;
    rewrite ?(Dx_Dy_comm a), ?(Dx_Dy_comm b); ring.
Qed.

Lemma Dy_Dx_Dy_comm (p : bipoly) (x y : Q) :
  eval (Dy (Dx (Dy p))) x y == eval (Dy (Dy (Dx p))) x y.
Proof.
  induction p as [| | q | a IHa b IHb | a IHa b IHb | a IHa b IHb | a IHa];
    cbn [eval Dx Dy]; try rewrite IHa; try rewrite IHb;
    rewrite ?(Dx_Dy_comm a), ?(Dx_Dy_comm b); ring.
Qed.

(** All the third derivatives of [p] in one order. *)
Ltac schwarz p :=
  rewrite ?(Dx_Dx_Dy_comm p), ?(Dx_Dy_comm (Dx p)), ?(Dx_Dy_comm (Dy p)),
    ?(Dy_Dx_Dy_comm p), ?(Dx_Dy_comm p).

(** ** The differentiation numbers carry the derivatives *)

(** A differentiation number of dimension 2 that agrees with the value
    and the derivatives of a field, taken apart. *)
Ltac jet_components A IH :=
  let va := fresh "va" in
  let da := fresh "da" in
  let dda := fresh "dda" in
  let Hv := fresh "Hv" in
  let Hd := fresh "Hd" in
  let Hdd := fresh "Hdd" in
  destruct A as [va da dda]; destruct IH as (Hv & Hd & Hdd);
  cbn [Value dval ddval jet_at ADD_at jet map] in Hv, Hd, Hdd;
  repeat match goal with
         | F : Forall2 Qeq _ (_ :: _) |- _ =>
             let E := fresh "E" in
             inversion F as [|? ? ? ? E ?]; subst; clear F
         | F : Forall2 Qeq _ [] |- _ => inversion F; subst; clear F
         end.

(** Running a polynomial expression on the seeds of [CalcShape] with the
    arithmetic of [AutoDiffDiff<2>] yields the value, the gradient and
    the Hessian of the polynomial. *)
Lemma ad_eval_jet (p : bipoly) (x y : Q) :
  ADD_eq (ad_eval p (ADD_var 2 x 0) (ADD_var 2 y 1)) (jet_at p x y).
Proof.
  induction p as [| | q | a IHa b IHb | a IHa b IHb | a IHa b IHb | a IHa];
    cbn [ad_eval].
  - repeat split; repeat constructor; reflexivity.
  - repeat split; repeat constructor; reflexivity.
  - repeat split; repeat constructor; reflexivity.
  - set (A := ad_eval a _ _) in *. set (B := ad_eval b _ _) in *.
    clearbody A B. jet_components A IHa. jet_components B IHb.
    unfold ADD_eq. cbn -[Qplus Qmult Qminus Qopp inject_Z].
    repeat split; repeat constructor;
      repeat match goal with E : _ == _ |- _ => rewrite E; clear E end; ring.
  - set (A := ad_eval a _ _) in *. set (B := ad_eval b _ _) in *.
    clearbody A B. jet_components A IHa. jet_components B IHb.
    unfold ADD_eq. cbn -[Qplus Qmult Qminus Qopp inject_Z].
    repeat split; repeat constructor;
      repeat match goal with E : _ == _ |- _ => rewrite E; clear E end; ring.
  - set (A := ad_eval a _ _) in *. set (B := ad_eval b _ _) in *.
    clearbody A B. jet_components A IHa. jet_components B IHb.
    unfold ADD_eq. cbn -[Qplus Qmult Qminus Qopp inject_Z].
    repeat split; repeat constructor;
      repeat match goal with E : _ == _ |- _ => rewrite E; clear E end; ring.
  - set (A := ad_eval a _ _) in *.
    clearbody A. jet_components A IHa.
    unfold ADD_eq. cbn -[Qplus Qmult Qminus Qopp inject_Z].
    repeat split; repeat constructor;
      repeat match goal with E : _ == _ |- _ => rewrite E; clear E end; ring.
Qed.

(** ** [DivShape()] against the divergence of [Shape()] *)

Ltac divergence_entry u v w :=
  cbn -[Qplus Qmult Qminus Qopp inject_Z];
  schwarz u; schwarz v; schwarz w; ring.

Lemma Sigma_gradv_exact (v : bipoly) :
  DivShape_exact (fun x y => mk_Sigma_gradv (jet_at v x y)) (mk_Sigma_gradv (jet v)).
Proof.
  intros x y. split; [reflexivity|].
  eexists. split; [reflexivity|].
  unfold Vec_eq, Vec_at, div_rows.
  repeat constructor; divergence_entry v v v.
Qed.

Lemma Sigma_gradu_v_exact (u v : bipoly) :
  DivShape_exact (fun x y => mk_Sigma_gradu_v (jet_at u x y) (jet_at v x y))
                 (mk_Sigma_gradu_v (jet u) (jet v)).
Proof.
  intros x y. split; [reflexivity|].
  eexists. split; [reflexivity|].
  unfold Vec_eq, Vec_at, div_rows.
  repeat constructor; divergence_entry u v v.
Qed.

Lemma Curlgraduv_graducurlv_exact (u v : bipoly) :
  DivShape_exact
    (fun x y => mk_Curlgraduv_graducurlv (jet_at u x y) (jet_at v x y))
    (mk_Curlgraduv_graducurlv (jet u) (jet v)).
Proof.
  intros x y. split; [reflexivity|].
  eexists. split; [reflexivity|].
  unfold Vec_eq, Vec_at, div_rows.
  repeat constructor; divergence_entry u v v.
Qed.

Lemma T_type4_exact (l1 l2 v : bipoly) :
  DivShape_exact
    (fun x y => mk_T_type4 (jet_at l1 x y) (jet_at l2 x y) (jet_at v x y))
    (mk_T_type4 (jet l1) (jet l2) (jet v)).
Proof.
  intros x y. split; [reflexivity|].
  eexists. split; [reflexivity|].
  unfold Vec_eq, Vec_at, div_rows.
  repeat constructor; divergence_entry l1 l2 v.
Qed.

(** The type 2 family is not div-free: [u = x * x], [v = y] give the
    divergence (4, 0) everywhere. *)
Lemma Curlgraduv_graducurlv_not_div_free (x y : Q) :
  DivShape (mk_Curlgraduv_graducurlv (jet_at (PMul PX PX) x y) (jet_at PY x y))
  <> Ok [0; 0]%Q.
Proof.
  intros E.
  apply (f_equal (fun r => match r with Ok (a :: _) => a | _ => 0%Q end)) in E.
  cbn -[Qplus Qmult Qminus Qopp inject_Z] in E.
  match type of E with
  | ?a = _ => assert (Hq : (a == 4 # 1)%Q) by ring
  end.
  rewrite E in Hq. discriminate Hq.
Qed.

(** C4: for polynomial fields, [DivShape()] of each of the four
    building blocks of the triangle is the row-wise divergence of the
    field of its [Shape()]; it is the zero vector for [Sigma_gradv],
    [Sigma_gradu_v] and [T_type4], whatever they are built from, and for
    [Curlgraduv_graducurlv] it is
    [-2 * (-u_xx v_y + u_xy v_x, -u_xy v_y + u_yy v_x)]. *)
Theorem DivShape_is_divergence_of_Shape (u v l1 l2 : bipoly) :
  DivShape_exact (fun x y => mk_Sigma_gradv (jet_at v x y)) (mk_Sigma_gradv (jet v))
  /\ DivShape_exact (fun x y => mk_Sigma_gradu_v (jet_at u x y) (jet_at v x y))
                    (mk_Sigma_gradu_v (jet u) (jet v))
  /\ DivShape_exact
       (fun x y => mk_Curlgraduv_graducurlv (jet_at u x y) (jet_at v x y))
       (mk_Curlgraduv_graducurlv (jet u) (jet v))
  /\ DivShape_exact
       (fun x y => mk_T_type4 (jet_at l1 x y) (jet_at l2 x y) (jet_at v x y))
       (mk_T_type4 (jet l1) (jet l2) (jet v))
  /\ (forall b : Sigma_gradv Q, DivShape b = Ok [0; 0]%Q)
  /\ (forall b : Sigma_gradu_v Q, DivShape b = Ok [0; 0]%Q)
  /\ (forall b : T_type4 Q, DivShape b = Ok [0; 0]%Q)
  /\ (forall x y : Q,
        DivShape (mk_Curlgraduv_graducurlv (jet_at u x y) (jet_at v x y))
        = Ok [ (-2 # 1) * (- eval (Dx (Dx u)) x y * eval (Dy v) x y
                           + eval (Dy (Dx u)) x y * eval (Dx v) x y);
               (-2 # 1) * (- eval (Dy (Dx u)) x y * eval (Dy v) x y
                           + eval (Dy (Dy u)) x y * eval (Dx v) x y) ]%Q).
Proof.
  split; [apply Sigma_gradv_exact|].
  split; [apply Sigma_gradu_v_exact|].
  split; [apply Curlgraduv_graducurlv_exact|].
  split; [apply T_type4_exact|].
  repeat split.
Qed.

(** * Further properties *)

(** ** The blocks outside [T_CalcShape] *)

(** X1: for polynomial fields [u] and [v], [DivShape()] of
    [T_sigma_u_grad_v] is the row-wise divergence of the field of its
    [Shape()], and that field is trace-free (the two diagonal entries
    cancel at every point). *)
Theorem T_sigma_u_grad_v_divergence (u v : bipoly) :
  DivShape_exact
    (fun x y => mk_T_sigma_u_grad_v (jet_at u x y) (jet_at v x y))
    (mk_T_sigma_u_grad_v (jet u) (jet v))
  /\ (forall x y : Q,
        nth 0 (Shape (mk_T_sigma_u_grad_v (jet_at u x y) (jet_at v x y))) 0%Q
        + nth 3 (Shape (mk_T_sigma_u_grad_v (jet_at u x y) (jet_at v x y))) 0%Q
        == 0)%Q.
Proof.
  split.
  - intros x y. split; [reflexivity|].
    eexists. split; [reflexivity|].
    unfold Vec_eq, Vec_at, div_rows.
    repeat constructor; divergence_entry u v v.
  - intros x y. cbn -[Qplus Qmult Qminus Qopp inject_Z].
    rewrite (Dx_Dy_comm v). ring.
Qed.

Lemma constant_gradient_second (l : bipoly) (x y : Q) :
  constant_gradient l ->
  eval (Dx (Dx l)) x y == 0 /\ eval (Dy (Dx l)) x y == 0
  /\ eval (Dx (Dy l)) x y == 0 /\ eval (Dy (Dy l)) x y == 0.
Proof.
  intros Hl. specialize (Hl x y). cbn [jet ddval] in Hl.
  inversion Hl as [|? ? E1 Hl1]; subst.
  inversion Hl1 as [|? ? E2 Hl2]; subst.
  inversion Hl2 as [|? ? E3 Hl3]; subst.
  inversion Hl3 as [|? ? E4 _]; subst.
  auto.
Qed.

(** X2: [DivShape()] of [T_Dl2xRotDl1_v] is the row-wise divergence of
    the field of its [Shape()] when the gradients of [l1] and [l2] are
    constant, as the source warns; with [l1 = x * x], [l2 = y], [v = 1]
    it is not, the divergence of the first row being [-2] where
    [DivShape()] returns [0]. *)
Theorem T_Dl2xRotDl1_v_divergence (l1 l2 v : bipoly) :
  constant_gradient l1 -> constant_gradient l2 ->
  DivShape_exact
    (fun x y => mk_T_Dl2xRotDl1_v (jet_at l1 x y) (jet_at l2 x y) (jet_at v x y))
    (mk_T_Dl2xRotDl1_v (jet l1) (jet l2) (jet v))
  /\ ~ DivShape_exact
         (fun x y => mk_T_Dl2xRotDl1_v (jet_at (PMul PX PX) x y) (jet_at PY x y)
                                       (jet_at (PConst 1) x y))
         (mk_T_Dl2xRotDl1_v (jet (PMul PX PX)) (jet PY) (jet (PConst 1))).
Proof.
  intros H1 H2. split.
  - intros x y. split; [reflexivity|].
    eexists. split; [reflexivity|].
    destruct (constant_gradient_second l1 x y H1) as (A1 & A2 & A3 & A4).
    destruct (constant_gradient_second l2 x y H2) as (B1 & B2 & B3 & B4).
    unfold Vec_eq, Vec_at, div_rows.
    repeat constructor; cbn -[Qplus Qmult Qminus Qopp inject_Z];
      rewrite ?A1, ?A2, ?A3, ?A4, ?B1, ?B2, ?B3, ?B4; ring.
  - intros Hex. destruct (Hex 0%Q 0%Q) as (_ & d & Ed & Hd).
    cbn -[Qplus Qmult Qminus Qopp inject_Z] in Ed. injection Ed as <-.
    unfold Vec_eq, Vec_at, div_rows in Hd.
    inversion Hd as [|? ? ? ? E _]; subst.
    cbn -[Qplus Qmult Qminus Qopp inject_Z] in E.
    assert (Hq : (0 == -2 # 1)%Q).
    { etransitivity; [|etransitivity; [exact E|]]; ring. }
    discriminate Hq.
Qed.

(** X2, at [l1 = x], [l2 = y], [v = x * y]. *)
Lemma T_Dl2xRotDl1_v_divergence_witness :
  DivShape_exact
    (fun x y => mk_T_Dl2xRotDl1_v (jet_at PX x y) (jet_at PY x y)
                                  (jet_at (PMul PX PY) x y))
    (mk_T_Dl2xRotDl1_v (jet PX) (jet PY) (jet (PMul PX PY))).
Proof.
  apply (T_Dl2xRotDl1_v_divergence PX PY (PMul PX PY)).
  - intros x y. repeat constructor; reflexivity.
  - intros x y. repeat constructor; reflexivity.
Defined.

(** ** Fields in three variables *)

(** [TD i] is the partial derivative: the coefficient of the first-order
    term of the expansion in the variable [i]. *)
Lemma TD_expansion (i : nat) (p : tripoly) (pt : nat -> Q) (h : Q) :
  teval p (shifted pt i h)
  == teval p pt + h * teval (TD i p) pt + h * h * TR i p pt h.
Proof.
  induction p as [j | q | a IHa b IHb | a IHa b IHb | a IHa b IHb | a IHa];
    cbn [teval TD TR]; try rewrite IHa; try rewrite IHb; try ring.
  unfold shifted. destruct (Nat.eqb j i); ring.
Qed.

Lemma constant_gradient3_second (l : tripoly) (pt : nat -> Q) (i j : nat) :
  constant_gradient3 l -> (i < 3)%nat -> (j < 3)%nat ->
  teval (TD j (TD i l)) pt == 0.
Proof.
  intros Hl Hi Hj. specialize (Hl pt). rewrite Forall_forall in Hl.
  apply Hl.
  destruct i as [|[|[|i]]]; try lia;
    destruct j as [|[|[|j]]]; try lia; cbn; tauto.
Qed.

Ltac second_derivatives_vanish l pt Hl :=
  rewrite ?(constant_gradient3_second l pt 0 0 Hl), ?(constant_gradient3_second l pt 0 1 Hl),
    ?(constant_gradient3_second l pt 0 2 Hl), ?(constant_gradient3_second l pt 1 0 Hl),
    ?(constant_gradient3_second l pt 1 1 Hl), ?(constant_gradient3_second l pt 1 2 Hl),
    ?(constant_gradient3_second l pt 2 0 Hl), ?(constant_gradient3_second l pt 2 1 Hl),
    ?(constant_gradient3_second l pt 2 2 Hl) by lia.

(** X3: [DivShape()] of the face function [T_Dl1_o_Dl2xDl3_v] of the
    tetrahedron is the row-wise divergence of the field of its [Shape()]
    when the gradients of [l1], [l2] and [l3] are constant, which is
    what the source assumes. *)
Theorem T_Dl1_o_Dl2xDl3_v_divergence (l1 l2 l3 v : tripoly) :
  constant_gradient3 l1 -> constant_gradient3 l2 -> constant_gradient3 l3 ->
  DivShape_exact3
    (fun pt => mk_T_Dl1_o_Dl2xDl3_v (jet3_at l1 pt) (jet3_at l2 pt)
                                    (jet3_at l3 pt) (jet3_at v pt))
    (mk_T_Dl1_o_Dl2xDl3_v (jet3 l1) (jet3 l2) (jet3 l3) (jet3 v)).
Proof.
  intros H1 H2 H3 pt. split; [reflexivity|].
  eexists. split; [reflexivity|].
  unfold Vec_eq, Vec_at3, div_rows3.
  repeat constructor; cbn -[Qplus Qmult Qminus Qopp inject_Z];
    second_derivatives_vanish l1 pt H1;
    second_derivatives_vanish l2 pt H2;
    second_derivatives_vanish l3 pt H3; ring.
Qed.

(** X3, at the barycentric coordinates [x], [y], [z] and [v = x * z]. *)
Lemma T_Dl1_o_Dl2xDl3_v_divergence_witness :
  DivShape_exact3
    (fun pt => mk_T_Dl1_o_Dl2xDl3_v (jet3_at (TVar 0) pt) (jet3_at (TVar 1) pt)
                 (jet3_at (TVar 2) pt) (jet3_at (TMul (TVar 0) (TVar 2)) pt))
    (mk_T_Dl1_o_Dl2xDl3_v (jet3 (TVar 0)) (jet3 (TVar 1)) (jet3 (TVar 2))
                          (jet3 (TMul (TVar 0) (TVar 2)))).
Proof.
  apply (T_Dl1_o_Dl2xDl3_v_divergence (TVar 0) (TVar 1) (TVar 2)
           (TMul (TVar 0) (TVar 2)));
    intros pt; repeat constructor; reflexivity.
Defined.

(** X4: [DivShape()] of the identity bubble [T_Id_v<D>] is the row-wise
    divergence of the field of its [Shape()], for [D = 2] and [D = 3]
    and every polynomial field [v]: the matrix is [v] on the diagonal
    and zero elsewhere, and the divergence is the gradient of [v]. *)
Theorem T_Id_v_divergence (v2 : bipoly) (v3 : tripoly) :
  DivShape_exact (fun x y => mk_T_Id_v (D:=2) (jet_at v2 x y)) (mk_T_Id_v (jet v2))
  /\ DivShape_exact3 (fun pt => mk_T_Id_v (D:=3) (jet3_at v3 pt)) (mk_T_Id_v (jet3 v3))
  /\ Shape (mk_T_Id_v (D:=2) (jet v2)) = [v2; PConst 0; PConst 0; v2]
  /\ Shape (mk_T_Id_v (D:=3) (jet3 v3))
     = [v3; TConst 0; TConst 0; TConst 0; v3; TConst 0; TConst 0; TConst 0; v3]
  /\ DivShape (mk_T_Id_v (D:=2) (jet v2)) = Ok [Dx v2; Dy v2]
  /\ DivShape (mk_T_Id_v (D:=3) (jet3 v3)) = Ok [TD 0 v3; TD 1 v3; TD 2 v3].
Proof.
  split.
  { intros x y. split; [reflexivity|].
    eexists. split; [reflexivity|].
    unfold Vec_eq, Vec_at, div_rows.
    repeat constructor; cbn -[Qplus Qmult Qminus Qopp inject_Z]; ring. }
  split.
  { intros pt. split; [reflexivity|].
    eexists. split; [reflexivity|].
    unfold Vec_eq, Vec_at3, div_rows3.
    repeat constructor; cbn -[Qplus Qmult Qminus Qopp inject_Z]; ring. }
  repeat split.
Qed.

(** ** Invariants of a run *)

Section Preserves.

Context {R L : Type}.
Variable I : EmitState R L -> Prop.

Lemma preserves_ret {A} (a : A) : preserves I (ret a).
Proof. intros s Hs. exact Hs. Qed.

Lemma preserves_throw {A} (what : string) : preserves I (throw (A:=A) what).
Proof. intros s Hs. exact Hs. Qed.

Lemma preserves_bind {A B} (m : M R L A) (k : A -> M R L B) :
  preserves I m -> (forall a, preserves I (k a)) -> preserves I (bind m k).
Proof.
  intros Hm Hk s Hs. unfold bind. specialize (Hm s Hs).
  destruct (m s) as [[a|w] s']; cbn in *; [apply Hk, Hm | exact Hm].
Qed.

Lemma preserves_for {X} (xs : list X) (body : X -> M R L unit) :
  (forall x, In x xs -> preserves I (body x)) -> preserves I (for_ xs body).
Proof.
  induction xs as [|x r IH]; intros Hb; cbn [for_].
  - apply preserves_ret.
  - apply preserves_bind; [apply Hb; now left|].
    intros _. apply IH. intros x' Hx'. apply Hb. now right.
Qed.

Lemma preserves_callback_eval {S D} (n : Z) (value : Z -> AutoDiffDiff S D)
  (callback : Z -> AutoDiffDiff S D -> M R L unit) :
  (forall k val, 0 <= k <= n -> preserves I (callback k val)) ->
  preserves I (callback_eval n value callback).
Proof.
  intros Hc. apply preserves_for. intros k Hk. apply Hc. now apply zrange_In.
Qed.

Lemma preserves_initial (m : M R L unit) (l : L) :
  I (initial l) -> preserves I m -> I (snd (m (initial l))).
Proof. intros H0 Hm. apply Hm, H0. Qed.

End Preserves.

Section ReadsOk.

Context {R L : Type}.

Lemma reads_ok_emit {B} (shape : B -> result R) (val : B) :
  preserves (L:=L) reads_ok (emit shape val).
Proof. intros s Hs. unfold emit. destruct (shape val); exact Hs. Qed.

Lemma reads_ok_subscript {S D} (a : ArrayMem S D) (l : Z) :
  0 <= l < Size a -> preserves reads_ok (subscript (R:=R) (L:=L) a l).
Proof.
  intros Hl s Hs. unfold reads_ok, subscript in *. cbn.
  rewrite forallb_app, Hs. cbn. unfold in_range. cbn.
  destruct (Z.leb_spec 0 l); [|lia]. destruct (Z.ltb_spec l (Size a)); [|lia].
  reflexivity.
Qed.

Lemma reads_ok_get_locals : preserves reads_ok (get_locals (R:=R) (L:=L)).
Proof. intros s Hs. exact Hs. Qed.

Lemma reads_ok_set_locals (l : L) : preserves reads_ok (set_locals (R:=R) l).
Proof. intros s Hs. exact Hs. Qed.

End ReadsOk.

Section AllWritten.

Context {R L : Type}.
Variable Pv : R -> Prop.

Lemma all_written_emit {B} (shape : B -> result R) (val : B) :
  (forall row, shape val = Ok row -> Pv row) ->
  preserves (L:=L) (all_written Pv) (emit shape val).
Proof.
  intros Hv s Hs. unfold emit, all_written in *.
  destruct (shape val) as [row|w] eqn:E; cbn; [|exact Hs].
  apply Forall_app. split; [exact Hs|]. constructor; [|constructor].
  apply Hv. reflexivity.
Qed.

Lemma all_written_subscript {S D} (a : ArrayMem S D) (l : Z) :
  preserves (all_written Pv) (subscript (R:=R) (L:=L) a l).
Proof. intros s Hs. exact Hs. Qed.

Lemma all_written_get_locals : preserves (all_written Pv) (get_locals (R:=R) (L:=L)).
Proof. intros s Hs. exact Hs. Qed.

Lemma all_written_set_locals (l : L) :
  preserves (all_written Pv) (set_locals (R:=R) l).
Proof. intros s Hs. exact Hs. Qed.

End AllWritten.

(** ** The subscripts of the triangle *)

Ltac reads_ok_step :=
  lazymatch goal with
  | |- preserves _ (bind _ _) => apply preserves_bind; [|intros ?]
  | |- preserves _ (for_ _ _) => apply preserves_for; intros ? ?
  | |- preserves _ (emit _ _) => apply reads_ok_emit
  | |- preserves _ (ret _) => apply preserves_ret
  | |- preserves _ (throw _) => apply preserves_throw
  | |- preserves _ (subscript _ _) => apply reads_ok_subscript; cbn [Size]
  | |- preserves _ (if ?c then _ else _) => destruct c
  | |- preserves _ (let '(_, _) := if ?c then _ else _ in _) => destruct c
  end.

Lemma facet_le_max (fe : T_HCurlDivFE) (i : nat) :
  In i (seq 0 3) ->
  facet fe i <= max2 (facet fe 0) (max2 (facet fe 1) (facet fe 2)).
Proof.
  intros Hi. apply in_seq in Hi. unfold max2.
  destruct i as [|[|[|i]]]; lia.
Qed.

(** X5: [T_CalcShape] of the triangle, for every order specification,
    every vertex numbering and every callback, subscripts its arrays
    [ha], [u] and [v] within their declared sizes only. *)
Theorem trig_subscripts_in_range {S} `{Scalar S} (P : Polynomials S)
  (T : ElementTopology) {R} (fe : T_HCurlDivFE) (x y : AutoDiffDiff S 2)
  (shape : TrigShape S -> result R) :
  forallb in_range
    (subscripts (snd (HCurlDivFE_TRIG.T_CalcShape P T fe x y shape))) = true.
Proof.
  unfold HCurlDivFE_TRIG.T_CalcShape.
  apply (preserves_initial reads_ok); [reflexivity|].
  unfold HCurlDivFE_TRIG.T_CalcShape_body, HCurlDivFE_TRIG.T_CalcShape_regular,
    HCurlDivFE_TRIG.inner_pairs.
  repeat reads_ok_step;
    repeat match goal with
           | Hi : In _ (zrange _ _) |- _ => apply zrange_In in Hi
           | Hi : In _ (seq 0 3) |- _ => apply (facet_le_max fe) in Hi
           end; lia.
Qed.

(** ** The face functions of the tetrahedron are built on barycentric
    coordinates *)

Ltac all_written_step :=
  lazymatch goal with
  | |- preserves _ (bind _ _) => apply preserves_bind; [|intros ?]
  | |- preserves _ (for_ _ _) => apply preserves_for; intros ? ?
  | |- preserves _ (callback_eval _ _ _) =>
      apply preserves_callback_eval; intros ? ? ?
  | |- preserves _ (emit _ _) => apply all_written_emit
  | |- preserves _ (ret _) => apply preserves_ret
  | |- preserves _ (throw _) => apply preserves_throw
  | |- preserves _ (subscript _ _) => apply all_written_subscript
  | |- preserves _ get_locals => apply all_written_get_locals
  | |- preserves _ (set_locals _) => apply all_written_set_locals
  | |- preserves _ (if ?c then _ else _) => destruct c
  | |- preserves _ (let '(_, _) := if ?c then _ else _ in _) => destruct c
  end.

Lemma tab2_3_zero (f : nat -> nat -> Q) (n : nat) :
  (forall i j, f i j == 0) -> nth n (tab2 3 f) 0%Q == 0.
Proof.
  intros Hf. do 9 (destruct n as [|n]; [apply Hf|]).
  destruct n; reflexivity.
Qed.

Lemma ad_sub_flat (a b : AutoDiffDiff Q 3) :
  (forall i j, DDValue a i j == 0) -> (forall i j, DDValue b i j == 0) ->
  forall i j, DDValue (a - b)%ad i j == 0.
Proof.
  intros Ha Hb i j. unfold DDValue at 1. cbn [ddval ad_sub].
  apply tab2_3_zero. intros i' j'. cbn [ssub Scalar_Q].
  rewrite (Ha i' j'), (Hb i' j'). reflexivity.
Qed.

Lemma sc_sub_ad_flat (c : Q) (a : AutoDiffDiff Q 3) :
  (forall i j, DDValue a i j == 0) ->
  forall i j, DDValue (sc_sub_ad c a) i j == 0.
Proof.
  intros Ha i j. unfold DDValue at 1. cbn [ddval sc_sub_ad].
  apply tab2_3_zero. intros i' j'. cbn [sopp Scalar_Q].
  rewrite (Ha i' j'). reflexivity.
Qed.

Lemma barycentric_flat (x y z l : AutoDiffDiff Q 3) :
  (forall i j, DDValue x i j == 0) -> (forall i j, DDValue y i j == 0) ->
  (forall i j, DDValue z i j == 0) ->
  In l [x; y; z; (sc_sub_ad 1%s x - y - z)%ad] ->
  forall i j, DDValue l i j == 0.
Proof.
  intros Hx Hy Hz [<-|[<-|[<-|[<-|[]]]]]; auto.
  apply ad_sub_flat; [|exact Hz].
  apply ad_sub_flat; [|exact Hy].
  apply sc_sub_ad_flat, Hx.
Qed.

Lemma lami_In {A} (n : nat) (a b c d dflt : A) :
  (n < 4)%nat -> In (nth n [a; b; c; d] dflt) [a; b; c; d].
Proof. intros Hn. apply nth_In. exact Hn. Qed.

Section TetBlocks.

Context {S : Type} `{Scalar S}.
Variable P : Polynomials S.
Variable T : ElementTopology.

Lemma tet_body_face_blocks (fe : T_HCurlDivFE) (x y z : AutoDiffDiff S 3) :
  valid_faces T ->
  preserves (all_written (face_block_of [x; y; z; (sc_sub_ad 1%s x - y - z)%ad]))
            (HCurlDivFE_TET.T_CalcShape_body P T fe x y z Ok).
Proof.
  intros Hvalid.
  unfold HCurlDivFE_TET.T_CalcShape_body, HCurlDivFE_TET.interior,
    HCurlDivFE_TET.set_jac2, HCurlDivFE_TET.get_jac1, HCurlDivFE_TET.get_jac2,
    HCurlDivFE_TET.jac1_IncAlpha2, HCurlDivFE_TET.jac2_IncAlpha2.
  repeat all_written_step;
    intros row E; injection E as <-; cbn [face_block_of f3_l1 f3_l2 f3_l3];
    try exact I;
    repeat match goal with
           | Hi : In _ (seq 0 4) |- _ => apply in_seq in Hi
           end;
    repeat split;
    first [ apply lami_In; apply Hvalid; lia
          | cbn; tauto ].
Qed.

End TetBlocks.

(** X6: every face function [T_Dl1_o_Dl2xDl3_v] that [T_CalcShape] of
    the tetrahedron hands to the callback has three of the barycentric
    coordinates [x, y, z, 1-x-y-z] as its first three arguments, for
    every order specification and vertex numbering; at coordinates
    without second derivatives, as [CalcShape] and the mapped
    evaluations build them, these arguments have no second derivative
    either, which is the assumption under which [DivShape()] is
    exact. *)
Theorem tet_face_blocks_on_barycentrics (P : Polynomials Q) (T : ElementTopology)
  (fe : T_HCurlDivFE) (x y z : AutoDiffDiff Q 3) :
  valid_faces T ->
  (forall i j, DDValue x i j == 0) -> (forall i j, DDValue y i j == 0) ->
  (forall i j, DDValue z i j == 0) ->
  Forall (fun row => face_block_of [x; y; z; (sc_sub_ad 1%s x - y - z)%ad] (snd row))
         (written (snd (HCurlDivFE_TET.T_CalcShape P T fe x y z Ok)))
  /\ Forall (fun row => face_block_flat (snd row))
            (written (snd (HCurlDivFE_TET.T_CalcShape P T fe x y z Ok))).
Proof.
  intros Hvalid Hx Hy Hz.
  assert (Hb : Forall (fun row => face_block_of
                          [x; y; z; (sc_sub_ad 1%s x - y - z)%ad] (snd row))
                 (written (snd (HCurlDivFE_TET.T_CalcShape P T fe x y z Ok)))).
  { unfold HCurlDivFE_TET.T_CalcShape.
    apply (preserves_initial
             (all_written (face_block_of [x; y; z; (sc_sub_ad 1%s x - y - z)%ad])));
      [constructor|].
    apply (tet_body_face_blocks P T fe x y z Hvalid). }
  split; [exact Hb|].
  eapply Forall_impl; [|exact Hb].
  intros [nr val] Hrow. destruct val as [b|b]; [|cbn; exact I].
  cbn [snd face_block_of face_block_flat] in *.
  destruct Hrow as (H1 & H2 & H3). intros i j.
  repeat split; apply (barycentric_flat x y z _ Hx Hy Hz); assumption.
Qed.

Lemma opposite_topology_valid : valid_faces opposite_topology.
Proof.
  intros fa k Hfa Hk.
  destruct fa as [|[|[|[|fa]]]]; try lia;
    destruct k as [|[|[|k]]]; try lia; cbn; lia.
Qed.

(** X6, at the barycentre of the reference tetrahedron, face orders
    (1, 0, 1, 1) and interior order 1. *)
Lemma tet_face_blocks_on_barycentrics_witness :
  Forall (fun row => face_block_flat (snd row))
    (written (snd (HCurlDivFE_TET.T_CalcShape power_polynomials opposite_topology
                     (tet_fe 1 0 1 1 1 false)
                     (ADD_var 3 (1 # 4)%Q 0) (ADD_var 3 (1 # 4)%Q 1)
                     (ADD_var 3 (1 # 4)%Q 2) Ok))).
Proof.
  apply (tet_face_blocks_on_barycentrics power_polynomials opposite_topology
           (tet_fe 1 0 1 1 1 false)
           (ADD_var 3 (1 # 4)%Q 0) (ADD_var 3 (1 # 4)%Q 1) (ADD_var 3 (1 # 4)%Q 2)).
  - exact opposite_topology_valid.
  - intros i j. apply (tab2_3_zero (fun _ _ => 0%Q)). reflexivity.
  - intros i j. apply (tab2_3_zero (fun _ _ => 0%Q)). reflexivity.
  - intros i j. apply (tab2_3_zero (fun _ _ => 0%Q)). reflexivity.
Defined.

(** ** The layout of the rows of the triangle, for every element *)

Lemma for_throw_state {R L X} (xs : list X) (what : string) (s : EmitState R L) :
  snd (for_ xs (fun _ => throw what) s) = s.
Proof. destruct xs; reflexivity. Qed.

Lemma flat_map_const {X Y} (xs : list X) (y : Y) :
  flat_map (fun _ => [y]) xs = repeat y (length xs).
Proof. induction xs as [|x r IH]; [reflexivity|]. cbn. now rewrite IH. Qed.

Lemma trig_pairs_layout_length (oi : Z) :
  length (trig_pairs_layout oi) = (Z.to_nat oi * (Z.to_nat oi + 1))%nat.
Proof.
  unfold trig_pairs_layout. rewrite <- (inner_pairs_count oi).
  induction (zrange 0 (oi - 1)) as [|i r IH]; [reflexivity|].
  cbn [flat_map map]. rewrite length_app, IH.
  assert (E : forall l : list Z,
             length (flat_map (fun _ => [Family_Sigma_gradu_v;
                                         Family_Curlgraduv_graducurlv]) l)
             = (length l * 2)%nat).
  { intros l. induction l as [|j l IHl]; [reflexivity|]. cbn in *. lia. }
  rewrite E. reflexivity.
Qed.

Section TrigLayoutAll.

Context {S : Type} `{Scalar S}.
Variable P : Polynomials S.
Variable T : ElementTopology.

(** The values written by the triangle with a total callback are those
    of the regular part, with or without [plus]. *)
Lemma trig_body_written {R} (fe : T_HCurlDivFE) (x y : AutoDiffDiff S 2)
  (shape : TrigShape S -> result R) :
  written (snd (HCurlDivFE_TRIG.T_CalcShape P T fe x y shape))
  = written (snd (HCurlDivFE_TRIG.T_CalcShape_regular P T fe x y shape (initial tt))).
Proof.
  unfold HCurlDivFE_TRIG.T_CalcShape, HCurlDivFE_TRIG.T_CalcShape_body, bind.
  destruct (HCurlDivFE_TRIG.T_CalcShape_regular P T fe x y shape (initial tt))
    as [[[]|w] s1]; [|reflexivity].
  destruct (plus fe); [|reflexivity].
  now rewrite for_throw_state.
Qed.

Lemma trig_families_all (fe : T_HCurlDivFE) (x y : AutoDiffDiff S 2) :
  map (fun b => family_of (snd b))
      (written (snd (HCurlDivFE_TRIG.T_CalcShape P T fe x y Ok)))
  = trig_layout fe.
Proof.
  destruct (tracks_initial record_family _ _ tt
              (trig_body_tracks P T fe x y record_family (total_Ok _)))
    as (_ & W & _).
  assert (L : map snd (written (snd (HCurlDivFE_TRIG.T_CalcShape P T fe x y
                                       record_family)))
              = trig_layout fe).
  { rewrite trig_body_written.
    apply (emits_vals_initial _ _ tt (trig_regular_layout P T fe x y)). }
  rewrite <- L. unfold HCurlDivFE_TRIG.T_CalcShape.
  induction W as [|p q l1 l2 [_ E] _ IH]; [reflexivity|].
  cbn [map]. f_equal; [|exact IH].
  unfold record_family in E. congruence.
Qed.

End TrigLayoutAll.

Lemma Forall2_family_rows {S} `{Scalar S} (blocks : list (Z * TrigShape S))
  (divs : list (Z * Vec S)) :
  Forall2 (row_of (fun val => DivShape val)) blocks divs ->
  Forall2 (fun fam row =>
             fam <> Family_Curlgraduv_graducurlv -> snd row = [0%s; 0%s])
          (map (fun b => family_of (snd b)) blocks) divs.
Proof.
  induction 1 as [|p q l1 l2 [_ E] _ IH]; cbn [map]; constructor; [|exact IH].
  intros Hfam. pose proof (div_free_families _ Hfam) as E'.
  cbn beta in E. rewrite E' in E. injection E as E. symmetry. exact E.
Qed.

(** X7: for every triangle, with or without [plus], the rows written by
    [T_CalcShape] come in a fixed layout: first the edge functions,
    [order_facet[i]+1] for each edge in turn, then twice
    [order_inner*(order_inner+1)] rows alternating between
    [Sigma_gradu_v] and [Curlgraduv_graducurlv], then [order_inner+1]
    rows of [T_type4]; and every row of [CalcDivShape] outside the
    family [Curlgraduv_graducurlv] is the zero vector. *)
Theorem trig_row_layout {S} `{Scalar S} (P : Polynomials S) (T : ElementTopology)
  (fe : T_HCurlDivFE) (x y : AutoDiffDiff S 2) (ip : list S) :
  map (fun b => family_of (snd b))
      (written (snd (HCurlDivFE_TRIG.T_CalcShape P T fe x y Ok)))
  = trig_layout fe
  /\ trig_layout fe
     = repeat Family_Sigma_gradv
         (Z.to_nat (facet fe 0 + 1) + Z.to_nat (facet fe 1 + 1)
          + Z.to_nat (facet fe 2 + 1))
       ++ trig_pairs_layout (order_inner fe)
       ++ trig_pairs_layout (order_inner fe)
       ++ repeat Family_T_type4 (Z.to_nat (order_inner fe + 1))
  /\ length (trig_pairs_layout (order_inner fe))
     = (Z.to_nat (order_inner fe) * (Z.to_nat (order_inner fe) + 1))%nat
  /\ Forall2 (fun fam row =>
                fam <> Family_Curlgraduv_graducurlv -> snd row = [0%s; 0%s])
             (trig_layout fe)
             (snd (CalcDivShape (HCurlDivFE_ET_TRIG P T) fe ip)).
Proof.
  split; [apply trig_families_all|].
  split.
  { unfold trig_layout. cbn [seq flat_map]. rewrite !flat_map_const, !zrange_length.
    rewrite app_nil_r, <- !repeat_app, !Z.sub_0_r, Nat.add_assoc.
    reflexivity. }
  split; [apply trig_pairs_layout_length|].
  rewrite <- (trig_families_all P T fe (coord (reference_point 2 ip) 0)
                (coord (reference_point 2 ip) 1)).
  apply Forall2_family_rows.
  apply (tracks_initial (fun val : TrigShape S => DivShape val) _ _ tt
           (trig_body_tracks P T fe _ _ _ DivShape_TrigShape_total)).
Qed.

(** ** The triangle with [plus]: degrees of freedom without rows *)

(** X8: on a triangle with [plus] and non-negative orders,
    [ComputeNDof] raises [order] by one and counts [2*order_inner]
    degrees of freedom more than the regular rows, but no evaluation
    writes a row beyond the regular ones: the rows written are numbered
    from 0 to [ndof - 2*order_inner - 1], and with [order_inner >= 1]
    the evaluation ends in the exception. *)
Theorem trig_plus_ndof_exceeds_rows {S} `{Scalar S} (P : Polynomials S)
  (T : ElementTopology) (fe : T_HCurlDivFE) :
  plus fe = true ->
  0 <= facet fe 0 -> 0 <= facet fe 1 -> 0 <= facet fe 2 ->
  0 <= order_inner fe ->
  exists fe',
    HCurlDivFE_TRIG.ComputeNDof fe = ([], Ok fe')
    /\ order fe' = Z.max (Z.max (Z.max (facet fe 0) (facet fe 1)) (facet fe 2))
                         (order_inner fe) + 1
    /\ ndof fe' = (facet fe 0 + 1) + (facet fe 1 + 1) + (facet fe 2 + 1)
                  + ((order_inner fe + 1)
                     + 2 * (order_inner fe + 1) * order_inner fe)
                  + 2 * order_inner fe
    /\ ndof fe' = Z.of_nat (trig_rows fe') + 2 * order_inner fe
    /\ (forall R (shape : TrigShape S -> result R) (x y : AutoDiffDiff S 2),
          total shape ->
          map fst (written (snd (HCurlDivFE_TRIG.T_CalcShape P T fe' x y shape)))
          = zseq 0 (Z.to_nat (ndof fe' - 2 * order_inner fe))
          /\ (1 <= order_inner fe ->
              fst (HCurlDivFE_TRIG.T_CalcShape P T fe' x y shape)
              = Exception "not working yet!")).
Proof.
  intros Hplus H0 H1 H2 Hoi.
  rewrite trig_ComputeNDof_eq, Hplus.
  eexists. split; [reflexivity|].
  set (fe' := set_ndof_order fe _ _).
  assert (Hrows : ndof fe' = Z.of_nat (trig_rows fe') + 2 * order_inner fe).
  { unfold trig_rows, fe'. rewrite !facet_set_ndof_order.
    cbn [ndof order_inner set_ndof_order]. nia. }
  split; [cbn [order fe' set_ndof_order]; unfold max2; lia|].
  split; [cbn [ndof fe' set_ndof_order]; lia|].
  split; [exact Hrows|].
  intros R shape x y Ht.
  destruct (trig_outcome P T fe' x y shape Ht) as [E W].
  split.
  - rewrite W. f_equal. lia.
  - intros Hoi1. rewrite E.
    change (plus fe') with (plus fe). change (order_inner fe') with (order_inner fe).
    rewrite Hplus. cbn [andb].
    destruct (Z.leb_spec 1 (order_inner fe)); [reflexivity|lia].
Qed.

(** X8, at the element of orders (1, 1, 1), interior order 2: [ndof] is
    25 and the rows 0..20 are written. *)
Lemma trig_plus_ndof_exceeds_rows_witness :
  exists fe',
    HCurlDivFE_TRIG.ComputeNDof (trig_fe 1 1 1 2 true) = ([], Ok fe')
    /\ ndof fe' = 25
    /\ map fst (written (snd (HCurlDivFE_TRIG.T_CalcShape power_polynomials
                                opposite_topology fe'
                                (ADD_var 2 (1 # 3)%Q 0) (ADD_var 2 (1 # 3)%Q 1)
                                (fun val => Ok (Shape val)))))
       = zseq 0 21.
Proof.
  destruct (trig_plus_ndof_exceeds_rows power_polynomials opposite_topology
              (trig_fe 1 1 1 2 true))
    as (fe' & E & _ & N & _ & Hrun); try reflexivity; try (cbn; lia).
  exists fe'. split; [exact E|]. split; [rewrite N; reflexivity|].
  destruct (Hrun _ (fun val : TrigShape Q => Ok (Shape val))
              (ADD_var 2 (1 # 3)%Q 0) (ADD_var 2 (1 # 3)%Q 1) (total_Ok _))
    as [W _].
  rewrite W, N. reflexivity.
Defined.

(** ** The face loop of the tetrahedron after [SetOrderFacet] *)

Lemma facet_SetOrderFacet_new (n0 : Z) (vn : list Z) (p q : Z) (pl : bool)
  (k i : nat) :
  (k < 4)%nat -> (i < 4)%nat ->
  facet (SetOrderFacet (T_HCurlDivFE_new ET_TET n0 vn p pl) k q) i
  = if Nat.eqb i k then q else p.
Proof.
  intros Hk Hi.
  destruct k as [|[|[|[|k]]]]; try lia;
    destruct i as [|[|[|[|i]]]]; try lia; reflexivity.
Qed.

(** X9: on a tetrahedron built with the uniform order [p] whose face
    [k] is then given the order [q] by [SetOrderFacet] (orders in
    0..6), the face loop of [T_CalcShape] subscripts [ha] within its
    declared size for every [q] when [k] is 0, 1 or 2, and for face 3
    exactly when [q <= p]: [ha] is sized and filled for the maximum
    over the faces 0, 1 and 2 only. *)
Theorem tet_SetOrderFacet_reads {S} `{Scalar S} (P : Polynomials S)
  (T : ElementTopology) {R} (n0 : Z) (vn : list Z) (p q : Z) (pl : bool) (k : nat)
  (x y z : AutoDiffDiff S 3) (shape : TetShape S -> result R) :
  total shape -> 0 <= p <= 6 -> 0 <= q <= 6 -> (k < 4)%nat ->
  let fe := SetOrderFacet (T_HCurlDivFE_new ET_TET n0 vn p pl) k q in
  forallb in_range
    (subscripts (snd (HCurlDivFE_TET.T_CalcShape P T fe x y z shape))) = true
  <-> (k = 3%nat -> q <= p).
Proof.
  intros Ht Hp Hq Hk fe.
  assert (Hf : forall i, (i < 4)%nat -> 0 <= facet fe i <= 6).
  { intros i Hi. unfold fe. rewrite facet_SetOrderFacet_new by assumption.
    destruct (Nat.eqb i k); assumption. }
  rewrite (tet_subscripts_in_range_iff P T fe x y z shape Ht Hf).
  unfold fe. rewrite !facet_SetOrderFacet_new by lia. unfold max2.
  destruct k as [|[|[|[|k]]]]; try lia; cbn [Nat.eqb]; split; intros; try lia.
Qed.

(** X9, at uniform order 1 with face 3 raised to 2 and with face 1
    raised to 2. *)
Lemma tet_SetOrderFacet_reads_witness :
  forallb in_range
    (subscripts (snd (HCurlDivFE_TET.T_CalcShape power_polynomials opposite_topology
                        (SetOrderFacet (T_HCurlDivFE_new ET_TET 0 [0; 1; 2; 3] 1 false)
                                       3 2)
                        (ADD_var 3 (1 # 4)%Q 0) (ADD_var 3 (1 # 4)%Q 1)
                        (ADD_var 3 (1 # 4)%Q 2) (fun val => Ok (Shape val)))))
  <> true
  /\ forallb in_range
       (subscripts (snd (HCurlDivFE_TET.T_CalcShape power_polynomials opposite_topology
                           (SetOrderFacet (T_HCurlDivFE_new ET_TET 0 [0; 1; 2; 3] 1 false)
                                          1 2)
                           (ADD_var 3 (1 # 4)%Q 0) (ADD_var 3 (1 # 4)%Q 1)
                           (ADD_var 3 (1 # 4)%Q 2) (fun val => Ok (Shape val)))))
     = true.
Proof.
  split.
  - intros E.
    apply (tet_SetOrderFacet_reads power_polynomials opposite_topology
             0 [0; 1; 2; 3] 1 2 false 3) in E;
      [lia | apply total_Ok | lia | lia | lia | reflexivity].
  - apply (tet_SetOrderFacet_reads power_polynomials opposite_topology
             0 [0; 1; 2; 3] 1 2 false 1); [apply total_Ok | lia | lia | lia |].
    intros E. discriminate E.
Defined.

(** ** Orientation: the listing order of a facet does not matter *)

Lemma for_ext_in {R L X} (xs : list X) (f g : X -> M R L unit) :
  (forall x, In x xs -> f x = g x) -> for_ xs f = for_ xs g.
Proof.
  induction xs as [|x r IH]; intros Hfg; cbn [for_]; [reflexivity|].
  rewrite (Hfg x (or_introl eq_refl)), IH; [reflexivity|].
  intros x' Hx'. apply Hfg. now right.
Qed.

Section Orientation.

Context {S : Type} `{Scalar S}.
Variable P : Polynomials S.

Lemma trig_regular_same_edges {R} (T T' : ElementTopology) (fe : T_HCurlDivFE)
  (x y : AutoDiffDiff S 2) (shape : TrigShape S -> result R) :
  same_edges T T' -> edges_numbered T fe ->
  HCurlDivFE_TRIG.T_CalcShape_regular P T fe x y shape
  = HCurlDivFE_TRIG.T_CalcShape_regular P T' fe x y shape.
Proof.
  intros Hsame Hnum. unfold HCurlDivFE_TRIG.T_CalcShape_regular. cbv zeta.
  f_equal. apply for_ext_in. intros i Hi. apply in_seq in Hi.
  specialize (Hnum i ltac:(lia)).
  destruct (Hsame i ltac:(lia)) as [[E0 E1]|[E0 E1]]; rewrite E0, E1;
    [reflexivity|].
  destruct (Z.gtb_spec (vnum fe (GetEdges_TRIG T i 0)) (vnum fe (GetEdges_TRIG T i 1)));
    destruct (Z.gtb_spec (vnum fe (GetEdges_TRIG T i 1))
                         (vnum fe (GetEdges_TRIG T i 0)));
    try lia; reflexivity.
Qed.

End Orientation.

(** X10: [T_CalcShape] of the triangle does not depend on the order in
    which the topology table lists the two vertices of an edge, as long
    as the two vertices carry different global numbers: the outcome, the
    rows and the subscripts are the same for every callback. *)
Theorem trig_edge_listing_irrelevant {S} `{Scalar S} (P : Polynomials S) {R}
  (T T' : ElementTopology) (fe : T_HCurlDivFE) (x y : AutoDiffDiff S 2)
  (shape : TrigShape S -> result R) :
  same_edges T T' -> edges_numbered T fe ->
  HCurlDivFE_TRIG.T_CalcShape P T fe x y shape
  = HCurlDivFE_TRIG.T_CalcShape P T' fe x y shape.
Proof.
  intros Hsame Hnum.
  unfold HCurlDivFE_TRIG.T_CalcShape, HCurlDivFE_TRIG.T_CalcShape_body.
  now rewrite (trig_regular_same_edges P T T' fe x y shape Hsame Hnum).
Qed.

Lemma reordered_same_edges : same_edges opposite_topology reordered_topology.
Proof.
  intros i Hi. destruct i as [|[|[|i]]]; try lia; right; split; reflexivity.
Qed.

(** X10, at the two tables and the element of orders (1, 2, 0),
    interior order 1, with vertex numbers (7, 3, 5). *)
Lemma trig_edge_listing_irrelevant_witness :
  HCurlDivFE_TRIG.T_CalcShape power_polynomials opposite_topology
    (mkT_HCurlDivFE 0 0 [7; 3; 5] [1; 2; 0] 1 false)
    (ADD_var 2 (1 # 3)%Q 0) (ADD_var 2 (1 # 3)%Q 1) (fun val => Ok (Shape val))
  = HCurlDivFE_TRIG.T_CalcShape power_polynomials reordered_topology
      (mkT_HCurlDivFE 0 0 [7; 3; 5] [1; 2; 0] 1 false)
      (ADD_var 2 (1 # 3)%Q 0) (ADD_var 2 (1 # 3)%Q 1) (fun val => Ok (Shape val)).
Proof.
  apply (trig_edge_listing_irrelevant power_polynomials opposite_topology
           reordered_topology).
  - exact reordered_same_edges.
  - intros i Hi. destruct i as [|[|[|i]]]; try lia; cbn; lia.
Defined.

Lemma Permutation_three {A} (a b c a' b' c' : A) :
  Permutation [a'; b'; c'] [a; b; c] ->
  (a', b', c') = (a, b, c) \/ (a', b', c') = (a, c, b)
  \/ (a', b', c') = (b, a, c) \/ (a', b', c') = (b, c, a)
  \/ (a', b', c') = (c, a, b) \/ (a', b', c') = (c, b, a).
Proof.
  intros Hp.
  assert (Hin : In a' [a; b; c]) by (apply (Permutation_in _ Hp); now left).
  destruct Hin as [<-|[<-|[<-|[]]]].
  - apply Permutation_cons_inv in Hp.
    apply Permutation_sym, Permutation_length_2_inv in Hp.
    destruct Hp as [E|E]; injection E as -> ->; auto.
  - assert (Hp' : Permutation (b :: [b'; c']) (b :: [a; c])).
    { etransitivity; [exact Hp|]. apply perm_swap. }
    apply Permutation_cons_inv in Hp'.
    apply Permutation_sym, Permutation_length_2_inv in Hp'.
    destruct Hp' as [E|E]; injection E as -> ->; auto.
  - assert (Hp' : Permutation (c :: [b'; c']) (c :: [a; b])).
    { etransitivity; [exact Hp|].
      etransitivity; [apply perm_skip, perm_swap|]. apply perm_swap. }
    apply Permutation_cons_inv in Hp'.
    apply Permutation_sym, Permutation_length_2_inv in Hp'.
    destruct Hp' as [E|E]; injection E as -> ->; auto 6.
Qed.

Section OrientationTet.

Context {S : Type} `{Scalar S}.
Variable P : Polynomials S.

Lemma tet_body_same_faces {R} (T T' : ElementTopology) (fe : T_HCurlDivFE)
  (x y z : AutoDiffDiff S 3) (shape : TetShape S -> result R) :
  same_faces T T' -> faces_numbered T fe ->
  HCurlDivFE_TET.T_CalcShape_body P T fe x y z shape
  = HCurlDivFE_TET.T_CalcShape_body P T' fe x y z shape.
Proof.
  intros Hsame Hnum. unfold HCurlDivFE_TET.T_CalcShape_body. cbv zeta.
  f_equal. apply for_ext_in. intros fa Hfa. apply in_seq in Hfa.
  destruct (Hnum fa ltac:(lia)) as (Nab & Nac & Nbc).
  pose proof (Permutation_three _ _ _ _ _ _ (Hsame fa ltac:(lia))) as Hcases.
  set (a := GetFaces_TET T fa 0) in *.
  set (b := GetFaces_TET T fa 1) in *.
  set (c := GetFaces_TET T fa 2) in *.
  set (a' := GetFaces_TET T' fa 0) in *.
  set (b' := GetFaces_TET T' fa 1) in *.
  set (c' := GetFaces_TET T' fa 2) in *.
  clearbody a b c a' b' c'.
  set (va := vnum fe a) in *. set (vb := vnum fe b) in *.
  set (vc := vnum fe c) in *.
  destruct Hcases as [E|[E|[E|[E|[E|E]]]]]; injection E as -> -> ->;
    fold va vb vc;
    destruct (Z.gtb_spec va vb); destruct (Z.gtb_spec vb va); try lia;
    destruct (Z.gtb_spec va vc); destruct (Z.gtb_spec vc va); try lia;
    destruct (Z.gtb_spec vb vc); destruct (Z.gtb_spec vc vb); try lia;
    cbv iota beta; fold va vb vc;
    repeat match goal with
           | |- context [?u >? ?v] =>
               first [ replace (u >? v) with true by (symmetry; apply Z.gtb_lt; lia)
                     | replace (u >? v) with false
                         by (symmetry; rewrite Z.gtb_ltb; apply Z.ltb_ge; lia) ]
           end;
    reflexivity.
Qed.

End OrientationTet.

(** X11: [T_CalcShape] of the tetrahedron does not depend on the order
    in which the topology table lists the three vertices of a face, as
    long as the three vertices carry different global numbers: the
    three compare-and-swap steps bring them into the same order, and
    the outcome, the rows and the subscripts are the same for every
    callback. *)
Theorem tet_face_listing_irrelevant {S} `{Scalar S} (P : Polynomials S) {R}
  (T T' : ElementTopology) (fe : T_HCurlDivFE) (x y z : AutoDiffDiff S 3)
  (shape : TetShape S -> result R) :
  same_faces T T' -> faces_numbered T fe ->
  HCurlDivFE_TET.T_CalcShape P T fe x y z shape
  = HCurlDivFE_TET.T_CalcShape P T' fe x y z shape.
Proof.
  intros Hsame Hnum. unfold HCurlDivFE_TET.T_CalcShape.
  now rewrite (tet_body_same_faces P T T' fe x y z shape Hsame Hnum).
Qed.

Lemma reordered_same_faces : same_faces opposite_topology reordered_topology.
Proof.
  intros fa Hfa. destruct fa as [|[|[|[|fa]]]]; try lia; cbn.
  - apply (Permutation_cons_append [1; 2]%nat 3%nat).
  - etransitivity; [apply (Permutation_cons_append [3; 0]%nat 2%nat)|].
    apply (Permutation_cons_append [0; 2]%nat 3%nat).
  - apply perm_swap.
  - apply Permutation_sym, (Permutation_rev [0; 1; 2]%nat).
Qed.

(** X11, at the two tables and the element of face orders
    (1, 0, 1, 1), interior order 1, with vertex numbers (7, 3, 5, 1). *)
Lemma tet_face_listing_irrelevant_witness :
  HCurlDivFE_TET.T_CalcShape power_polynomials opposite_topology
    (mkT_HCurlDivFE 0 0 [7; 3; 5; 1] [1; 0; 1; 1] 1 false)
    (ADD_var 3 (1 # 4)%Q 0) (ADD_var 3 (1 # 4)%Q 1) (ADD_var 3 (1 # 4)%Q 2)
    (fun val => Ok (Shape val))
  = HCurlDivFE_TET.T_CalcShape power_polynomials reordered_topology
      (mkT_HCurlDivFE 0 0 [7; 3; 5; 1] [1; 0; 1; 1] 1 false)
      (ADD_var 3 (1 # 4)%Q 0) (ADD_var 3 (1 # 4)%Q 1) (ADD_var 3 (1 # 4)%Q 2)
      (fun val => Ok (Shape val)).
Proof.
  apply (tet_face_listing_irrelevant power_polynomials opposite_topology
           reordered_topology).
  - exact reordered_same_faces.
  - intros fa Hfa. destruct fa as [|[|[|[|fa]]]]; try lia; cbn; lia.
Defined.

(** ** Orientation on the surface triangle *)

Lemma surf_T_CalcShape_from {S} `{Scalar S} (P : Polynomials S) {R}
  (fe : T_HCurlDivSurfaceFE) (x y : AutoDiffDiff S 2) (shape : Vec S -> result R) :
  HCurlDivSurfaceFE_TRIG.T_CalcShape P fe x y shape
  = surf_rows_from P fe x y shape (surf_vertex_order fe).
Proof.
  unfold HCurlDivSurfaceFE_TRIG.T_CalcShape, surf_rows_from, surf_vertex_order.
  destruct (surf_vnum fe 0 >? surf_vnum fe 1); cbv iota beta.
  - destruct (surf_vnum fe 0 >? surf_vnum fe 2); cbv iota beta.
    + destruct (surf_vnum fe 1 >? surf_vnum fe 0); reflexivity.
    + destruct (surf_vnum fe 1 >? surf_vnum fe 2); reflexivity.
  - destruct (surf_vnum fe 1 >? surf_vnum fe 2); cbv iota beta.
    + destruct (surf_vnum fe 0 >? surf_vnum fe 1); reflexivity.
    + destruct (surf_vnum fe 0 >? surf_vnum fe 2); reflexivity.
Qed.

(** X12: the three compare-and-swap steps of the surface triangle do
    not sort its vertices.  The third step compares the first vertex
    with the last and never swaps; the last vertex carries the largest
    global number, and the first two come out in ascending order
    exactly when local vertex 2 does not carry a number below those of
    the vertices 0 and 1; otherwise the order is (0, 2, 1) or
    (1, 2, 0), with the smallest number in the middle. *)
Theorem surface_trig_vertex_order {S} `{Scalar S} (P : Polynomials S) {R}
  (fe : T_HCurlDivSurfaceFE) (x y : AutoDiffDiff S 2) (shape : Vec S -> result R) :
  HCurlDivSurfaceFE_TRIG.T_CalcShape P fe x y shape
  = surf_rows_from P fe x y shape (surf_vertex_order fe)
  /\ surf_vertex_order fe = surf_vertex_order_two_steps fe
  /\ exists es ee et,
       surf_vertex_order fe = (es, ee, et)
       /\ Permutation [es; ee; et] [0; 1; 2]%nat
       /\ surf_vnum fe es <= surf_vnum fe et
       /\ surf_vnum fe ee <= surf_vnum fe et
       /\ (surf_vnum fe es <= surf_vnum fe ee
           <-> Z.min (surf_vnum fe 0) (surf_vnum fe 1) <= surf_vnum fe 2)
       /\ (surf_vnum fe 2 < Z.min (surf_vnum fe 0) (surf_vnum fe 1) ->
           ee = 2%nat /\ surf_vnum fe ee < surf_vnum fe es).
Proof.
  split; [apply surf_T_CalcShape_from|].
  unfold surf_vertex_order, surf_vertex_order_two_steps.
  destruct (Z.gtb_spec (surf_vnum fe 0) (surf_vnum fe 1)) as [H01|H01];
    cbv iota beta.
  - destruct (Z.gtb_spec (surf_vnum fe 0) (surf_vnum fe 2)) as [H02|H02];
      cbv iota beta.
    + destruct (Z.gtb_spec (surf_vnum fe 1) (surf_vnum fe 0)); [lia|].
      split; [reflexivity|]. exists 1%nat, 2%nat, 0%nat.
      split; [reflexivity|].
      split; [apply Permutation_sym, (Permutation_cons_append [1; 2]%nat 0%nat)|].
      repeat split; lia.
    + destruct (Z.gtb_spec (surf_vnum fe 1) (surf_vnum fe 2)); [lia|].
      split; [reflexivity|]. exists 1%nat, 0%nat, 2%nat.
      split; [reflexivity|]. split; [apply perm_swap|].
      repeat split; lia.
  - destruct (Z.gtb_spec (surf_vnum fe 1) (surf_vnum fe 2)) as [H12|H12];
      cbv iota beta.
    + destruct (Z.gtb_spec (surf_vnum fe 0) (surf_vnum fe 1)); [lia|].
      split; [reflexivity|]. exists 0%nat, 2%nat, 1%nat.
      split; [reflexivity|]. split; [apply perm_skip, perm_swap|].
      repeat split; lia.
    + destruct (Z.gtb_spec (surf_vnum fe 0) (surf_vnum fe 2)); [lia|].
      split; [reflexivity|]. exists 0%nat, 1%nat, 2%nat.
      split; [reflexivity|]. split; [apply Permutation_refl|].
      repeat split; lia.
Qed.

(** ** The surface elements *)

Lemma zseq_cons (a : Z) (n : nat) : zseq a (Datatypes.S n) = a :: zseq (a + 1) n.
Proof.
  change (Datatypes.S n) with (1 + n)%nat. rewrite zseq_app.
  cbn. f_equal. lia.
Qed.

Lemma zseq_length_zrange (lo hi : Z) : zseq lo (length (zrange lo hi)) = zrange lo hi.
Proof. now rewrite zrange_length. Qed.

Lemma combine_map_self {X Y} (f : X -> Y) (l : list X) :
  combine l (map f l) = map (fun x => (x, f x)) l.
Proof. induction l as [|x r IH]; [reflexivity|]. cbn. now rewrite IH. Qed.

Section SurfaceSegm.

Context {S : Type} `{Scalar S}.
Variable P : Polynomials S.

(** The loop of the segment: one subscript and one row for each [l]. *)
Lemma segm_loop (ha : ArrayMem S 1) (c : S) (xs : list Z)
  (s : EmitState (Vec S) unit) :
  for_ xs (fun l => h <- subscript ha l ;;
                    emit (fun val => Ok [val]) (c * Value h)%s) s
  = (Ok tt,
     mkEmitState (ii s + Z.of_nat (length xs))
       (written s ++ combine (zseq (ii s) (length xs))
                             (map (fun l => [(c * Value (Data ha l))%s]) xs))
       (subscripts s ++ map (fun l => (l, Size ha)) xs)
       (locals s)).
Proof.
  revert s. induction xs as [|l r IH]; intros s.
  - cbn. rewrite Z.add_0_r, !app_nil_r. now destruct s.
  - cbn [for_]. unfold bind at 1. unfold bind at 1. unfold subscript at 1.
    unfold emit at 1. cbn [ii written subscripts locals].
    rewrite IH. cbn [ii written subscripts locals length map].
    rewrite zseq_cons. cbn [combine]. rewrite <- !app_assoc. cbn [app].
    unfold Vec in *. do 2 f_equal. lia.
Qed.

End SurfaceSegm.

(** X13: on a surface segment, [ComputeNDof] sets [ndof] to
    [order_inner + 1] and [order] to [max(0, order_inner)], and
    [CalcShape] returns normally with exactly the rows
    [0, ..., order_inner]: row [l] holds the single number
    [-1 * P_l(le - ls)], the value of the Legendre entry [l] at the
    difference of the two barycentric coordinates, taken from the
    vertex with the smaller global number to the other; each subscript
    of [ha] lies within its size. *)
Theorem surface_segm_rows {S} `{Scalar S} (P : Polynomials S)
  (fe : T_HCurlDivSurfaceFE) (ip : list S) :
  let x := coord (reference_point 1 ip) 0 in
  let oi := surf_order_inner fe in
  let arg := if surf_vnum fe 0 >? surf_vnum fe 1
             then (x - sc_sub_ad 1%s x)%ad else (sc_sub_ad 1%s x - x)%ad in
  exists fe',
    HCurlDivSurfaceFE_SEGM.ComputeNDof fe = ([], Ok fe')
    /\ surf_ndof fe' = oi + 1
    /\ surf_order fe' = Z.max 0 oi
    /\ surf_order_inner fe' = oi
    /\ HCurlDivSurfaceFE_SEGM.CalcShape P fe' ip
       = (Ok tt,
          map (fun l => (l, [(s_of_Z (-1) * Value (LegendrePolynomial_Eval P oi arg l))%s]))
              (zrange 0 oi))
    /\ writes_rows (HCurlDivSurfaceFE_SEGM.CalcShape P fe' ip) (surf_ndof fe')
    /\ forallb in_range
         (subscripts (snd (HCurlDivSurfaceFE_SEGM.T_CalcShape P fe' x
                             (fun val => Ok [val])))) = true.
Proof.
  intros x oi arg.
  eexists. split; [reflexivity|].
  cbn [surf_ndof surf_order surf_order_inner]. fold oi.
  split; [lia|]. split; [reflexivity|]. split; [reflexivity|].
  assert (Erun : HCurlDivSurfaceFE_SEGM.T_CalcShape P
                   (mkT_HCurlDivSurfaceFE (0 + (oi + 1)) (max2 0 oi) (surf_vnums fe) oi)
                   x (fun val => Ok [val])
                 = (Ok tt,
                    mkEmitState (Z.of_nat (length (zrange 0 oi)))
                      (map (fun l => (l, [(s_of_Z (-1)
                                           * Value (LegendrePolynomial_Eval P oi arg l))%s]))
                           (zrange 0 oi))
                      (map (fun l => (l, oi + 1)) (zrange 0 oi)) tt)).
  { unfold HCurlDivSurfaceFE_SEGM.T_CalcShape, arg.
    change (surf_vnum (mkT_HCurlDivSurfaceFE (0 + (oi + 1)) (max2 0 oi)
                         (surf_vnums fe) oi))
      with (surf_vnum fe).
    cbn [surf_order_inner].
    destruct (surf_vnum fe 0 >? surf_vnum fe 1); cbv iota beta;
      rewrite segm_loop; cbn [initial ii written subscripts locals app Size Data];
      rewrite zseq_length_zrange, combine_map_self; reflexivity. }
  split.
  { unfold HCurlDivSurfaceFE_SEGM.CalcShape. fold x. rewrite Erun. reflexivity. }
  split.
  { unfold HCurlDivSurfaceFE_SEGM.CalcShape. fold x. rewrite Erun.
    split; [reflexivity|]. cbn [fst snd written].
    rewrite map_map. cbn [fst]. rewrite map_id, zrange_zseq. f_equal. lia. }
  rewrite Erun. cbn [snd subscripts]. apply forallb_forall.
  intros [l n] Hin. apply in_map_iff in Hin. destruct Hin as (l' & E & Hl').
  injection E as <- <-. apply zrange_In in Hl'.
  unfold in_range. cbn [fst snd].
  destruct (Z.leb_spec 0 l'); [|lia]. destruct (Z.ltb_spec l' (oi + 1)); [|lia].
  reflexivity.
Qed.

Section SurfaceTrig.

Context {S : Type} `{Scalar S}.
Variable P : Polynomials S.

Lemma surf_rows_from_emits {R} (fe : T_HCurlDivSurfaceFE) (x y : AutoDiffDiff S 2)
  (shape : Vec S -> result R) (vertices : nat * nat * nat) :
  total shape -> 0 <= surf_order_inner fe <= 6 ->
  writes_rows (rows_of (surf_rows_from P fe x y shape vertices))
              ((surf_order_inner fe + 1) * (surf_order_inner fe + 2)).
Proof.
  intros Ht Hoi. destruct vertices as [[es ee] et]. unfold surf_rows_from.
  apply (emits_writes_rows _ (length (below_double (face_bound (surf_order_inner fe))) * 2)).
  - apply (face_modes _ Hoi).
  - apply emits_for_const. intros l _. repeat emits_step.
Qed.

Lemma surf_rows_from_reads {R} (fe : T_HCurlDivSurfaceFE) (x y : AutoDiffDiff S 2)
  (shape : Vec S -> result R) (vertices : nat * nat * nat) :
  0 <= surf_order_inner fe <= 6 ->
  forallb in_range (subscripts (snd (surf_rows_from P fe x y shape vertices))) = true.
Proof.
  intros Hoi. destruct vertices as [[es ee] et]. unfold surf_rows_from.
  apply (preserves_initial reads_ok); [reflexivity|].
  assert (Hsize : int_of_double (face_bound (surf_order_inner fe))
                  = (surf_order_inner fe + 1) * (surf_order_inner fe + 2) / 2)
    by apply (face_bound_size _ Hoi).
  assert (Hl : forall l, In l (below_double (face_bound (surf_order_inner fe))) ->
                         0 <= l < int_of_double (face_bound (surf_order_inner fe))).
  { intros l Hl. rewrite (proj1 (face_modes _ Hoi)) in Hl.
    apply zrange_In in Hl. rewrite Hsize. lia. }
  repeat reads_ok_step; apply Hl; assumption.
Qed.

Lemma surf_rows_from_sizes (fe : T_HCurlDivSurfaceFE) (x y : AutoDiffDiff S 2)
  (vertices : nat * nat * nat) :
  Forall (fun row => length (snd row) = 2%nat)
         (written (snd (surf_rows_from P fe x y (fun val => Ok val) vertices))).
Proof.
  destruct vertices as [[es ee] et]. unfold surf_rows_from.
  apply (preserves_initial (all_written (fun row : Vec S => length row = 2%nat)));
    [constructor|].
  repeat all_written_step; intros row E; injection E as <-; reflexivity.
Qed.

End SurfaceTrig.

(** X14: on a surface triangle of interior order in 0..6,
    [ComputeNDof] sets [ndof] to [(order_inner+1)*(order_inner+2)] and
    [order] to [order_inner]; [T_CalcShape], hence [CalcShape], returns
    normally and writes exactly the rows [0, ..., ndof-1], of two
    entries each, and each subscript of [ha] lies within its size. *)
Theorem surface_trig_ndof_rows {S} `{Scalar S} (P : Polynomials S)
  (fe : T_HCurlDivSurfaceFE) (ip : list S) :
  0 <= surf_order_inner fe <= 6 ->
  exists fe',
    HCurlDivSurfaceFE_TRIG.ComputeNDof fe = ([], Ok fe')
    /\ surf_ndof fe' = (surf_order_inner fe + 1) * (surf_order_inner fe + 2)
    /\ surf_order fe' = surf_order_inner fe
    /\ surf_order_inner fe' = surf_order_inner fe
    /\ writes_rows (HCurlDivSurfaceFE_TRIG.CalcShape P fe' ip) (surf_ndof fe')
    /\ Forall (fun row => length (snd row) = 2%nat)
              (snd (HCurlDivSurfaceFE_TRIG.CalcShape P fe' ip))
    /\ (forall R (shape : Vec S -> result R) (x y : AutoDiffDiff S 2),
          total shape ->
          writes_rows (rows_of (HCurlDivSurfaceFE_TRIG.T_CalcShape P fe' x y shape))
                      (surf_ndof fe')
          /\ forallb in_range
               (subscripts (snd (HCurlDivSurfaceFE_TRIG.T_CalcShape P fe' x y shape)))
             = true).
Proof.
  intros Hoi. eexists. split; [reflexivity|].
  set (fe' := mkT_HCurlDivSurfaceFE _ _ _ _).
  assert (Hoi' : 0 <= surf_order_inner fe' <= 6) by exact Hoi.
  split; [cbn [surf_ndof fe']; lia|].
  split; [cbn [surf_order fe']; unfold max2; lia|].
  split; [reflexivity|].
  assert (Hrun : forall R (shape : Vec S -> result R) (x y : AutoDiffDiff S 2),
             total shape ->
             writes_rows (rows_of (HCurlDivSurfaceFE_TRIG.T_CalcShape P fe' x y shape))
                         (surf_ndof fe')).
  { intros R shape x y Ht. rewrite surf_T_CalcShape_from.
    replace (surf_ndof fe')
      with ((surf_order_inner fe' + 1) * (surf_order_inner fe' + 2))
      by (cbn [surf_ndof surf_order_inner fe']; lia).
    apply (surf_rows_from_emits P fe' x y shape _ Ht Hoi'). }
  split; [apply (Hrun _ (fun val => Ok val)), total_Ok|].
  split.
  { unfold HCurlDivSurfaceFE_TRIG.CalcShape. cbn [snd].
    rewrite surf_T_CalcShape_from. apply surf_rows_from_sizes. }
  intros R shape x y Ht. split; [apply Hrun, Ht|].
  rewrite surf_T_CalcShape_from. apply (surf_rows_from_reads P fe' x y shape _ Hoi').
Qed.

(** X14, at interior order 2 with vertex numbers (5, 9, 2). *)
Lemma surface_trig_ndof_rows_witness :
  exists fe',
    HCurlDivSurfaceFE_TRIG.ComputeNDof (mkT_HCurlDivSurfaceFE 0 0 [5; 9; 2] 2)
    = ([], Ok fe')
    /\ surf_ndof fe' = 12
    /\ writes_rows (HCurlDivSurfaceFE_TRIG.CalcShape power_polynomials fe' centroid)
                   (surf_ndof fe').
Proof.
  destruct (surface_trig_ndof_rows power_polynomials
              (mkT_HCurlDivSurfaceFE 0 0 [5; 9; 2] 2) centroid)
    as (fe' & E & N & _ & _ & W & _); [cbn; lia|].
  exists fe'. split; [exact E|]. split; [rewrite N; reflexivity | exact W].
Defined.

(** ** Mapped evaluation through the identity map *)

Lemma Forall2_row_of_ext {B R} (shape1 shape2 : B -> result R)
  (blocks : list (Z * B)) (rows1 rows2 : list (Z * R)) :
  (forall val, shape1 val = shape2 val) ->
  Forall2 (row_of shape1) blocks rows1 -> Forall2 (row_of shape2) blocks rows2 ->
  rows1 = rows2.
Proof.
  intros Hext F1. revert rows2.
  induction F1 as [|p q1 l r1 [N1 E1] _ IH]; intros rows2 F2;
    inversion F2 as [|? q2 ? r2 [N2 E2] F2']; subst; [reflexivity|].
  f_equal; [|apply IH, F2'].
  rewrite Hext, E2 in E1. injection E1 as E1.
  destruct q1, q2; cbn in *; congruence.
Qed.

Lemma VecToMat_Shape_TrigShape {S} `{Scalar S} (val : TrigShape S) :
  VecToMat 2 (Shape val) = Shape val.
Proof. destruct val; reflexivity. Qed.

Lemma VecToMat_Shape_TetShape {S} `{Scalar S} (val : TetShape S) :
  VecToMat 3 (Shape val) = Shape val.
Proof. destruct val; reflexivity. Qed.

Section CallbackExt.

Context {S : Type} `{Scalar S}.
Variable P : Polynomials S.
Variable T : ElementTopology.

(** Two total callbacks that agree on every value give the same
    outcome and the same rows. *)
Lemma trig_callback_ext {R} (fe : T_HCurlDivFE) (x y : AutoDiffDiff S 2)
  (shape1 shape2 : TrigShape S -> result R) :
  total shape1 -> (forall val, shape1 val = shape2 val) ->
  rows_of (HCurlDivFE_TRIG.T_CalcShape P T fe x y shape1)
  = rows_of (HCurlDivFE_TRIG.T_CalcShape P T fe x y shape2).
Proof.
  intros Ht Hext.
  assert (Ht2 : total shape2).
  { intros val. destruct (Ht val) as [row E]. exists row. now rewrite <- Hext. }
  destruct (tracks_initial shape1 _ _ tt (trig_body_tracks P T fe x y shape1 Ht))
    as (E1 & F1 & _).
  destruct (tracks_initial shape2 _ _ tt (trig_body_tracks P T fe x y shape2 Ht2))
    as (E2 & F2 & _).
  unfold rows_of, HCurlDivFE_TRIG.T_CalcShape. f_equal.
  - now rewrite <- E1, E2.
  - apply (Forall2_row_of_ext shape1 shape2 _ _ _ Hext F1 F2).
Qed.

Lemma tet_callback_ext {R} (fe : T_HCurlDivFE) (x y z : AutoDiffDiff S 3)
  (shape1 shape2 : TetShape S -> result R) :
  total shape1 -> (forall val, shape1 val = shape2 val) ->
  rows_of (HCurlDivFE_TET.T_CalcShape P T fe x y z shape1)
  = rows_of (HCurlDivFE_TET.T_CalcShape P T fe x y z shape2).
Proof.
  intros Ht Hext.
  assert (Ht2 : total shape2).
  { intros val. destruct (Ht val) as [row E]. exists row. now rewrite <- Hext. }
  destruct (tracks_initial shape1 _ _ (mkJacobiLocals 1 0)
              (tet_body_tracks P T fe x y z shape1 Ht)) as (E1 & F1 & _).
  destruct (tracks_initial shape2 _ _ (mkJacobiLocals 1 0)
              (tet_body_tracks P T fe x y z shape2 Ht2)) as (E2 & F2 & _).
  unfold rows_of, HCurlDivFE_TET.T_CalcShape. f_equal.
  - now rewrite <- E1, E2.
  - apply (Forall2_row_of_ext shape1 shape2 _ _ _ Hext F1 F2).
Qed.

End CallbackExt.

(** X15: through the identity map, the mapped evaluations are the
    reference evaluations.  For a mapped point whose Jacobian rows are
    the unit vectors, [CalcMappedShape] writes the rows of [CalcShape]
    at the same point, [VecToMat] copying all 4 (triangle) or 9
    (tetrahedron) entries of [Shape()], and on a non-curved element
    [CalcMappedDivShape] writes the rows of [CalcDivShape]. *)
Theorem CalcMapped_identity_map {S} `{Scalar S} (P : Polynomials S)
  (T : ElementTopology) (fe : T_HCurlDivFE) (mip2 mip3 : MappedIntegrationPoint S) :
  mip_jacobian_rows mip2 = [[1; 0]; [0; 1]]%s ->
  mip_jacobian_rows mip3 = [[1; 0; 0]; [0; 1; 0]; [0; 0; 1]]%s ->
  CalcMappedShape (HCurlDivFE_ET_TRIG P T) fe mip2
  = CalcShape (HCurlDivFE_ET_TRIG P T) fe (mip_point mip2)
  /\ CalcMappedShape (HCurlDivFE_ET_TET P T) fe mip3
     = CalcShape (HCurlDivFE_ET_TET P T) fe (mip_point mip3)
  /\ (IsCurvedElement mip2 = false ->
      CalcMappedDivShape (HCurlDivFE_ET_TRIG P T) fe mip2
      = CalcDivShape (HCurlDivFE_ET_TRIG P T) fe (mip_point mip2))
  /\ (IsCurvedElement mip3 = false ->
      CalcMappedDivShape (HCurlDivFE_ET_TET P T) fe mip3
      = CalcDivShape (HCurlDivFE_ET_TET P T) fe (mip_point mip3)).
Proof.
  intros J2 J3.
  assert (E2 : mapped_point 2 mip2 = reference_point 2 (mip_point mip2)).
  { unfold mapped_point, mip_to_AutoDiff. rewrite J2. reflexivity. }
  assert (E3 : mapped_point 3 mip3 = reference_point 3 (mip_point mip3)).
  { unfold mapped_point, mip_to_AutoDiff. rewrite J3. reflexivity. }
  split.
  { unfold CalcMappedShape, CalcShape.
    change (DIM (ElementType (HCurlDivFE_ET_TRIG P T))) with 2%nat. rewrite E2.
    apply (trig_callback_ext P T fe _ _
             (fun val => Ok (VecToMat 2 (Shape val))) (fun val => Ok (Shape val))).
    - apply total_Ok.
    - intros val. f_equal. apply VecToMat_Shape_TrigShape. }
  split.
  { unfold CalcMappedShape, CalcShape.
    change (DIM (ElementType (HCurlDivFE_ET_TET P T))) with 3%nat. rewrite E3.
    apply (tet_callback_ext P T fe _ _ _
             (fun val => Ok (VecToMat 3 (Shape val))) (fun val => Ok (Shape val))).
    - apply total_Ok.
    - intros val. f_equal. apply VecToMat_Shape_TetShape. }
  split.
  - intros Hc. unfold CalcMappedDivShape, CalcDivShape. rewrite Hc.
    change (DIM (ElementType (HCurlDivFE_ET_TRIG P T))) with 2%nat.
    rewrite E2. reflexivity.
  - intros Hc. unfold CalcMappedDivShape, CalcDivShape. rewrite Hc.
    change (DIM (ElementType (HCurlDivFE_ET_TET P T))) with 3%nat.
    rewrite E3. reflexivity.
Qed.

(** X15, at the centroid of the triangle and the barycentre of the
    tetrahedron. *)
Lemma CalcMapped_identity_map_witness :
  CalcMappedShape (HCurlDivFE_ET_TRIG power_polynomials opposite_topology)
    (trig_fe 1 2 0 2 false)
    (mkMappedIntegrationPoint [1 # 3; 1 # 3]%Q [[1; 0]; [0; 1]]%Q [] false)
  = CalcShape (HCurlDivFE_ET_TRIG power_polynomials opposite_topology)
      (trig_fe 1 2 0 2 false) [1 # 3; 1 # 3]%Q
  /\ CalcMappedShape (HCurlDivFE_ET_TET power_polynomials opposite_topology)
       (tet_fe 1 0 1 1 1 false)
       (mkMappedIntegrationPoint [1 # 4; 1 # 4; 1 # 4]%Q
          [[1; 0; 0]; [0; 1; 0]; [0; 0; 1]]%Q [] false)
     = CalcShape (HCurlDivFE_ET_TET power_polynomials opposite_topology)
         (tet_fe 1 0 1 1 1 false) [1 # 4; 1 # 4; 1 # 4]%Q.
Proof.
  destruct (@CalcMapped_identity_map Q Scalar_Q power_polynomials opposite_topology
              (trig_fe 1 2 0 2 false)
              (mkMappedIntegrationPoint [1 # 3; 1 # 3]%Q [[1; 0]; [0; 1]]%Q [] false)
              (mkMappedIntegrationPoint [1 # 4; 1 # 4; 1 # 4]%Q
                 [[1; 0; 0]; [0; 1; 0]; [0; 0; 1]]%Q [] false)
              eq_refl eq_refl) as (E2 & _ & _ & _).
  destruct (@CalcMapped_identity_map Q Scalar_Q power_polynomials opposite_topology
              (tet_fe 1 0 1 1 1 false)
              (mkMappedIntegrationPoint [1 # 3; 1 # 3]%Q [[1; 0]; [0; 1]]%Q [] false)
              (mkMappedIntegrationPoint [1 # 4; 1 # 4; 1 # 4]%Q
                 [[1; 0; 0]; [0; 1; 0]; [0; 0; 1]]%Q [] false)
              eq_refl eq_refl) as (_ & E3 & _ & _).
  split; [exact E2 | exact E3].
Defined.

(** ** The index arithmetic in [double] *)

Lemma list_Z_eqb_eq (a b : list Z) : list_Z_eqb a b = true -> a = b.
Proof.
  unfold list_Z_eqb. revert b.
  induction a as [|x a IH]; intros [|y b] E; cbn in E; try discriminate;
    [reflexivity|].
  apply andb_true_iff in E. destruct E as [El E].
  apply andb_true_iff in E. destruct E as [Exy E].
  apply Z.eqb_eq in Exy. cbn in Exy. subst y. f_equal.
  apply IH. now rewrite El, E.
Qed.

Lemma index_arithmetic_checked :
  forallb index_arithmetic_exact (zrange 0 50) = true.
Proof. vm_compute. reflexivity. Qed.

Lemma index_arithmetic_to_50 (p : Z) :
  0 <= p <= 50 ->
  6 * HCurlDivFE_TET.ninner p
  = (p + 1) * (p + 2) * (p + 3) + 8 * ((p + 2) * (p + 1) * p)
  /\ 2 * int_of_double (face_bound p) = (p + 1) * (p + 2)
  /\ below_double (face_bound p) = zrange 0 (int_of_double (face_bound p) - 1).
Proof.
  intros Hp. pose proof index_arithmetic_checked as Hall.
  rewrite forallb_forall in Hall.
  specialize (Hall p (proj2 (zrange_In 0 50 p) Hp)).
  unfold index_arithmetic_exact in Hall.
  apply andb_true_iff in Hall. destruct Hall as [Hall H3].
  apply andb_true_iff in Hall. destruct Hall as [H1 H2].
  apply Z.eqb_eq in H1. apply Z.eqb_eq in H2. apply list_Z_eqb_eq in H3.
  auto.
Qed.

Lemma consecutive3_div6 (p : Z) :
  exists a, (p + 1) * (p + 2) * (p + 3) = 6 * a.
Proof.
  assert (Hm : ((p + 1) * (p + 2) * (p + 3)) mod 6 = 0).
  { rewrite Z.mul_mod, (Z.mul_mod (p + 1)) by lia.
    rewrite <- !(Z.add_mod_idemp_l p) by lia.
    pose proof (Z.mod_pos_bound p 6 ltac:(lia)) as Hr.
    set (r := p mod 6) in *. clearbody r.
    assert (Hc : r = 0 \/ r = 1 \/ r = 2 \/ r = 3 \/ r = 4 \/ r = 5) by lia.
    destruct Hc as [->|[->|[->|[->|[->| ->]]]]]; reflexivity. }
  exists ((p + 1) * (p + 2) * (p + 3) / 6).
  pose proof (Z.div_mod ((p + 1) * (p + 2) * (p + 3)) 6 ltac:(lia)). lia.
Qed.

(** X16: for every order from 0 to 50 the expressions that the
    tetrahedron and the surface triangle evaluate in [double] are
    exact: the interior count [ninner] is
    [C(oi+3,3) + 8*C(oi+2,3)], the size of [ha] for the order [p] is
    [(p+1)*(p+2)/2], and the loop [l < (p+1)*(p+2)/2.0] visits
    exactly [0, ..., (p+1)*(p+2)/2 - 1], so that no degree of freedom
    is lost to rounding or truncation. *)
Theorem double_index_arithmetic_exact (p : Z) :
  0 <= p <= 50 ->
  6 * HCurlDivFE_TET.ninner p
  = (p + 1) * (p + 2) * (p + 3) + 8 * ((p + 2) * (p + 1) * p)
  /\ HCurlDivFE_TET.ninner p
     = (p + 1) * (p + 2) * (p + 3) / 6 + 8 * ((p + 2) * (p + 1) * p / 6)
  /\ int_of_double (face_bound p) = (p + 1) * (p + 2) / 2
  /\ below_double (face_bound p) = zrange 0 ((p + 1) * (p + 2) / 2 - 1)
  /\ Z.of_nat (length (below_double (face_bound p))) * 2 = (p + 1) * (p + 2).
Proof.
  intros Hp. destruct (index_arithmetic_to_50 p Hp) as (H1 & H2 & H3).
  assert (Hsize : int_of_double (face_bound p) = (p + 1) * (p + 2) / 2).
  { apply (Z.div_unique_exact _ 2); lia. }
  destruct (consecutive3_div6 p) as [a Ea].
  assert (Eb : (p + 2) * (p + 1) * p = 6 * (a - int_of_double (face_bound p)))
    by nia.
  split; [exact H1|].
  split.
  { rewrite Ea, Eb, !(Z.mul_comm 6), !Z.div_mul by lia. lia. }
  split; [exact Hsize|].
  split; [rewrite H3, Hsize; reflexivity|].
  rewrite H3, zrange_length. nia.
Qed.

(** X16, at the order 50. *)
Lemma double_index_arithmetic_exact_witness :
  HCurlDivFE_TET.ninner 50 = 51 * 52 * 53 / 6 + 8 * (52 * 51 * 50 / 6)
  /\ int_of_double (face_bound 50) = 51 * 52 / 2.
Proof.
  destruct (double_index_arithmetic_exact 50) as (_ & N & Hs & _); [lia|].
  split; [exact N | exact Hs].
Defined.

(** ** Elements of uniform order *)

(** X17: an element built by the constructor with the uniform order
    [p] and no [plus] has, after [ComputeNDof], as many degrees of
    freedom as there are matrix-valued polynomials of degree [p]:
    [4 * C(p+2,2) = 2*(p+1)*(p+2)] on the triangle (every [p >= 0])
    and [9 * C(p+3,3)] on the tetrahedron ([p] up to 50), and [order]
    is [p]; on the tetrahedron [plus] changes nothing. *)
Theorem uniform_order_ndof (n0 : Z) (vn : list Z) (p : Z) (pl : bool) :
  0 <= p <= 50 ->
  (exists fe',
      HCurlDivFE_TRIG.ComputeNDof (T_HCurlDivFE_new ET_TRIG n0 vn p false)
      = ([], Ok fe')
      /\ ndof fe' = 2 * (p + 1) * (p + 2)
      /\ order fe' = p)
  /\ (exists fe',
        HCurlDivFE_TET.ComputeNDof (T_HCurlDivFE_new ET_TET n0 vn p pl)
        = ([], Ok fe')
        /\ 2 * ndof fe' = 3 * ((p + 1) * (p + 2) * (p + 3))
        /\ ndof fe' = 9 * ((p + 1) * (p + 2) * (p + 3) / 6)
        /\ order fe' = p).
Proof.
  intros Hp. split.
  - rewrite trig_ComputeNDof_eq. eexists. split; [reflexivity|].
    cbn [ndof order set_ndof_order plus order_inner T_HCurlDivFE_new].
    change (facet (T_HCurlDivFE_new ET_TRIG n0 vn p false) 0) with p.
    change (facet (T_HCurlDivFE_new ET_TRIG n0 vn p false) 1) with p.
    change (facet (T_HCurlDivFE_new ET_TRIG n0 vn p false) 2) with p.
    unfold max2. split; lia.
  - rewrite tet_ComputeNDof_eq. eexists. split; [reflexivity|].
    cbn [ndof order set_ndof_order order_inner T_HCurlDivFE_new].
    change (facet (T_HCurlDivFE_new ET_TET n0 vn p pl) 0) with p.
    change (facet (T_HCurlDivFE_new ET_TET n0 vn p pl) 1) with p.
    change (facet (T_HCurlDivFE_new ET_TET n0 vn p pl) 2) with p.
    change (facet (T_HCurlDivFE_new ET_TET n0 vn p pl) 3) with p.
    destruct (index_arithmetic_to_50 p Hp) as (H1 & _ & _).
    destruct (consecutive3_div6 p) as [a Ea].
    rewrite Ea, (Z.mul_comm 6 a), Z.div_mul by lia.
    unfold max2. repeat split; lia.
Qed.

(** X17, at the order 2: 24 degrees of freedom on the triangle and 90
    on the tetrahedron. *)
Lemma uniform_order_ndof_witness :
  (exists fe',
      HCurlDivFE_TRIG.ComputeNDof (T_HCurlDivFE_new ET_TRIG 0 [0; 1; 2] 2 false)
      = ([], Ok fe') /\ ndof fe' = 24)
  /\ (exists fe',
        HCurlDivFE_TET.ComputeNDof (T_HCurlDivFE_new ET_TET 0 [0; 1; 2; 3] 2 false)
        = ([], Ok fe') /\ ndof fe' = 90).
Proof.
  destruct (uniform_order_ndof 0 [0; 1; 2] 2 false) as [(f2 & E2 & N2 & _) _];
    [lia|].
  destruct (uniform_order_ndof 0 [0; 1; 2; 3] 2 false)
    as [_ (f3 & E3 & _ & N3 & _)]; [lia|].
  split; [exists f2 | exists f3]; (split; [assumption|]).
  - rewrite N2. reflexivity.
  - rewrite N3. reflexivity.
Defined.

(** ** The Jacobi object [jac1] across the two interior families *)

Section AdvancesJac1.

Context {R : Type}.

Lemma advances_ret {A} (a : A) : advances_jac1 (R:=R) (ret a) 0.
Proof. intros s. exists a, s. split; [reflexivity|lia]. Qed.

Lemma advances_bind {A B} (m : M R JacobiLocals A) (k : A -> M R JacobiLocals B)
  (d1 d2 : Z) :
  advances_jac1 m d1 -> (forall a, advances_jac1 (k a) d2) ->
  advances_jac1 (bind m k) (d1 + d2).
Proof.
  intros Hm Hk s.
  destruct (Hm s) as (a & s1 & E1 & J1).
  destruct (Hk a s1) as (b & s2 & E2 & J2).
  exists b, s2. unfold bind. rewrite E1, E2. split; [reflexivity|lia].
Qed.

Lemma advances_bind0 {A B} (m : M R JacobiLocals A) (k : A -> M R JacobiLocals B)
  (d : Z) :
  advances_jac1 m 0 -> (forall a, advances_jac1 (k a) d) ->
  advances_jac1 (bind m k) d.
Proof. intros Hm Hk. apply (advances_bind m k 0 d Hm Hk). Qed.

Lemma advances_for {X} (xs : list X) (body : X -> M R JacobiLocals unit) (d : Z) :
  (forall x, advances_jac1 (body x) d) ->
  advances_jac1 (for_ xs body) (Z.of_nat (length xs) * d).
Proof.
  intros Hb. induction xs as [|x r IH]; cbn [for_ length].
  - apply advances_ret.
  - replace (Z.of_nat (Datatypes.S (length r)) * d)
      with (d + Z.of_nat (length r) * d) by lia.
    apply advances_bind; [apply Hb | intros _; exact IH].
Qed.

Lemma advances_for0 {X} (xs : list X) (body : X -> M R JacobiLocals unit) :
  (forall x, advances_jac1 (body x) 0) -> advances_jac1 (for_ xs body) 0.
Proof.
  intros Hb. replace 0 with (Z.of_nat (length xs) * 0) by lia.
  apply advances_for. exact Hb.
Qed.

Lemma advances_emit {B} (shape : B -> result R) (val : B) :
  total shape -> advances_jac1 (emit shape val) 0.
Proof.
  intros Ht s. destruct (Ht val) as [row E]. unfold emit. rewrite E.
  eexists tt, _. split; [reflexivity|]. cbn. lia.
Qed.

Lemma advances_set_jac2 (a : Z) : advances_jac1 (HCurlDivFE_TET.set_jac2 (R:=R) a) 0.
Proof. intros s. eexists _, _. split; [reflexivity|]. cbn. lia. Qed.

Lemma advances_get_jac1 : advances_jac1 (HCurlDivFE_TET.get_jac1 (R:=R)) 0.
Proof. intros s. eexists _, _. split; [reflexivity|]. cbn. lia. Qed.

Lemma advances_get_jac2 : advances_jac1 (HCurlDivFE_TET.get_jac2 (R:=R)) 0.
Proof. intros s. eexists _, _. split; [reflexivity|]. cbn. lia. Qed.

Lemma advances_jac1_IncAlpha2 :
  advances_jac1 (HCurlDivFE_TET.jac1_IncAlpha2 (R:=R)) 2.
Proof. intros s. eexists _, _. split; [reflexivity|]. cbn. lia. Qed.

Lemma advances_jac2_IncAlpha2 :
  advances_jac1 (HCurlDivFE_TET.jac2_IncAlpha2 (R:=R)) 0.
Proof. intros s. eexists _, _. split; [reflexivity|]. cbn. lia. Qed.

Lemma advances_subscript {S D} (a : ArrayMem S D) (l : Z) :
  advances_jac1 (subscript (R:=R) a l) 0.
Proof. intros s. eexists _, _. split; [reflexivity|]. cbn. lia. Qed.

End AdvancesJac1.

Section Jac1.

Context {S : Type} `{Scalar S}.
Variable P : Polynomials S.
Variable T : ElementTopology.

Lemma interior_advances {R} (n : Z) (ls le lt lo : AutoDiffDiff S 3)
  (inner : AutoDiffDiff S 3 -> M R JacobiLocals unit) :
  (forall val, advances_jac1 (inner val) 0) ->
  advances_jac1 (HCurlDivFE_TET.interior P n ls le lt lo inner)
                (2 * Z.of_nat (length (zrange 0 n))).
Proof.
  intros Hinner. unfold HCurlDivFE_TET.interior, callback_eval.
  rewrite (Z.mul_comm 2). apply advances_for. intros k.
  apply advances_bind0; [apply advances_set_jac2 | intros _].
  apply advances_bind0; [apply advances_get_jac1 | intros a1].
  apply (advances_bind _ _ 0 2); [|intros _; apply advances_jac1_IncAlpha2].
  apply advances_for0. intros j.
  apply advances_bind0; [apply advances_get_jac2 | intros a2].
  apply (advances_bind _ _ 0 0); [|intros _; apply advances_jac2_IncAlpha2].
  apply advances_for0. intros l. apply Hinner.
Qed.

Lemma tet_body_advances {R} (fe : T_HCurlDivFE) (x y z : AutoDiffDiff S 3)
  (shape : TetShape S -> result R) :
  total shape ->
  advances_jac1 (HCurlDivFE_TET.T_CalcShape_body P T fe x y z shape)
    (2 * Z.of_nat (length (zrange 0 (order_inner fe)))
     + 2 * Z.of_nat (length (zrange 0 (order_inner fe - 1)))).
Proof.
  intros Ht. unfold HCurlDivFE_TET.T_CalcShape_body.
  apply advances_bind0.
  { apply advances_for0. intros fa.
    destruct (vnum fe (GetFaces_TET T fa 0) >? vnum fe (GetFaces_TET T fa 1));
      match goal with
      | |- context [if ?c then _ else _] => destruct c
      end;
      match goal with
      | |- context [if ?c then _ else _] => destruct c
      end;
      apply advances_for0; intros l;
      (apply advances_bind0; [apply advances_subscript | intros h]);
      (apply advances_bind0; [apply advances_emit, Ht | intros _]);
      (apply advances_bind0; [apply advances_subscript | intros h']);
      apply advances_emit, Ht. }
  intros _. apply advances_bind.
  - apply interior_advances. intros val. apply advances_emit, Ht.
  - intros _. apply interior_advances. intros val.
    repeat (apply advances_bind0; [apply advances_emit, Ht | intros _]).
    apply advances_emit, Ht.
Qed.

End Jac1.

(** X18: the Jacobi object [jac1] of the tetrahedron is created once,
    with [alpha = 1], and shared by the two interior families; with
    [IncAlpha2] advancing [alpha] by two, every outer index of either
    family advances it once and nothing resets it: a recursion of
    degree [n] leaves [alpha] advanced by [2*(n+1)], so that for
    [order_inner >= 0] the second family starts from
    [alpha = 2*order_inner + 3] and the evaluation ends with
    [alpha = 4*order_inner + 3]. *)
Theorem tet_jac1_carried_over {S} `{Scalar S} (P : Polynomials S)
  (T : ElementTopology) {R} (fe : T_HCurlDivFE) (x y z : AutoDiffDiff S 3)
  (shape : TetShape S -> result R) :
  total shape ->
  (forall (n : Z) (ls le lt lo : AutoDiffDiff S 3)
          (inner : AutoDiffDiff S 3 -> M R JacobiLocals unit),
      (forall val, advances_jac1 (inner val) 0) ->
      advances_jac1 (HCurlDivFE_TET.interior P n ls le lt lo inner)
                    (2 * Z.max 0 (n + 1)))
  /\ jac1 (locals (snd (HCurlDivFE_TET.T_CalcShape P T fe x y z shape)))
     = 1 + 2 * Z.max 0 (order_inner fe + 1) + 2 * Z.max 0 (order_inner fe)
  /\ (0 <= order_inner fe ->
      jac1 (locals (snd (HCurlDivFE_TET.T_CalcShape P T fe x y z shape)))
      = 4 * order_inner fe + 3).
Proof.
  intros Ht.
  assert (Hlen : forall n, Z.of_nat (length (zrange 0 n)) = Z.max 0 (n + 1)).
  { intros n. rewrite zrange_length. lia. }
  assert (Hfinal : jac1 (locals (snd (HCurlDivFE_TET.T_CalcShape P T fe x y z shape)))
                   = 1 + 2 * Z.max 0 (order_inner fe + 1)
                     + 2 * Z.max 0 (order_inner fe)).
  { unfold HCurlDivFE_TET.T_CalcShape.
    destruct (tet_body_advances P T fe x y z shape Ht (initial (mkJacobiLocals 1 0)))
      as (a & s' & E & J).
    rewrite E. cbn [snd]. rewrite J, !Hlen. cbn [initial locals jac1].
    replace (order_inner fe - 1 + 1) with (order_inner fe) by lia. lia. }
  split.
  { intros n ls le lt lo inner Hinner. rewrite <- Hlen.
    apply interior_advances, Hinner. }
  split; [exact Hfinal|].
  intros Hoi. rewrite Hfinal. lia.
Qed.

(** X18, at the interior order 2. *)
Lemma tet_jac1_carried_over_witness :
  jac1 (locals (snd (HCurlDivFE_TET.T_CalcShape power_polynomials opposite_topology
                       (tet_fe 1 0 1 1 2 false)
                       (ADD_var 3 (1 # 4)%Q 0) (ADD_var 3 (1 # 4)%Q 1)
                       (ADD_var 3 (1 # 4)%Q 2) (fun val => Ok (Shape val)))))
  = 11.
Proof.
  destruct (tet_jac1_carried_over power_polynomials opposite_topology
              (tet_fe 1 0 1 1 2 false)
              (ADD_var 3 (1 # 4)%Q 0) (ADD_var 3 (1 # 4)%Q 1) (ADD_var 3 (1 # 4)%Q 2)
              (fun val => Ok (Shape val)) (total_Ok _)) as (_ & _ & Hfin).
  rewrite Hfin; [reflexivity | cbn; lia].
Defined.

(** ** The size of the rows *)

Section RowSizes.

Context {S : Type} `{Scalar S}.
Variable P : Polynomials S.
Variable T : ElementTopology.

Lemma trig_body_all_written {R} (Pv : R -> Prop) (fe : T_HCurlDivFE)
  (x y : AutoDiffDiff S 2) (shape : TrigShape S -> result R) :
  (forall val row, shape val = Ok row -> Pv row) ->
  preserves (all_written Pv) (HCurlDivFE_TRIG.T_CalcShape_body P T fe x y shape).
Proof.
  intros Hshape.
  unfold HCurlDivFE_TRIG.T_CalcShape_body, HCurlDivFE_TRIG.T_CalcShape_regular,
    HCurlDivFE_TRIG.inner_pairs.
  repeat all_written_step; apply Hshape.
Qed.

Lemma tet_body_all_written {R} (Pv : R -> Prop) (fe : T_HCurlDivFE)
  (x y z : AutoDiffDiff S 3) (shape : TetShape S -> result R) :
  (forall val row, shape val = Ok row -> Pv row) ->
  preserves (all_written Pv) (HCurlDivFE_TET.T_CalcShape_body P T fe x y z shape).
Proof.
  intros Hshape.
  unfold HCurlDivFE_TET.T_CalcShape_body, HCurlDivFE_TET.interior,
    HCurlDivFE_TET.set_jac2, HCurlDivFE_TET.get_jac1, HCurlDivFE_TET.get_jac2,
    HCurlDivFE_TET.jac1_IncAlpha2, HCurlDivFE_TET.jac2_IncAlpha2.
  repeat all_written_step; apply Hshape.
Qed.

End RowSizes.

Lemma Shape_TetShape_length {S} `{Scalar S} (val : TetShape S) :
  length (Shape val) = 9%nat.
Proof. destruct val; reflexivity. Qed.

Lemma DivShape_TetShape_length {S} `{Scalar S} (val : TetShape S) (d : Vec S) :
  DivShape val = Ok d -> length d = 3%nat.
Proof. destruct val; cbn; intros E; injection E as <-; reflexivity. Qed.

(** X19: whatever the element, the point and the outcome, every row
    written by [CalcShape] and [CalcMappedShape] has [DIM*DIM] entries
    (4 on the triangle, 9 on the tetrahedron) and every row written by
    [CalcDivShape] and [CalcMappedDivShape] has [DIM] entries (2, 3), so
    that a matrix of these widths receives them. *)
Theorem row_sizes {S} `{Scalar S} (P : Polynomials S) (T : ElementTopology)
  (fe : T_HCurlDivFE) (ip : list S) (mip : MappedIntegrationPoint S) :
  let trig := HCurlDivFE_ET_TRIG P T in
  let tet := HCurlDivFE_ET_TET P T in
  let rows_of_size n (r : Rows) := Forall (fun row => length (snd row) = n) (snd r) in
  rows_of_size 4%nat (CalcShape trig fe ip)
  /\ rows_of_size 2%nat (CalcDivShape trig fe ip)
  /\ rows_of_size 4%nat (CalcMappedShape trig fe mip)
  /\ rows_of_size 2%nat (CalcMappedDivShape trig fe mip)
  /\ rows_of_size 9%nat (CalcShape tet fe ip)
  /\ rows_of_size 3%nat (CalcDivShape tet fe ip)
  /\ rows_of_size 9%nat (CalcMappedShape tet fe mip)
  /\ rows_of_size 3%nat (CalcMappedDivShape tet fe mip).
Proof.
  intros trig tet rows_of_size. unfold rows_of_size.
  assert (Htrig : forall n (shape : TrigShape S -> result (Vec S)) x y,
             (forall val row, shape val = Ok row -> length row = n) ->
             Forall (fun row => length (snd row) = n)
                    (written (snd (HCurlDivFE_TRIG.T_CalcShape P T fe x y shape)))).
  { intros n shape x y Hshape. unfold HCurlDivFE_TRIG.T_CalcShape.
    apply (preserves_initial (all_written (fun row : Vec S => length row = n)));
      [constructor|].
    apply trig_body_all_written, Hshape. }
  assert (Htet : forall n (shape : TetShape S -> result (Vec S)) x y z,
             (forall val row, shape val = Ok row -> length row = n) ->
             Forall (fun row => length (snd row) = n)
                    (written (snd (HCurlDivFE_TET.T_CalcShape P T fe x y z shape)))).
  { intros n shape x y z Hshape. unfold HCurlDivFE_TET.T_CalcShape.
    apply (preserves_initial (all_written (fun row : Vec S => length row = n)));
      [constructor|].
    apply tet_body_all_written, Hshape. }
  split; [apply Htrig; intros val row E; injection E as <-;
          apply Shape_TrigShape_length|].
  split; [apply Htrig; intros val row E;
          apply (DivShape_TrigShape_length val row E)|].
  split; [apply Htrig; intros val row E; injection E as <-; reflexivity|].
  split.
  { unfold CalcMappedDivShape. destruct (IsCurvedElement mip); cbn [negb];
      [constructor|].
    apply Htrig. intros val row E. apply (DivShape_TrigShape_length val row E). }
  split; [apply Htet; intros val row E; injection E as <-;
          apply Shape_TetShape_length|].
  split; [apply Htet; intros val row E;
          apply (DivShape_TetShape_length val row E)|].
  split; [apply Htet; intros val row E; injection E as <-; reflexivity|].
  unfold CalcMappedDivShape. destruct (IsCurvedElement mip); cbn [negb];
    [constructor|].
  apply Htet. intros val row E. apply (DivShape_TetShape_length val row E).
Qed.

(** ** Changing the orders *)

Lemma nth_list_set_eq {A} (l : list A) (k : nat) (x d : A) :
  (k < length l)%nat -> nth k (list_set l k x) d = x.
Proof.
  revert k. induction l as [|a r IH]; intros k Hk; cbn in Hk; [lia|].
  destruct k as [|k]; cbn; [reflexivity|]. apply IH. lia.
Qed.

Lemma nth_list_set_neq {A} (l : list A) (k i : nat) (x d : A) :
  i <> k -> nth i (list_set l k x) d = nth i l d.
Proof.
  revert k i. induction l as [|a r IH]; intros k i Hik; [reflexivity|].
  destruct k as [|k], i as [|i]; cbn; try reflexivity; try contradiction.
  apply IH. congruence.
Qed.

Lemma length_list_set {A} (l : list A) (k : nat) (x : A) :
  length (list_set l k x) = length l.
Proof.
  revert k. induction l as [|a r IH]; intros k; [reflexivity|].
  destruct k; cbn; [reflexivity|]. now rewrite IH.
Qed.

(** X20: [SetOrderFacet(nr, o)] on a facet number replaces that facet
    order and nothing else, and [ComputeNDof] afterwards differs from
    [ComputeNDof] before by the degrees of freedom of that facet alone:
    [o - order_facet[nr]] on the triangle and
    [(o+1)*(o+2) - (order_facet[nr]+1)*(order_facet[nr]+2)] on the
    tetrahedron; [SetOrderInner] leaves the facet orders alone. *)
Theorem SetOrderFacet_ndof (fe : T_HCurlDivFE) (nr : nat) (o : Z) :
  (nr < length (order_facet fe))%nat ->
  facet (SetOrderFacet fe nr o) nr = o
  /\ (forall i, i <> nr -> facet (SetOrderFacet fe nr o) i = facet fe i)
  /\ length (order_facet (SetOrderFacet fe nr o)) = length (order_facet fe)
  /\ (forall i, facet (SetOrderInner fe o) i = facet fe i)
  /\ order_inner (SetOrderInner fe o) = o
  /\ ((nr < 3)%nat ->
      exists f1 f2,
        HCurlDivFE_TRIG.ComputeNDof fe = ([], Ok f1)
        /\ HCurlDivFE_TRIG.ComputeNDof (SetOrderFacet fe nr o) = ([], Ok f2)
        /\ ndof f2 = ndof f1 + (o - facet fe nr))
  /\ ((nr < 4)%nat ->
      exists f1 f2,
        HCurlDivFE_TET.ComputeNDof fe = ([], Ok f1)
        /\ HCurlDivFE_TET.ComputeNDof (SetOrderFacet fe nr o) = ([], Ok f2)
        /\ ndof f2 = ndof f1 + ((o + 1) * (o + 2)
                                - (facet fe nr + 1) * (facet fe nr + 2))).
Proof.
  intros Hnr.
  assert (Heq : facet (SetOrderFacet fe nr o) nr = o)
    by (apply nth_list_set_eq, Hnr).
  assert (Hneq : forall i, i <> nr -> facet (SetOrderFacet fe nr o) i = facet fe i)
    by (intros i Hi; apply nth_list_set_neq, Hi).
  split; [exact Heq|]. split; [exact Hneq|].
  split; [apply length_list_set|].
  split; [reflexivity|]. split; [reflexivity|].
  split.
  - intros H3. rewrite !trig_ComputeNDof_eq. do 2 eexists.
    split; [reflexivity|]. split; [reflexivity|].
    cbn [ndof set_ndof_order].
    change (plus (SetOrderFacet fe nr o)) with (plus fe).
    change (order_inner (SetOrderFacet fe nr o)) with (order_inner fe).
    destruct nr as [|[|[|nr]]]; try lia;
      rewrite Heq, !Hneq by discriminate; destruct (plus fe); lia.
  - intros H4. rewrite !tet_ComputeNDof_eq. do 2 eexists.
    split; [reflexivity|]. split; [reflexivity|].
    cbn [ndof set_ndof_order].
    change (order_inner (SetOrderFacet fe nr o)) with (order_inner fe).
    destruct nr as [|[|[|[|nr]]]]; try lia;
      rewrite Heq, !Hneq by discriminate; lia.
Qed.

(** X20, at the triangle of orders (1, 2, 0) whose edge 1 is given the
    order 5. *)
Lemma SetOrderFacet_ndof_witness :
  facet (SetOrderFacet (trig_fe 1 2 0 3 false) 1 5) 1 = 5
  /\ exists f1 f2,
       HCurlDivFE_TRIG.ComputeNDof (trig_fe 1 2 0 3 false) = ([], Ok f1)
       /\ HCurlDivFE_TRIG.ComputeNDof (SetOrderFacet (trig_fe 1 2 0 3 false) 1 5)
          = ([], Ok f2)
       /\ ndof f2 = ndof f1 + 3.
Proof.
  destruct (SetOrderFacet_ndof (trig_fe 1 2 0 3 false) 1 5)
    as (E & _ & _ & _ & _ & Htrig & _); [cbn; lia|].
  split; [exact E|].
  destruct (Htrig ltac:(lia)) as (f1 & f2 & E1 & E2 & N).
  exists f1, f2. split; [exact E1|]. split; [exact E2|].
  rewrite N. reflexivity.
Defined.

(** ** Facet elements: the first degree of freedom of each facet *)

Module FacetProperties.

Import FacetFiniteElement_Family.

Lemma consecutive2_even (a : Z) : exists b, (a + 1) * (a + 2) = 2 * b /\ 0 <= b.
Proof.
  exists ((a + 1) * (a + 2) / 2).
  assert (Hm : ((a + 1) * (a + 2)) mod 2 = 0).
  { rewrite Z.mul_mod, <- !(Z.add_mod_idemp_l a) by lia.
    pose proof (Z.mod_pos_bound a 2 ltac:(lia)) as Hr.
    set (r := a mod 2) in *. clearbody r.
    assert (Hc : r = 0 \/ r = 1) by lia.
    destruct Hc as [->| ->]; reflexivity. }
  pose proof (Z.div_mod ((a + 1) * (a + 2)) 2 ltac:(lia)).
  split; [lia|]. apply Z.div_pos; [|lia].
  destruct (Z_le_gt_dec 0 (a + 1)); nia.
Qed.

(** The truncating division of the source is exact. *)
Lemma trig_facet_quot (fo : Z) :
  Z.quot ((fo + 1) * (fo + 2)) 2 = (fo + 1) * (fo + 2) / 2
  /\ 2 * ((fo + 1) * (fo + 2) / 2) = (fo + 1) * (fo + 2)
  /\ 0 <= (fo + 1) * (fo + 2) / 2.
Proof.
  destruct (consecutive2_even fo) as (b & Eb & Hb).
  rewrite Eb, (Z.mul_comm 2 b), Z.quot_mul, Z.div_mul by lia. lia.
Qed.

Section Loop.

Variable GetFacetType : nat -> ELEMENT_TYPE.
Variable orders : list Z.

Lemma facet_loop (first : list Z) (n : nat) :
  (n <= length first)%nat ->
  exists first',
    fold_left (fun '(ndof0, first0) i =>
                 let first0 := list_set first0 i ndof0 in
                 let fo := nth i orders 0 in
                 let ndof0 :=
                   match GetFacetType i with
                   | ET_SEGM => ndof0 + (fo + 1)
                   | ET_TRIG => ndof0 + Z.quot ((fo + 1) * (fo + 2)) 2
                   | ET_QUAD => ndof0 + sqr (fo + 1)
                   | _ => ndof0
                   end in
                 (ndof0, first0))
              (seq 0 n) (0, first)
    = (facet_offset GetFacetType orders n, first')
    /\ length first' = length first
    /\ (forall i, (i < n)%nat -> nth i first' 0 = facet_offset GetFacetType orders i)
    /\ (forall i, (n <= i)%nat -> nth i first' 0 = nth i first 0).
Proof.
  induction n as [|n IH]; intros Hn.
  - exists first. cbn. repeat split; intros; try lia; reflexivity.
  - destruct (IH ltac:(lia)) as (f1 & E & Hl & Hlt & Hge).
    rewrite seq_S, fold_left_app, E. cbn [Nat.add fold_left].
    eexists. split.
    { f_equal. cbn [facet_offset]. unfold facet_dofs, sqr.
      destruct (GetFacetType n); try lia.
      now rewrite (proj1 (trig_facet_quot _)). }
    split; [now rewrite length_list_set|].
    split.
    + intros i Hi. destruct (Nat.eq_dec i n) as [->|Hne].
      * apply nth_list_set_eq. lia.
      * rewrite nth_list_set_neq by exact Hne. apply Hlt. lia.
    + intros i Hi. rewrite nth_list_set_neq by lia. apply Hge. lia.
Qed.

End Loop.

End FacetProperties.

(** X21: [FacetFiniteElement_Family::ComputeNDof] numbers the
    functions facet by facet.  With room for [N_FACET + 1] entries,
    [first_facet_dof[i]] becomes the number of functions on the facets
    before [i], [first_facet_dof[N_FACET]] and [ndof] their total:
    consecutive entries differ by [fo+1] on a segment,
    [(fo+1)*(fo+2)/2] on a triangle (the truncating division is exact
    for every [fo]), [(fo+1)^2] on a quadrilateral and 0 on any other
    facet; the former [ndof] and the former entries play no part, and
    the entries are non-decreasing when no segment has an order below
    -1. *)
Theorem facet_first_dof_prefix_sums (N_FACET : nat)
  (GetFacetType : nat -> FacetFiniteElement_Family.ELEMENT_TYPE)
  (fe : FacetFiniteElement_Family.FacetVolumeFiniteElement) :
  (N_FACET < length (FacetFiniteElement_Family.first_facet_dof fe))%nat ->
  let fe' := FacetFiniteElement_Family.ComputeNDof N_FACET GetFacetType fe in
  let first' i := nth i (FacetFiniteElement_Family.first_facet_dof fe') 0 in
  let orders := FacetFiniteElement_Family.facet_order fe in
  first' 0%nat = 0
  /\ first' N_FACET = FacetFiniteElement_Family.ndof fe'
  /\ (forall i, (i <= N_FACET)%nat ->
        first' i = FacetFiniteElement_Family.facet_offset GetFacetType orders i)
  /\ (forall i, (i < N_FACET)%nat ->
        first' (Datatypes.S i) - first' i
        = FacetFiniteElement_Family.facet_dofs (GetFacetType i) (nth i orders 0))
  /\ (forall fo, 2 * FacetFiniteElement_Family.facet_dofs
                       FacetFiniteElement_Family.ET_TRIG fo = (fo + 1) * (fo + 2))
  /\ ((forall i, (i < N_FACET)%nat ->
         GetFacetType i = FacetFiniteElement_Family.ET_SEGM -> -1 <= nth i orders 0) ->
      forall i, (i < N_FACET)%nat -> first' i <= first' (Datatypes.S i))
  /\ FacetFiniteElement_Family.facet_order fe' = orders
  /\ length (FacetFiniteElement_Family.first_facet_dof fe')
     = length (FacetFiniteElement_Family.first_facet_dof fe)
  /\ (forall i, (N_FACET < i)%nat ->
        first' i = nth i (FacetFiniteElement_Family.first_facet_dof fe) 0).
Proof.
  intros Hlen fe' first' orders.
  destruct (FacetProperties.facet_loop GetFacetType orders
              (FacetFiniteElement_Family.first_facet_dof fe) N_FACET ltac:(lia))
    as (f1 & E & Hl & Hlt & Hge).
  assert (Efe : fe' = FacetFiniteElement_Family.mkFacetVolumeFiniteElement
                        (FacetFiniteElement_Family.facet_offset GetFacetType orders N_FACET)
                        (list_set f1 N_FACET
                           (FacetFiniteElement_Family.facet_offset GetFacetType orders
                              N_FACET))
                        orders).
  { unfold fe', FacetFiniteElement_Family.ComputeNDof.
    unfold orders in E. rewrite E. reflexivity. }
  assert (Hfirst : forall i, (i <= N_FACET)%nat ->
             first' i = FacetFiniteElement_Family.facet_offset GetFacetType orders i).
  { intros i Hi. unfold first'. rewrite Efe.
    cbn [FacetFiniteElement_Family.first_facet_dof].
    destruct (Nat.eq_dec i N_FACET) as [->|Hne].
    - apply nth_list_set_eq. lia.
    - rewrite nth_list_set_neq by exact Hne. apply Hlt. lia. }
  assert (Hdiff : forall i, (i < N_FACET)%nat ->
             first' (Datatypes.S i) - first' i
             = FacetFiniteElement_Family.facet_dofs (GetFacetType i) (nth i orders 0)).
  { intros i Hi. rewrite !Hfirst by lia.
    cbn [FacetFiniteElement_Family.facet_offset]. lia. }
  split; [apply (Hfirst 0%nat); lia|].
  split; [rewrite Hfirst by lia; rewrite Efe; reflexivity|].
  split; [exact Hfirst|]. split; [exact Hdiff|].
  split.
  { intros fo. cbn [FacetFiniteElement_Family.facet_dofs].
    apply (FacetProperties.trig_facet_quot fo). }
  split.
  { intros Hsegm i Hi. specialize (Hdiff i Hi). specialize (Hsegm i Hi).
    unfold FacetFiniteElement_Family.facet_dofs in Hdiff.
    destruct (GetFacetType i);
      try (pose proof (proj2 (proj2 (FacetProperties.trig_facet_quot (nth i orders 0))))
             as Hpos);
      try specialize (Hsegm eq_refl); nia. }
  split; [rewrite Efe; reflexivity|].
  split.
  { rewrite Efe. cbn [FacetFiniteElement_Family.first_facet_dof].
    now rewrite length_list_set. }
  intros i Hi. unfold first'. rewrite Efe.
  cbn [FacetFiniteElement_Family.first_facet_dof].
  rewrite nth_list_set_neq by lia. apply Hge. lia.
Qed.

(** X21, on a prism: two triangles of orders 2 and 1 and three
    quadrilaterals of orders 1, 0 and 2. *)
Lemma facet_first_dof_prefix_sums_witness :
  FacetFiniteElement_Family.ComputeNDof 5
    (fun i => if Nat.ltb i 2 then FacetFiniteElement_Family.ET_TRIG
              else FacetFiniteElement_Family.ET_QUAD)
    (FacetFiniteElement_Family.mkFacetVolumeFiniteElement 99 [7; 7; 7; 7; 7; 7; 7]
       [2; 1; 1; 0; 2])
  = FacetFiniteElement_Family.mkFacetVolumeFiniteElement 23 [0; 6; 9; 13; 14; 23; 7]
      [2; 1; 1; 0; 2]
  /\ forall i, (i < 5)%nat ->
       nth (Datatypes.S i) [0; 6; 9; 13; 14; 23; 7] 0 - nth i [0; 6; 9; 13; 14; 23; 7] 0
       = FacetFiniteElement_Family.facet_dofs
           (if Nat.ltb i 2 then FacetFiniteElement_Family.ET_TRIG
            else FacetFiniteElement_Family.ET_QUAD)
           (nth i [2; 1; 1; 0; 2] 0).
Proof.
  split; [reflexivity|].
  apply (facet_first_dof_prefix_sums 5
           (fun i => if Nat.ltb i 2 then FacetFiniteElement_Family.ET_TRIG
                     else FacetFiniteElement_Family.ET_QUAD)
           (FacetFiniteElement_Family.mkFacetVolumeFiniteElement 99 [7; 7; 7; 7; 7; 7; 7]
              [2; 1; 1; 0; 2])).
  cbn. lia.
Defined.

(** ** Facet elements: evaluation and its transpose *)

Module FacetVolIpProperties.

Import FacetFiniteElement_Family.

Section Transpose.

Variable W : nat.
Variable DIM : nat.
Variable T_CalcShapeFNr : Z -> list SIMD -> list (Z * SIMD).

Lemma HSum_linear (v s sh : SIMD) (a : Q) :
  HSum W (simd_mul v (simd_add s (simd_scale a sh)))
  == HSum W (simd_mul v s) + a * HSum W (simd_mul v sh).
Proof.
  unfold HSum. induction (seq 0 W) as [|l r IH]; cbn [map fold_right].
  - ring.
  - rewrite IH. unfold simd_mul, simd_add, simd_scale. ring.
Qed.

Lemma HSum_zero (v : SIMD) : HSum W (simd_mul v (simd_const 0)) == 0.
Proof.
  unfold HSum. induction (seq 0 W) as [|l r IH]; cbn [map fold_right].
  - reflexivity.
  - rewrite IH. unfold simd_mul, simd_const. ring.
Qed.

(** One point: the entry [k] gains what the value pairs with the
    function number [k]. *)
Lemma one_point (val : SIMD) (k : Z) (calls : list (Z * SIMD))
  (coefs : Z -> Q) (sum : SIMD) :
  fold_left (fun coefs '(j, shape) => add_at coefs j (HSum W (simd_mul val shape)))
            calls coefs k
  + HSum W (simd_mul val sum)
  == coefs k
     + HSum W (simd_mul val
                 (fold_left (fun sum '(j, shape) =>
                               simd_add sum (simd_scale (unit_coefs k j) shape))
                            calls sum)).
Proof.
  revert coefs sum. induction calls as [|[j shape] r IH]; intros coefs sum;
    cbn [fold_left]; [ring|].
  pose proof (IH (add_at coefs j (HSum W (simd_mul val shape)))
                 (simd_add sum (simd_scale (unit_coefs k j) shape))) as E.
  rewrite HSum_linear in E.
  set (X := fold_left _ r _ k) in *.
  set (Y := HSum W (simd_mul val (fold_left _ r _))) in *.
  unfold add_at, unit_coefs in E. rewrite (Z.eqb_sym j k) in E.
  destruct (k =? j); lra.
Qed.

Lemma pairing_S (n : nat) (a b : list SIMD) :
  pairing W (Datatypes.S n) a b
  == pairing W n a b
     + HSum W (simd_mul (nth n a (simd_const 0)) (nth n b (simd_const 0))).
Proof.
  unfold pairing. rewrite seq_S, map_app. cbn [Nat.add map].
  induction (map _ (seq 0 n)) as [|x r IH]; cbn [app fold_right]; [ring|].
  rewrite IH. ring.
Qed.

Lemma nth_map_seq {A} (f : nat -> A) (n i : nat) (d : A) :
  (i < n)%nat -> nth i (map f (seq 0 n)) d = f i.
Proof.
  intros Hi. rewrite (nth_indep _ d (f 0%nat)) by (now rewrite length_map, length_seq).
  rewrite map_nth, seq_nth by exact Hi. reflexivity.
Qed.

Lemma nth_Evaluate (fnr : Z) (hir : list (nat -> SIMD)) (coefs : Z -> Q) (i : nat) :
  (i < length hir)%nat ->
  nth i (EvaluateFacetVolIp DIM T_CalcShapeFNr fnr hir coefs) (simd_const 0)
  = fold_left (fun sum '(j, shape) => simd_add sum (simd_scale (coefs j) shape))
              (T_CalcShapeFNr fnr (point DIM (nth i hir (fun _ => simd_const 0))))
              (simd_const 0).
Proof.
  intros Hi. unfold EvaluateFacetVolIp. now rewrite nth_map_seq.
Qed.

Lemma transpose_prefix (fnr : Z) (hir : list (nat -> SIMD)) (values : list SIMD)
  (coefs : Z -> Q) (k : Z) (n : nat) :
  (n <= length hir)%nat ->
  fold_left (fun coefs i =>
               let val := nth i values (simd_const 0) in
               fold_left (fun coefs '(j, shape) =>
                            add_at coefs j (HSum W (simd_mul val shape)))
                         (T_CalcShapeFNr fnr (point DIM (nth i hir (fun _ => simd_const 0))))
                         coefs)
            (seq 0 n) coefs k
  == coefs k
     + pairing W n values
         (EvaluateFacetVolIp DIM T_CalcShapeFNr fnr hir (unit_coefs k)).
Proof.
  induction n as [|n IH]; intros Hn.
  - cbn. ring.
  - rewrite seq_S, fold_left_app. cbn [Nat.add fold_left].
    rewrite pairing_S, nth_Evaluate by lia.
    pose proof (one_point (nth n values (simd_const 0)) k
                  (T_CalcShapeFNr fnr (point DIM (nth n hir (fun _ => simd_const 0))))
                  (fold_left (fun coefs i =>
                     let val := nth i values (simd_const 0) in
                     fold_left (fun coefs '(j, shape) =>
                                  add_at coefs j (HSum W (simd_mul val shape)))
                               (T_CalcShapeFNr fnr
                                  (point DIM (nth i hir (fun _ => simd_const 0))))
                               coefs)
                     (seq 0 n) coefs)
                  (simd_const 0)) as Hone.
    rewrite HSum_zero, (IH ltac:(lia)) in Hone.
    cbv zeta in *. lra.
Qed.

End Transpose.

End FacetVolIpProperties.

(** X22: [AddTransFacetVolIp] is the transpose of
    [EvaluateFacetVolIp].  Whatever calls [T_CalcShapeFNr] makes, for
    every facet, integration rule, width of the SIMD vectors and
    function number [k], the coefficient [k] gains exactly the pairing
    (the sum over the points and the lanes of the products) of the
    values with the evaluation of the basis function number [k]; the
    former coefficients are added to, not overwritten, and
    [EvaluateFacetVolIp] writes one value for each point. *)
Theorem facet_AddTrans_is_transpose (W DIM : nat)
  (T_CalcShapeFNr : Z -> list FacetFiniteElement_Family.SIMD
                    -> list (Z * FacetFiniteElement_Family.SIMD))
  (fnr : Z) (hir : list (nat -> FacetFiniteElement_Family.SIMD))
  (values : list FacetFiniteElement_Family.SIMD) (coefs : Z -> Q) (k : Z) :
  FacetFiniteElement_Family.AddTransFacetVolIp W DIM T_CalcShapeFNr fnr hir values coefs k
  == coefs k
     + FacetFiniteElement_Family.pairing W (length hir) values
         (FacetFiniteElement_Family.EvaluateFacetVolIp DIM T_CalcShapeFNr fnr hir
            (FacetFiniteElement_Family.unit_coefs k))
  /\ length (FacetFiniteElement_Family.EvaluateFacetVolIp DIM T_CalcShapeFNr fnr hir coefs)
     = length hir.
Proof.
  split.
  - apply (FacetVolIpProperties.transpose_prefix W DIM T_CalcShapeFNr fnr hir values
             coefs k (length hir) (Nat.le_refl _)).
  - unfold FacetFiniteElement_Family.EvaluateFacetVolIp.
    now rewrite length_map, length_seq.
Qed.

(** ** One enumeration behind every evaluation *)

(** X23: [CalcShape] and [CalcDivShape] enumerate the same basis
    functions: there is one sequence of values handed to the callback,
    the same for both, such that row [nr] of [CalcShape] is [Shape()]
    and row [nr] of [CalcDivShape] is [DivShape()] of the value number
    [nr]; the two evaluations have the same outcome and write the same
    row numbers.  This holds on the triangle and on the tetrahedron for
    every element and every point. *)
Theorem rows_share_blocks {S} `{Scalar S} (P : Polynomials S) (T : ElementTopology)
  (fe : T_HCurlDivFE) (ip : list S) :
  (exists blocks : list (Z * TrigShape S),
      Forall2 (row_of (fun val => Ok (Shape val))) blocks
              (snd (CalcShape (HCurlDivFE_ET_TRIG P T) fe ip))
      /\ Forall2 (row_of (fun val => DivShape val)) blocks
                 (snd (CalcDivShape (HCurlDivFE_ET_TRIG P T) fe ip)))
  /\ fst (CalcShape (HCurlDivFE_ET_TRIG P T) fe ip)
     = fst (CalcDivShape (HCurlDivFE_ET_TRIG P T) fe ip)
  /\ map fst (snd (CalcShape (HCurlDivFE_ET_TRIG P T) fe ip))
     = map fst (snd (CalcDivShape (HCurlDivFE_ET_TRIG P T) fe ip))
  /\ (exists blocks : list (Z * TetShape S),
        Forall2 (row_of (fun val => Ok (Shape val))) blocks
                (snd (CalcShape (HCurlDivFE_ET_TET P T) fe ip))
        /\ Forall2 (row_of (fun val => DivShape val)) blocks
                   (snd (CalcDivShape (HCurlDivFE_ET_TET P T) fe ip)))
  /\ fst (CalcShape (HCurlDivFE_ET_TET P T) fe ip)
     = fst (CalcDivShape (HCurlDivFE_ET_TET P T) fe ip)
  /\ map fst (snd (CalcShape (HCurlDivFE_ET_TET P T) fe ip))
     = map fst (snd (CalcDivShape (HCurlDivFE_ET_TET P T) fe ip)).
Proof.
  set (x2 := coord (reference_point 2 ip) 0).
  set (y2 := coord (reference_point 2 ip) 1).
  set (x3 := coord (reference_point 3 ip) 0).
  set (y3 := coord (reference_point 3 ip) 1).
  set (z3 := coord (reference_point 3 ip) 2).
  destruct (tracks_initial (fun val : TrigShape S => Ok (Shape val)) _ _ tt
              (trig_body_tracks P T fe x2 y2 _ (total_Ok _))) as (Es2 & Fs2 & _).
  destruct (tracks_initial (fun val : TrigShape S => DivShape val) _ _ tt
              (trig_body_tracks P T fe x2 y2 _ DivShape_TrigShape_total))
    as (Ed2 & Fd2 & _).
  destruct (tracks_initial (fun val : TetShape S => Ok (Shape val)) _ _
              (mkJacobiLocals 1 0)
              (tet_body_tracks P T fe x3 y3 z3 _ (total_Ok _))) as (Es3 & Fs3 & _).
  destruct (tracks_initial (fun val : TetShape S => DivShape val) _ _
              (mkJacobiLocals 1 0)
              (tet_body_tracks P T fe x3 y3 z3 _ DivShape_TetShape_total))
    as (Ed3 & Fd3 & _).
  split; [eexists; split; [exact Fs2 | exact Fd2]|].
  split; [exact (eq_trans (eq_sym Es2) Ed2)|].
  split.
  { exact (eq_trans (eq_sym (Forall2_row_of_fst _ _ _ Fs2))
                    (Forall2_row_of_fst _ _ _ Fd2)). }
  split; [eexists; split; [exact Fs3 | exact Fd3]|].
  split; [exact (eq_trans (eq_sym Es3) Ed3)|].
  exact (eq_trans (eq_sym (Forall2_row_of_fst _ _ _ Fs3))
                  (Forall2_row_of_fst _ _ _ Fd3)).
Qed.

(** ** The triangle of any order *)



(** ** The layout of the rows of the tetrahedron *)

Section EmitsFamily.

Context {L : Type}.
Variable F : TetFamily.

Lemma emits_family_ret {A} (a : A) : emits_family (L:=L) (ret a) F 0.
Proof. apply emits_vals_ret. Qed.

Lemma emits_family_bind {A B} (m : M TetFamily L A) (k : A -> M TetFamily L B)
  (n1 n2 : nat) :
  emits_family m F n1 -> (forall a, emits_family (k a) F n2) ->
  emits_family (bind m k) F (n1 + n2).
Proof.
  intros Hm Hk. unfold emits_family. rewrite repeat_app.
  apply emits_vals_bind; assumption.
Qed.

Lemma emits_family_bind0 {A B} (m : M TetFamily L A) (k : A -> M TetFamily L B)
  (n : nat) :
  emits_family m F 0 -> (forall a, emits_family (k a) F n) ->
  emits_family (bind m k) F n.
Proof. intros Hm Hk. apply (emits_family_bind m k 0 n Hm Hk). Qed.

Lemma emits_family_eq {A} (m : M TetFamily L A) (n n' : nat) :
  emits_family m F n -> n = n' -> emits_family m F n'.
Proof. now intros Hm <-. Qed.

Lemma emits_family_for {X} (xs : list X) (body : X -> M TetFamily L unit)
  (f : X -> nat) :
  (forall x, emits_family (body x) F (f x)) ->
  emits_family (for_ xs body) F (list_sum (map f xs)).
Proof.
  intros Hb. induction xs as [|x r IH]; cbn [for_ map].
  - apply emits_family_ret.
  - change (list_sum (f x :: map f r)) with (f x + list_sum (map f r))%nat.
    apply emits_family_bind; [apply Hb | intros _; exact IH].
Qed.

Lemma emits_family_for_const {X} (xs : list X) (body : X -> M TetFamily L unit)
  (c : nat) :
  (forall x, emits_family (body x) F c) ->
  emits_family (for_ xs body) F (length xs * c).
Proof.
  intros Hb. eapply emits_family_eq; [apply (emits_family_for xs body (fun _ => c) Hb)|].
  apply list_sum_const.
Qed.

Lemma emits_family_emit {S} (val : TetShape S) :
  tet_family_of val = F -> emits_family (L:=L) (emit record_tet_family val) F 1.
Proof.
  intros E. apply emits_vals_emit. unfold record_tet_family. now rewrite E.
Qed.

Lemma emits_family_subscript {S D} (a : ArrayMem S D) (l : Z) :
  emits_family (L:=L) (subscript a l) F 0.
Proof. apply emits_vals_subscript. Qed.

Lemma emits_family_get_locals : emits_family (get_locals (L:=L)) F 0.
Proof.
  intros s. eexists _, _. split; [reflexivity|]. cbn.
  rewrite app_nil_r. split; [lia|reflexivity].
Qed.

Lemma emits_family_set_locals (l : L) : emits_family (set_locals l) F 0.
Proof.
  intros s. eexists _, _. split; [reflexivity|]. cbn.
  rewrite app_nil_r. split; [lia|reflexivity].
Qed.

End EmitsFamily.

Ltac emits_family_step :=
  lazymatch goal with
  | |- emits_family (ret _) _ _ => apply emits_family_ret
  | |- emits_family (subscript _ _) _ _ => apply emits_family_subscript
  | |- emits_family get_locals _ _ => apply emits_family_get_locals
  | |- emits_family (set_locals _) _ _ => apply emits_family_set_locals
  | |- emits_family (emit _ _) _ _ => apply emits_family_emit; reflexivity
  | |- emits_family (bind (emit _ _) _) _ _ =>
      apply (emits_family_bind _ _ _ 1);
      [apply emits_family_emit; reflexivity | intros ?]
  | |- emits_family (bind (subscript _ _) _) _ _ =>
      apply emits_family_bind0; [apply emits_family_subscript | intros ?]
  | |- emits_family (bind get_locals _) _ _ =>
      apply emits_family_bind0; [apply emits_family_get_locals | intros ?]
  end.

Section TetLayout.

Context {S : Type} `{Scalar S}.
Variable P : Polynomials S.
Variable T : ElementTopology.

Lemma interior_emits_family (F : TetFamily) (n : Z) (ls le lt lo : AutoDiffDiff S 3)
  (inner : AutoDiffDiff S 3 -> M TetFamily JacobiLocals unit) (c : nat) :
  (forall val, emits_family (inner val) F c) ->
  emits_family (HCurlDivFE_TET.interior P n ls le lt lo inner) F
               (tet_interior_count n c).
Proof.
  intros Hinner.
  unfold HCurlDivFE_TET.interior, tet_interior_count, callback_eval,
    HCurlDivFE_TET.set_jac2, HCurlDivFE_TET.get_jac1, HCurlDivFE_TET.get_jac2,
    HCurlDivFE_TET.jac1_IncAlpha2, HCurlDivFE_TET.jac2_IncAlpha2.
  apply emits_family_for. intros k.
  apply emits_family_bind0; [repeat emits_family_step | intros _].
  apply emits_family_bind0; [repeat emits_family_step | intros a1].
  eapply emits_family_eq;
    [eapply (emits_family_bind _ _ _ _ 0); [|intros _; repeat emits_family_step]
    |apply Nat.add_0_r].
  apply emits_family_for. intros j.
  apply emits_family_bind0; [repeat emits_family_step | intros a2].
  eapply emits_family_eq;
    [eapply (emits_family_bind _ _ _ _ 0); [|intros _; repeat emits_family_step]
    |apply Nat.add_0_r].
  apply emits_family_for_const. intros l. apply Hinner.
Qed.

Lemma tet_body_layout (fe : T_HCurlDivFE) (x y z : AutoDiffDiff S 3) :
  emits_vals (HCurlDivFE_TET.T_CalcShape_body P T fe x y z record_tet_family)
    (repeat Family_face (tet_face_rows fe)
     ++ repeat Family_identity (tet_interior_count (order_inner fe) 1)
     ++ repeat Family_face (tet_interior_count (order_inner fe - 1) 8)).
Proof.
  unfold HCurlDivFE_TET.T_CalcShape_body.
  apply emits_vals_bind.
  { apply (emits_family_for Family_face). intros fa.
    destruct (vnum fe (GetFaces_TET T fa 0) >? vnum fe (GetFaces_TET T fa 1));
      match goal with
      | |- context [if ?c then _ else _] => destruct c
      end;
      match goal with
      | |- context [if ?c then _ else _] => destruct c
      end;
      apply emits_family_for_const; intros l; repeat emits_family_step. }
  intros _. apply emits_vals_bind.
  - apply (interior_emits_family Family_identity). intros val.
    repeat emits_family_step.
  - intros _. apply (interior_emits_family Family_face). intros val.
    repeat emits_family_step.
Qed.

Lemma tet_families (fe : T_HCurlDivFE) (x y z : AutoDiffDiff S 3) :
  map (fun b => tet_family_of (snd b))
      (written (snd (HCurlDivFE_TET.T_CalcShape P T fe x y z Ok)))
  = repeat Family_face (tet_face_rows fe)
    ++ repeat Family_identity (tet_interior_count (order_inner fe) 1)
    ++ repeat Family_face (tet_interior_count (order_inner fe - 1) 8).
Proof.
  destruct (tracks_initial record_tet_family _ _ (mkJacobiLocals 1 0)
              (tet_body_tracks P T fe x y z record_tet_family (total_Ok _)))
    as (_ & W & _).
  rewrite <- (proj2 (emits_vals_initial _ _ (mkJacobiLocals 1 0)
                       (tet_body_layout fe x y z))).
  unfold HCurlDivFE_TET.T_CalcShape.
  induction W as [|p q l1 l2 [_ E] _ IH]; [reflexivity|].
  cbn [map]. f_equal; [|exact IH].
  unfold record_tet_family in E. congruence.
Qed.

End TetLayout.

(** X25: the rows of the tetrahedron come in three blocks, for every
    element: the face functions of the four faces, then the identity
    bubbles [T_Id_v<3>], then the face-type interior functions.  For
    face and interior orders in 0..6 the blocks hold
    [sum_f (order_facet[f]+1)*(order_facet[f]+2)], [C(oi+3,3)] and
    [8*C(oi+2,3)] rows, so that the identity bubbles are the rows from
    [sum_f (order_facet[f]+1)*(order_facet[f]+2)] on. *)
Theorem tet_row_layout {S} `{Scalar S} (P : Polynomials S) (T : ElementTopology)
  (fe : T_HCurlDivFE) (x y z : AutoDiffDiff S 3) :
  (forall i, (i < 4)%nat -> 0 <= facet fe i <= 6) ->
  0 <= order_inner fe <= 6 ->
  map (fun b => tet_family_of (snd b))
      (written (snd (HCurlDivFE_TET.T_CalcShape P T fe x y z Ok)))
  = repeat Family_face
      (Z.to_nat ((facet fe 0 + 1) * (facet fe 0 + 2) + (facet fe 1 + 1) * (facet fe 1 + 2)
                 + (facet fe 2 + 1) * (facet fe 2 + 2)
                 + (facet fe 3 + 1) * (facet fe 3 + 2)))
    ++ repeat Family_identity
         (Z.to_nat ((order_inner fe + 1) * (order_inner fe + 2) * (order_inner fe + 3) / 6))
    ++ repeat Family_face
         (Z.to_nat (8 * ((order_inner fe + 2) * (order_inner fe + 1) * order_inner fe / 6))).
Proof.
  intros Hf Hoi. rewrite tet_families.
  assert (Hfaces : tet_face_rows fe
                   = Z.to_nat ((facet fe 0 + 1) * (facet fe 0 + 2)
                               + (facet fe 1 + 1) * (facet fe 1 + 2)
                               + (facet fe 2 + 1) * (facet fe 2 + 2)
                               + (facet fe 3 + 1) * (facet fe 3 + 2))).
  { unfold tet_face_rows. cbn [seq map list_sum fold_right].
    rewrite (proj2 (face_modes _ (Hf 0%nat ltac:(lia)))),
      (proj2 (face_modes _ (Hf 1%nat ltac:(lia)))),
      (proj2 (face_modes _ (Hf 2%nat ltac:(lia)))),
      (proj2 (face_modes _ (Hf 3%nat ltac:(lia)))).
    pose proof (Hf 0%nat ltac:(lia)). pose proof (Hf 1%nat ltac:(lia)).
    pose proof (Hf 2%nat ltac:(lia)). pose proof (Hf 3%nat ltac:(lia)). nia. }
  rewrite Hfaces. f_equal.
  clear - Hoi. cases_0_6 Hoi; reflexivity.
Qed.

(** X25, at face orders (1, 0, 1, 1) and interior order 2: rows 0..19
    are face functions, rows 20..29 identity bubbles and rows 30..61
    interior face-type functions. *)
Lemma tet_row_layout_witness :
  map (fun b => tet_family_of (snd b))
      (written (snd (HCurlDivFE_TET.T_CalcShape power_polynomials opposite_topology
                       (tet_fe 1 0 1 1 2 false)
                       (ADD_var 3 (1 # 4)%Q 0) (ADD_var 3 (1 # 4)%Q 1)
                       (ADD_var 3 (1 # 4)%Q 2) Ok)))
  = repeat Family_face 20 ++ repeat Family_identity 10 ++ repeat Family_face 32.
Proof.
  apply (tet_row_layout power_polynomials opposite_topology (tet_fe 1 0 1 1 2 false)).
  - intros i Hi. destruct i as [|[|[|[|i]]]]; try lia; cbn; lia.
  - cbn. lia.
Defined.

(** ** The mapped evaluations and the emitted values *)

(** X26: for every mapped point, whatever its Jacobian,
    [CalcMappedShape] writes [Shape()] of the values that [T_CalcShape]
    emits at the coordinates built from the mapped point, unchanged:
    [VecToMat] copies every entry and no transformation is applied to
    the row; on a non-curved element [CalcMappedDivShape] writes
    [DivShape()] of the same values, with the same outcome and the same
    row numbers. *)
Theorem mapped_rows_share_blocks {S} `{Scalar S} (P : Polynomials S)
  (T : ElementTopology) (fe : T_HCurlDivFE) (mip : MappedIntegrationPoint S) :
  CalcMappedShape (HCurlDivFE_ET_TRIG P T) fe mip
  = rows_of (Cast_T_CalcShape (HCurlDivFE_ET_TRIG P T) fe (mapped_point 2 mip)
               (fun val => Ok (Shape val)))
  /\ CalcMappedShape (HCurlDivFE_ET_TET P T) fe mip
     = rows_of (Cast_T_CalcShape (HCurlDivFE_ET_TET P T) fe (mapped_point 3 mip)
                  (fun val => Ok (Shape val)))
  /\ (exists blocks : list (Z * TrigShape S),
        Forall2 (row_of (fun val => Ok (Shape val))) blocks
                (snd (CalcMappedShape (HCurlDivFE_ET_TRIG P T) fe mip))
        /\ (IsCurvedElement mip = false ->
            Forall2 (row_of (fun val => DivShape val)) blocks
                    (snd (CalcMappedDivShape (HCurlDivFE_ET_TRIG P T) fe mip))
            /\ fst (CalcMappedShape (HCurlDivFE_ET_TRIG P T) fe mip)
               = fst (CalcMappedDivShape (HCurlDivFE_ET_TRIG P T) fe mip)))
  /\ (exists blocks : list (Z * TetShape S),
        Forall2 (row_of (fun val => Ok (Shape val))) blocks
                (snd (CalcMappedShape (HCurlDivFE_ET_TET P T) fe mip))
        /\ (IsCurvedElement mip = false ->
            Forall2 (row_of (fun val => DivShape val)) blocks
                    (snd (CalcMappedDivShape (HCurlDivFE_ET_TET P T) fe mip))
            /\ fst (CalcMappedShape (HCurlDivFE_ET_TET P T) fe mip)
               = fst (CalcMappedDivShape (HCurlDivFE_ET_TET P T) fe mip))).
Proof.
  set (x2 := coord (mapped_point 2 mip) 0).
  set (y2 := coord (mapped_point 2 mip) 1).
  set (x3 := coord (mapped_point 3 mip) 0).
  set (y3 := coord (mapped_point 3 mip) 1).
  set (z3 := coord (mapped_point 3 mip) 2).
  assert (E2 : CalcMappedShape (HCurlDivFE_ET_TRIG P T) fe mip
               = rows_of (HCurlDivFE_TRIG.T_CalcShape P T fe x2 y2
                            (fun val => Ok (Shape val)))).
  { apply (trig_callback_ext P T fe x2 y2
             (fun val => Ok (VecToMat 2 (Shape val))) (fun val => Ok (Shape val))).
    - apply total_Ok.
    - intros val. f_equal. apply VecToMat_Shape_TrigShape. }
  assert (E3 : CalcMappedShape (HCurlDivFE_ET_TET P T) fe mip
               = rows_of (HCurlDivFE_TET.T_CalcShape P T fe x3 y3 z3
                            (fun val => Ok (Shape val)))).
  { apply (tet_callback_ext P T fe x3 y3 z3
             (fun val => Ok (VecToMat 3 (Shape val))) (fun val => Ok (Shape val))).
    - apply total_Ok.
    - intros val. f_equal. apply VecToMat_Shape_TetShape. }
  destruct (tracks_initial (fun val : TrigShape S => Ok (Shape val)) _ _ tt
              (trig_body_tracks P T fe x2 y2 _ (total_Ok _))) as (Es2 & Fs2 & _).
  destruct (tracks_initial (fun val : TrigShape S => DivShape val) _ _ tt
              (trig_body_tracks P T fe x2 y2 _ DivShape_TrigShape_total))
    as (Ed2 & Fd2 & _).
  destruct (tracks_initial (fun val : TetShape S => Ok (Shape val)) _ _
              (mkJacobiLocals 1 0)
              (tet_body_tracks P T fe x3 y3 z3 _ (total_Ok _))) as (Es3 & Fs3 & _).
  destruct (tracks_initial (fun val : TetShape S => DivShape val) _ _
              (mkJacobiLocals 1 0)
              (tet_body_tracks P T fe x3 y3 z3 _ DivShape_TetShape_total))
    as (Ed3 & Fd3 & _).
  split; [exact E2|]. split; [exact E3|].
  split.
  - eexists. rewrite E2. split; [exact Fs2|].
    intros Hc. unfold CalcMappedDivShape. rewrite Hc. cbn [negb].
    split; [exact Fd2|]. exact (eq_trans (eq_sym Es2) Ed2).
  - eexists. rewrite E3. split; [exact Fs3|].
    intros Hc. unfold CalcMappedDivShape. rewrite Hc. cbn [negb].
    split; [exact Fd3|]. exact (eq_trans (eq_sym Es3) Ed3).
Qed.

(** ** Facet elements: linearity of the evaluation *)

Lemma Evaluate_point_linear (calls : list (Z * FacetFiniteElement_Family.SIMD))
  (a : Q) (c1 c2 : Z -> Q) (s s1 s2 : FacetFiniteElement_Family.SIMD) (l : nat) :
  s l == a * s1 l + s2 l ->
  fold_left (fun sum '(j, shape) =>
               FacetFiniteElement_Family.simd_add sum
                 (FacetFiniteElement_Family.simd_scale (a * c1 j + c2 j)%Q shape))
            calls s l
  == a * fold_left (fun sum '(j, shape) =>
                      FacetFiniteElement_Family.simd_add sum
                        (FacetFiniteElement_Family.simd_scale (c1 j) shape))
                   calls s1 l
     + fold_left (fun sum '(j, shape) =>
                    FacetFiniteElement_Family.simd_add sum
                      (FacetFiniteElement_Family.simd_scale (c2 j) shape))
                 calls s2 l.
Proof.
  revert s s1 s2. induction calls as [|[j shape] r IH]; intros s s1 s2 Hs;
    cbn [fold_left]; [exact Hs|].
  apply IH.
  unfold FacetFiniteElement_Family.simd_add, FacetFiniteElement_Family.simd_scale.
  rewrite Hs. ring.
Qed.

(** X27: [EvaluateFacetVolIp] is linear in the coefficients: on every
    point and every lane, the value for the coefficients
    [a * c1 + c2] is [a] times the value for [c1] plus the value for
    [c2], whatever calls [T_CalcShapeFNr] makes. *)
Theorem facet_Evaluate_linear (DIM : nat)
  (T_CalcShapeFNr : Z -> list FacetFiniteElement_Family.SIMD
                    -> list (Z * FacetFiniteElement_Family.SIMD))
  (fnr : Z) (hir : list (nat -> FacetFiniteElement_Family.SIMD))
  (a : Q) (c1 c2 : Z -> Q) (i l : nat) :
  nth i (FacetFiniteElement_Family.EvaluateFacetVolIp DIM T_CalcShapeFNr fnr hir
           (fun j => (a * c1 j + c2 j)%Q))
        (FacetFiniteElement_Family.simd_const 0) l
  == a * nth i (FacetFiniteElement_Family.EvaluateFacetVolIp DIM T_CalcShapeFNr fnr hir c1)
               (FacetFiniteElement_Family.simd_const 0) l
     + nth i (FacetFiniteElement_Family.EvaluateFacetVolIp DIM T_CalcShapeFNr fnr hir c2)
             (FacetFiniteElement_Family.simd_const 0) l.
Proof.
  destruct (Nat.lt_ge_cases i (length hir)) as [Hi|Hi].
  - rewrite !(FacetVolIpProperties.nth_Evaluate DIM T_CalcShapeFNr) by exact Hi.
    apply Evaluate_point_linear.
    unfold FacetFiniteElement_Family.simd_const. ring.
  - rewrite !nth_overflow
      by (unfold FacetFiniteElement_Family.EvaluateFacetVolIp;
          rewrite length_map, length_seq; exact Hi).
    unfold FacetFiniteElement_Family.simd_const. ring.
Qed.
